(** * Conan Exiles Save Manager: the copy engine and the slot store

    A shallow embedding of [src/main.py]: [CopyWorker.run] (the selective
    copy between two directory roots), the slot registry of [MainWindow]
    ([refresh_saves], [get_save_mode], [save_metadata], [backup_save],
    [create_new_save]) and the check-box tree walk [get_checked_paths].

    The file system is one tree of regular files and directories, addressed
    by absolute paths.  Symbolic links, permission bits, time stamps of
    files and device failures are outside the model, so the failures a call
    can meet are the ones the layout of the tree produces: a file standing
    where a directory is needed, a directory standing where a file is to be
    written, a missing parent.  Paths follow POSIX rules.

    A path of the model is a list of entry names.  The component [..],
    which the operating system resolves to the parent of a directory, is
    no entry name: a string with such a component is outside what the
    model resolves.  Where a statement depends on what a string leads
    to, its hypotheses keep to the strings the model resolves:
    [PathStr.plain] for the paths of a copy, [Props.valid_name] and
    [Props.slot_name] for the name of a slot.  The limits a file system
    puts on the length of a name or of a path belong to the failures of
    the device and are outside the model as well.

    A copy reads its source as the tree holds it when the copy of a
    listed path starts, which is what the library calls see when nothing
    is written below the source: the statements about what a copy
    between two roots does assume roots that do not lead into each other
    ([Spec.disjoint]).  The one run with a destination inside its
    source, [Examples.inside], copies a single regular file, for which
    the order of reading plays no part. *)

From stdpp Require Import base tactics option list strings.
From Stdlib Require Import ZArith Lia Permutation Sorted SpecFloat Ascii.
From Stdlib.Strings Require Import Byte.

Set Warnings "-register-all".

Open Scope string_scope.
Open Scope list_scope.

(** ** The file system *)

Module FS.

Definition path := list string.
Definition bytes := list byte.

Inductive node :=
| File (data : bytes)
| Dir (entries : list (string * node)).

(** A directory is an association list read at the first binding of a name. *)
Fixpoint assoc (n : string) (es : list (string * node)) : option node :=
  match es with
  | [] => None
  | (m, x) :: r => if String.eqb n m then Some x else assoc n r
  end.

Fixpoint set_entry (n : string) (x : node) (es : list (string * node))
  : list (string * node) :=
  match es with
  | [] => [(n, x)]
  | (m, y) :: r =>
      if String.eqb n m then (n, x) :: r else (m, y) :: set_entry n x r
  end.

Fixpoint node_at (t : node) (p : path) : option node :=
  match p with
  | [] => Some t
  | n :: q =>
      match t with
      | File _ => None
      | Dir es =>
          match assoc n es with
          | Some c => node_at c q
          | None => None
          end
      end
  end.

(** [os.path.exists], [Path.exists], [Path.is_dir], [Path.is_file]:
    a path below a regular file does not exist. *)
Definition path_exists (t : node) (p : path) : bool :=
  match node_at t p with Some _ => true | None => false end.

Definition is_dir (t : node) (p : path) : bool :=
  match node_at t p with Some (Dir _) => true | _ => false end.

Definition is_file (t : node) (p : path) : bool :=
  match node_at t p with Some (File _) => true | _ => false end.

(** The error numbers the tree can produce, and [OSError] with its
    [filename]. *)
Inductive errno := ENOENT | EEXIST | ENOTDIR | EISDIR.

Record oserror := OSErr { err_no : errno; err_path : path }.

(** One system call that changes the entry named by the last component of
    [p]: every component before it must be a directory ([ENOTDIR] below a
    file, [ENOENT] below a missing name), then [f] decides from what is
    there. *)
Fixpoint update_at (f : option node -> node + errno) (p : path) (t : node)
  : node + errno :=
  match p with
  | [] => f (Some t)
  | n :: q =>
      match t with
      | File _ => inr ENOTDIR
      | Dir es =>
          match assoc n es with
          | Some c =>
              match update_at f q c with
              | inl c' => inl (Dir (set_entry n c' es))
              | inr e => inr e
              end
          | None =>
              match q with
              | [] =>
                  match f None with
                  | inl x => inl (Dir (set_entry n x es))
                  | inr e => inr e
                  end
              | _ :: _ => inr ENOENT
              end
          end
      end
  end.

Definition with_path (p : path) (r : node + errno) : node + oserror :=
  match r with
  | inl t => inl t
  | inr e => inr (OSErr e p)
  end.

(** [os.mkdir(p)]. *)
Definition mkdir_entry (o : option node) : node + errno :=
  match o with
  | None => inl (Dir [])
  | Some _ => inr EEXIST
  end.

Definition os_mkdir (t : node) (p : path) : node + oserror :=
  with_path p (update_at mkdir_entry p t).

(** [open(p, 'wb')] followed by writing [data] and closing. *)
Definition write_entry (data : bytes) (o : option node) : node + errno :=
  match o with
  | Some (Dir _) => inr EISDIR
  | _ => inl (File data)
  end.

Definition write_file (t : node) (p : path) (data : bytes) : node + oserror :=
  with_path p (update_at (write_entry data) p t).

(** [open(p)] followed by reading everything. *)
Fixpoint read_errno (t : node) (p : path) : errno :=
  match p with
  | [] => EISDIR
  | n :: q =>
      match t with
      | File _ => ENOTDIR
      | Dir es =>
          match assoc n es with
          | Some c => read_errno c q
          | None => ENOENT
          end
      end
  end.

Definition read_file (t : node) (p : path) : bytes + oserror :=
  match node_at t p with
  | Some (File data) => inl data
  | _ => inr (OSErr (read_errno t p) p)
  end.

End FS.

(** ** The library calls of the copy engine

    [os.makedirs], [Path.mkdir], [shutil.copy2] and [shutil.copytree] as
    CPython defines them, over the tree above.  Each returns the tree it
    leaves behind together with the exception it raised, if any: a failed
    [copytree] has copied what it could. *)

Module Lib.
Import FS.

Inductive exn :=
| OSError (e : oserror)
| ShutilError (errors : list (path * path * oserror)).

Definition raised (r : node + oserror) (t : node) : node * option oserror :=
  match r with
  | inl t' => (t', None)
  | inr e => (t, Some e)
  end.

(** [try: mkdir(name) except OSError: if not exist_ok or not isdir(name):
    raise], the last statement of [os.makedirs] and the second handler of
    [Path.mkdir], with [exist_ok=True]. *)
Definition mkdir_exist_ok (t : node) (name : path) : node * option oserror :=
  match os_mkdir t name with
  | inl t' => (t', None)
  | inr e => if is_dir t name then (t, None) else (t, Some e)
  end.

(** [os.makedirs(name, exist_ok=True)], on the reversed path [rname]:
    [head] is the path without its last component.  A missing [head] is
    made first, and a [FileExistsError] from that call is passed over. *)
Fixpoint makedirs_rev (rname : list string) (t : node)
  : node * option oserror :=
  match rname with
  | [] => mkdir_exist_ok t []
  | _ :: rhead =>
      let head := rev rhead in
      let '(t1, r) :=
        if negb (path_exists t head) then makedirs_rev rhead t
        else (t, None) in
      match r with
      | Some (OSErr EEXIST _) | None => mkdir_exist_ok t1 (rev rname)
      | Some e => (t1, Some e)
      end
  end.

Definition makedirs (t : node) (name : path) : node * option oserror :=
  makedirs_rev (rev name) t.

(** [Path.mkdir(parents=True, exist_ok=True)], on the reversed path:
    [os.mkdir] is tried first; on [FileNotFoundError] the parent is made
    (with parents) and [mkdir(parents=False, exist_ok=True)] is called;
    any other [OSError] is passed over when the path is a directory. *)
Fixpoint path_mkdir_rev (rself : list string) (t : node)
  : node * option oserror :=
  let self := rev rself in
  match os_mkdir t self with
  | inl t' => (t', None)
  | inr (OSErr ENOENT _ as e) =>
      match rself with
      | [] => (t, Some e)
      | _ :: rparent =>
          let '(t1, r) := path_mkdir_rev rparent t in
          match r with
          | Some e1 => (t1, Some e1)
          | None =>
              match os_mkdir t1 self with
              | inl t2 => (t2, None)
              | inr (OSErr ENOENT _ as e2) => (t1, Some e2)
              | inr e2 => if is_dir t1 self then (t1, None) else (t1, Some e2)
              end
          end
      end
  | inr e => if is_dir t self then (t, None) else (t, Some e)
  end.

Definition path_mkdir (t : node) (self : path) : node * option oserror :=
  path_mkdir_rev (rev self) t.

(** [shutil.copy2(src, dst)] for a source file holding [data] whose last
    component is [name]: a [dst] that is a directory stands for
    [dst/name]; then the destination is opened for writing and filled.
    [shutil.copyfile] first raises [SameFileError] when the destination is
    the source file itself; the paths of a copy between roots that do not
    lead into each other are never the same file, and this failure is not
    among the ones modelled. *)
Definition copy2 (data : bytes) (name : string) (dst : path) (t : node)
  : node * option oserror :=
  let dst := if is_dir t dst then dst ++ [name] else dst in
  raised (write_file t dst data) t.

Definition collect (srcname dstname : path) (r : option exn)
  : list (path * path * oserror) :=
  match r with
  | None => []
  | Some (ShutilError l) => l
  | Some (OSError e) => [(srcname, dstname, e)]
  end.

(** [shutil.copytree(src, dst, dirs_exist_ok=True)], where [s] is the
    directory read at [src]: [os.makedirs(dst, exist_ok=True)] (whose
    failure is raised as it is), then every entry in turn, a directory
    by a recursive call and a file by [copy2]; the failures of the
    entries are collected and raised together at the end as one
    [shutil.Error].  The code lists each directory of the source when it
    comes to it; [s] is the source as it is when the call starts, which
    is the same for a [dst] that does not lie in [src]. *)
Fixpoint copytree (s : node) (src dst : path) (t : node)
  : node * option exn :=
  match s with
  | File _ => (t, Some (OSError (OSErr ENOTDIR src)))
  | Dir entries =>
      match makedirs t dst with
      | (t1, Some e) => (t1, Some (OSError e))
      | (t1, None) =>
          let '(t2, errors) :=
            (fix each (es : list (string * node)) (t : node)
                 (errors : list (path * path * oserror)) :=
               match es with
               | [] => (t, errors)
               | (name, c) :: r =>
                   let srcname := src ++ [name] in
                   let dstname := dst ++ [name] in
                   match c with
                   | Dir _ =>
                       let '(t', e) := copytree c srcname dstname t in
                       each r t' (errors ++ collect srcname dstname e)
                   | File data =>
                       let '(t', e) := copy2 data name dstname t in
                       each r t'
                         (errors ++
                          collect srcname dstname (option_map OSError e))
                   end
               end) entries t1 [] in
          match errors with
          | [] => (t2, None)
          | _ :: _ => (t2, Some (ShutilError errors))
          end
      end
  end.

(** The loop of [copytree] over the entries, on its own. *)
Section Entries.
Variables src dst : path.

Fixpoint copy_entries (es : list (string * node)) (t : node)
    (errors : list (path * path * oserror))
  : node * list (path * path * oserror) :=
  match es with
  | [] => (t, errors)
  | (name, c) :: r =>
      let srcname := src ++ [name] in
      let dstname := dst ++ [name] in
      match c with
      | Dir _ =>
          let '(t', e) := copytree c srcname dstname t in
          copy_entries r t' (errors ++ collect srcname dstname e)
      | File data =>
          let '(t', e) := copy2 data name dstname t in
          copy_entries r t'
            (errors ++ collect srcname dstname (option_map OSError e))
      end
  end.

End Entries.

End Lib.

(** ** Path strings

    [str.rstrip('/')] and [Path / str] of [pathlib] on POSIX: the string
    is cut at its slashes, empty components and [.] are dropped, and a
    string that starts with a slash replaces the base.  A component [..]
    is kept by [pathlib] and resolved by the operating system, which goes
    to the parent directory; [FS.node_at] would look for an entry of that
    name.  [joinpath] is therefore the path of the code for the strings
    without such a component only, and the theorems that depend on where
    a path leads are stated for those: [plain] for the paths of a copy,
    [Props.slot_name] for the name of a new slot. *)

Module PathStr.
Import FS.

Definition slash : ascii := "/"%char.

Fixpoint rstrip_slash (s : string) : string :=
  match s with
  | EmptyString => EmptyString
  | String c r =>
      match rstrip_slash r with
      | EmptyString =>
          if Ascii.eqb c slash then EmptyString else String c EmptyString
      | r' => String c r'
      end
  end.

(** [s.split('/')]. *)
Fixpoint segments (s : string) : list string :=
  match s with
  | EmptyString => [EmptyString]
  | String c r =>
      if Ascii.eqb c slash then EmptyString :: segments r
      else
        match segments r with
        | [] => [String c EmptyString]
        | h :: t => String c h :: t
        end
  end.

Definition kept (x : string) : bool :=
  negb (String.eqb x "") && negb (String.eqb x ".").

Definition parts (s : string) : path := filter (fun x => Is_true (kept x)) (segments s).

Definition is_absolute (s : string) : bool :=
  match s with
  | String c _ => Ascii.eqb c slash
  | EmptyString => false
  end.

Definition joinpath (base : path) (s : string) : path :=
  if is_absolute s then parts s else base ++ parts s.

(** The paths the theorems about a copy speak about: once the trailing
    slashes are gone, relative and without [..]. *)
Definition plain (rel_path : string) : bool :=
  let s := rstrip_slash rel_path in
  negb (is_absolute s) && forallb (fun x => negb (String.eqb x "..")) (parts s).

End PathStr.

(** ** The progress value

    [int((i + 1) / total * 100)]: the quotient of two integers as a
    binary64 number, its product with [100.0], truncated.  [done] stands
    for [i + 1]. *)

Module Progress.

Definition prec : Z := 53.
Definition emax : Z := 1024.

Definition float_of_nat (n : nat) : spec_float :=
  binary_normalize prec emax (Z.of_nat n) 0 false.

Definition truediv (a b : nat) : spec_float :=
  SFdiv prec emax (float_of_nat a) (float_of_nat b).

Definition times100 (x : spec_float) : spec_float :=
  SFmul prec emax x (float_of_nat 100).

(** [int(x)] for a finite [x]: the integer part. *)
Definition trunc (x : spec_float) : Z :=
  match x with
  | S754_finite s m e =>
      let v := match e with
               | Zneg k => Z.shiftr (Zpos m) (Zpos k)
               | _ => Z.shiftl (Zpos m) e
               end in
      if s then Z.opp v else v
  | _ => 0
  end.

Definition percent (done total : nat) : Z :=
  trunc (times100 (truediv done total)).

End Progress.

(** ** CopyWorker

    What [run] emits, in order: the signals [progress], [error] and
    [finished], and the warning it logs for a missing source.  The text
    of the [error] signal, [Copy error for {rel_path}: {str(e)}], is kept
    as its two parts. *)

Module CopyWorker.
Import FS Lib PathStr Progress.

Inductive event :=
| progress (value : Z)
| error (rel_path : string) (cause : exn)
| finished (success : bool)
| warning (src : path).

Record worker := {
  source_base : path;
  dest_base : path;
  paths : list string
}.

(** The body of the inner [try], for a source that exists and is [s]. *)
Definition copy_one (s : node) (src dst : path) (t : node)
  : node * option exn :=
  match s with
  | Dir _ => copytree s src dst t
  | File data =>
      match path_mkdir t (removelast dst) with
      | (t1, Some e) => (t1, Some (OSError e))
      | (t1, None) =>
          let '(t2, r) := copy2 data (List.last src "") dst t1 in
          (t2, option_map OSError r)
      end
  end.

(** The loop of [run] from index [i] on.  No exception reaches the outer
    handler: [total] is not zero inside the loop and the paths are
    strings. *)
Fixpoint run_from (source_base dest_base : path) (total : nat) (i : nat)
    (rest : list string) (t : node) : list event * node :=
  match rest with
  | [] => ([finished true], t)
  | rel_path :: rest' =>
      let src := joinpath source_base (rstrip_slash rel_path) in
      let dst := joinpath dest_base (rstrip_slash rel_path) in
      match node_at t src with
      | None =>
          let '(evs, t') :=
            run_from source_base dest_base total (S i) rest' t in
          (warning src :: evs, t')
      | Some s =>
          match copy_one s src dst t with
          | (t1, Some e) => ([error rel_path e; finished false], t1)
          | (t1, None) =>
              let '(evs, t') :=
                run_from source_base dest_base total (S i) rest' t1 in
              (progress (percent (i + 1) total) :: evs, t')
          end
      end
  end.

Definition run (self : worker) (t : node) : list event * node :=
  run_from (source_base self) (dest_base self) (length (paths self)) 0
    (paths self) t.

(** The values of the [progress] signal, in the order of emission, and
    the argument of the last [finished]. *)
Definition progress_values (evs : list event) : list Z :=
  omap (fun e => match e with progress v => Some v | _ => None end) evs.

Definition succeeded (evs : list event) : bool :=
  match List.last evs (finished false) with
  | finished b => b
  | _ => false
  end.

End CopyWorker.

(** ** The slot store *)

Module Slots.
Import FS Lib PathStr CopyWorker.

(** A value read by [json.load]; an object keeps its members in the
    order of the text, and the [dict] built from it takes the last
    binding of a repeated key. *)
Inductive json :=
| JNull
| JBool (b : bool)
| JInt (z : Z)
| JFloat (literal : string)
| JStr (s : string)
| JArr (items : list json)
| JObj (members : list (string * json)).

Fixpoint dict_get (key : string) (members : list (string * json))
  : option json :=
  match members with
  | [] => None
  | (k, v) :: r =>
      match dict_get key r with
      | Some x => Some x
      | None => if String.eqb k key then Some v else None
      end
  end.

Definition Unknown : json := JStr "Unknown".

(** [str.strip()], on the UTF-8 bytes of the string.  The white space
    of [str] is U+0009 to U+000D, U+001C to U+0020, U+0085, U+00A0,
    U+1680, U+2000 to U+200A, U+2028, U+2029, U+202F, U+205F and U+3000:
    one byte for the first two ranges, the bytes [C2 85] and [C2 A0],
    [E1 9A 80], [E2 80 80] to [E2 80 8A], [E2 80 A8], [E2 80 A9],
    [E2 80 AF], [E2 81 9F] and [E3 80 80] for the others. *)
Definition is_space (c : ascii) : bool :=
  let n := nat_of_ascii c in
  (Nat.leb 9 n && Nat.leb n 13) || (Nat.leb 28 n && Nat.leb n 32).

Definition is_space2 (a b : ascii) : bool :=
  let a := nat_of_ascii a in
  let b := nat_of_ascii b in
  Nat.eqb a 194 && (Nat.eqb b 133 || Nat.eqb b 160).

Definition is_space3 (a b c : ascii) : bool :=
  let a := nat_of_ascii a in
  let b := nat_of_ascii b in
  let c := nat_of_ascii c in
  (Nat.eqb a 225 && Nat.eqb b 154 && Nat.eqb c 128)
  || (Nat.eqb a 226 && Nat.eqb b 128
      && ((Nat.leb 128 c && Nat.leb c 138)
          || Nat.eqb c 168 || Nat.eqb c 169 || Nat.eqb c 175))
  || (Nat.eqb a 226 && Nat.eqb b 129 && Nat.eqb c 159)
  || (Nat.eqb a 227 && Nat.eqb b 128 && Nat.eqb c 128).

(** The string is one white space character. *)
Definition white (s : string) : bool :=
  match s with
  | String a EmptyString => is_space a
  | String a (String b EmptyString) => is_space2 a b
  | String a (String b (String c EmptyString)) => is_space3 a b c
  | _ => false
  end.

Fixpoint lstrip (s : string) : string :=
  match s with
  | EmptyString => EmptyString
  | String a r1 =>
      if is_space a then lstrip r1
      else
        match r1 with
        | EmptyString => s
        | String b r2 =>
            if is_space2 a b then lstrip r2
            else
              match r2 with
              | EmptyString => s
              | String c r3 => if is_space3 a b c then lstrip r3 else s
              end
        end
  end.

(** From the end: the character in front of a suffix that is stripped
    away goes when it is white space as well. *)
Fixpoint rstrip (s : string) : string :=
  match s with
  | EmptyString => EmptyString
  | String a r =>
      let r' := rstrip r in
      if white (String a r') then EmptyString else String a r'
  end.

Definition strip (s : string) : string := rstrip (lstrip s).

(** [choose_save_mode]: the button the user leaves the dialog with. *)
Inductive button := solo_btn | online_btn | cancel_btn.

Definition choose_save_mode (clicked : button) : option string :=
  match clicked with
  | solo_btn => Some "Solo Play"
  | online_btn => Some "Online Play"
  | cancel_btn => None
  end.

(** One row of the saves table: the texts of its four cells.  The last
    one is [None] in a row that was left without the item of its mode. *)
Record row := {
  row_name : string;
  row_date : string;
  row_size : string;
  row_mode : option string
}.

Record listing := {
  table : list row;
  logged : list path
}.

(** [sum(f.stat().st_size for f in save_dir.rglob("*") if f.is_file())]. *)
Fixpoint total_size (s : node) : nat :=
  match s with
  | File data => length data
  | Dir es =>
      (fix sum (es : list (string * node)) : nat :=
         match es with
         | [] => 0
         | (_, c) :: r => total_size c + sum r
         end) es
  end.

(** [sorted(xs, key=key, reverse=True)]: stable, largest key first. *)
Fixpoint insert_desc {A} (key : A -> Z) (x : A) (l : list A) : list A :=
  match l with
  | [] => [x]
  | y :: r => if (key y <=? key x)%Z then x :: l else y :: insert_desc key x r
  end.

Definition sorted_reverse {A} (key : A -> Z) (l : list A) : list A :=
  foldr (insert_desc key) [] l.

(** What a handler that names a new slot ends with. *)
Inductive outcome :=
| need_config
| no_name
| name_exists
| no_mode
| mkdir_raised (e : oserror)
| copy_started (title : string) (w : worker).

Section Store.

(** The [json] module: [json_load] is [None] where [json.load] raises
    (the text does not decode or does not parse); [json_dump] is the text
    [json.dump(data, f, indent=4)] writes. *)
Variable json_load : bytes -> option json.
Variable json_dump : json -> bytes.

(** [p.stat().st_mtime] of a directory entry, and
    [datetime.fromtimestamp(m).strftime("%Y-%m-%d %H:%M")], which is
    [None] where [fromtimestamp] raises for a time out of its range. *)
Variable st_mtime : path -> Z.
Variable strftime : Z -> option string.

(** [f"{total_size / (1024 * 1024):.1f} MB"]. *)
Variable size_str : nat -> string.

(** [QTableWidgetItem(mode)] of the Qt binding, for the value that
    [get_save_mode] returns: the text of the item it makes, or [None]
    where the binding has no constructor for the value and raises
    [TypeError].  The constructors take a text or a number for the type
    of the item; the statements that need it assume that the item made
    of a string shows that string. *)
Variable QTableWidgetItem : json -> option string.

Definition get_save_mode (t : node) (save_dir : path) : json :=
  let meta_file := save_dir ++ ["metadata.json"] in
  if path_exists t meta_file then
    match read_file t meta_file with
    | inl text =>
        match json_load text with
        | Some (JObj members) =>
            match dict_get "mode" members with
            | Some v => v
            | None => Unknown
            end
        | _ => Unknown
        end
    | inr _ => Unknown
    end
  else Unknown.

(** The second component is the error [save_metadata] logs. *)
Definition save_metadata (t : node) (save_dir : path) (mode : string)
  : node * option oserror :=
  let meta_file := save_dir ++ ["metadata.json"] in
  let data := JObj [("mode", JStr mode)] in
  raised (write_file t meta_file (json_dump data)) t.

(** The body of the [try] of [refresh_saves] for one directory: the row
    it leaves in the table, if any, and whether it raises, which is
    logged.  [strftime] raises before the row is inserted.
    [QTableWidgetItem(mode)] raises after [insertRow] and the items of
    the name, the date and the size: the row stays, without the item of
    the mode. *)
Definition save_row (t : node) (save_dir : path) (name : string) (s : node)
  : option row * bool :=
  match strftime (st_mtime save_dir) with
  | None => (None, true)
  | Some date_str =>
      let mode := get_save_mode t save_dir in
      (Some {| row_name := name;
               row_date := date_str;
               row_size := size_str (total_size s);
               row_mode := QTableWidgetItem mode |},
       match QTableWidgetItem mode with
       | Some _ => false
       | None => true
       end)
  end.

(** [refresh_saves]: the rows of the table afterwards and the
    directories whose error was logged, in the order of the loop; or the
    exception [iterdir] raises when [saved_dir] is not a directory.
    [st_mtime] gives the times of the entries at the moment of the
    call. *)
Definition entry_row (t : node) (saved_dir : path) (e : string * node)
  : option row :=
  match e.2 with
  | Dir _ => (save_row t (saved_dir ++ [e.1]) e.1 e.2).1
  | File _ => None
  end.

Definition entry_logged (t : node) (saved_dir : path) (e : string * node)
  : option path :=
  match e.2 with
  | Dir _ =>
      if (save_row t (saved_dir ++ [e.1]) e.1 e.2).2
      then Some (saved_dir ++ [e.1])
      else None
  | File _ => None
  end.

Definition refresh_saves (t : node) (saved_dir : path)
  : listing + oserror :=
  match node_at t saved_dir with
  | None => inl {| table := []; logged := [] |}
  | Some (File _) => inr (OSErr ENOTDIR saved_dir)
  | Some (Dir es) =>
      let sorted :=
        sorted_reverse (fun e => st_mtime (saved_dir ++ [e.1])) es in
      inl {| table := omap (entry_row t saved_dir) sorted;
             logged := omap (entry_logged t saved_dir) sorted |}
  end.

(** [backup_save] and [create_new_save] differ in the title only. *)
Definition new_slot (title : string -> string)
    (game_saved saved_dir : path) (config_paths : list string)
    (name : string) (ok : bool) (clicked : button) (t : node)
  : node * outcome :=
  match config_paths with
  | [] => (t, need_config)
  | _ :: _ =>
      if ok && negb (String.eqb (strip name) "") then
        let name := strip name in
        if path_exists t (joinpath saved_dir name) then (t, name_exists)
        else
          match choose_save_mode clicked with
          | None => (t, no_mode)
          | Some mode =>
              let backup_dir := joinpath saved_dir name in
              match os_mkdir t backup_dir with
              | inr e => (t, mkdir_raised e)
              | inl t1 =>
                  let '(t2, _) := save_metadata t1 backup_dir mode in
                  (t2, copy_started (title name)
                         {| source_base := game_saved;
                            dest_base := backup_dir;
                            paths := config_paths |})
              end
          end
      else (t, no_name)
  end.

Definition backup_save :=
  new_slot (fun name => "Backing up to " +:+ name +:+ "...").

Definition create_new_save :=
  new_slot (fun name => "Creating and backing up " +:+ name +:+ "...").

End Store.

End Slots.

(** ** The check-box tree *)

Module Tree.

Inductive check_state := Unchecked | PartiallyChecked | Checked.

(** A [QTreeWidgetItem]: its check state, its [Qt.UserRole] data and its
    children. *)
Inductive item :=
| Item (state : check_state) (data : option string) (children : list item).

Definition checkState (i : item) : check_state :=
  match i with Item s _ _ => s end.

Definition data (i : item) : option string :=
  match i with Item _ d _ => d end.

Definition children (i : item) : list item :=
  match i with Item _ _ c => c end.

(** [if item.checkState(0) == Qt.Checked: rel = item.data(..);
    if rel: paths.append(rel)]. *)
Definition collected (i : item) : list string :=
  match checkState i, data i with
  | Checked, Some rel => if String.eqb rel "" then [] else [rel]
  | _, _ => []
  end.

Fixpoint recurse (i : item) : list string :=
  collected i ++
  match i with
  | Item _ _ cs =>
      (fix each (cs : list item) : list string :=
         match cs with
         | [] => []
         | c :: r => recurse c ++ each r
         end) cs
  end.

(** [get_checked_paths], on the invisible root item of the tree. *)
Definition get_checked_paths (root : item) : list string := recurse root.

End Tree.

(** ** What the theorems speak about *)

Module Spec.
Import FS Lib PathStr CopyWorker.

(** Every directory holds a name once. *)
Fixpoint wf (t : node) : bool :=
  match t with
  | File _ => true
  | Dir es =>
      (fix each (es : list (string * node)) : bool :=
         match es with
         | [] => true
         | (n, c) :: r =>
             match assoc n r with None => true | Some _ => false end
             && wf c && each r
         end) es
  end.

(** Neither path leads into the other. *)
Definition disjoint (p q : path) : Prop :=
  ¬ p `prefix_of` q ∧ ¬ q `prefix_of` p.

(** What a path that no copy is aimed at holds afterwards: a file is the
    same file, a directory is still a directory, and what was missing is
    still missing or has become a directory. *)
Definition kept (o o' : option node) : Prop :=
  match o with
  | Some (File x) => o' = Some (File x)
  | Some (Dir _) => ∃ es, o' = Some (Dir es)
  | None => o' = None ∨ ∃ es, o' = Some (Dir es)
  end.

(** Files stay files and directories stay directories. *)
Definition same_kind (o o' : option node) : Prop :=
  match o with
  | Some (File _) => ∃ x, o' = Some (File x)
  | Some (Dir _) => ∃ es, o' = Some (Dir es)
  | None => True
  end.

Definition kinds (t t' : node) : Prop :=
  ∀ q, same_kind (node_at t q) (node_at t' q).

(** [frame ds t t']: outside the destinations [ds], [t'] keeps what [t]
    holds, and a path that is not above a destination either holds the
    very same node. *)
Definition frame (ds : list path) (t t' : node) : Prop :=
  ∀ q, Forall (λ d, ¬ d `prefix_of` q) ds →
    kept (node_at t q) (node_at t' q) ∧
    (Forall (λ d, ¬ q `prefix_of` d) ds → node_at t' q = node_at t q).

(** [merged s src dst t t']: [t'] comes from [t] by copying from the
    source [s], read at [src], towards [dst].  A file below [dst] is
    the file that was there, or the source file of the same place, or
    the source file [n] of the place of its directory, which was a
    directory of the destination already; a directory below [dst] was
    there or stands for a source directory. *)
Record merged (s : node) (src dst : path) (t t' : node) : Prop := {
  merged_frame : frame [dst] t t';
  merged_kinds : kinds t t';
  merged_files : ∀ q x,
    node_at t' (dst ++ q) = Some (File x) →
    node_at t (dst ++ q) = Some (File x)
    ∨ node_at s q = Some (File x)
    ∨ ∃ q' n, q = q' ++ [n] ∧ List.last (src ++ q') "" = n
        ∧ node_at s q' = Some (File x) ∧ is_dir t (dst ++ q') = true;
  merged_dirs : ∀ q,
    is_dir t' (dst ++ q) = true →
    is_dir t (dst ++ q) = true ∨ ∃ es, node_at s q = Some (Dir es)
}.

(** The resolved source and destination of a relative path. *)
Definition src_of (w : worker) (rel_path : string) : path :=
  joinpath (source_base w) (rstrip_slash rel_path).

Definition dst_of (w : worker) (rel_path : string) : path :=
  joinpath (dest_base w) (rstrip_slash rel_path).


(** An update that makes an empty directory or a file where nothing was,
    or a file where a file was. *)
Definition gentle (f : option node → node + errno) : Prop :=
  ∀ o x, f o = inl x →
    match o with
    | None => x = Dir [] ∨ ∃ d, x = File d
    | Some (File _) => ∃ d, x = File d
    | Some (Dir _) => False
    end.

(** What a run of [os.mkdir] calls along [name] does: no file changes,
    and the new directories lie on [name]. *)
Record grown (name : path) (t t' : node) : Prop := {
  grown_kinds : kinds t t';
  grown_files : ∀ q x, node_at t' q = Some (File x) → node_at t q = Some (File x);
  grown_dirs : ∀ q, is_dir t' q = true → is_dir t q = true ∨ q `prefix_of` name
}.

(** What [copytree] does with one entry. *)
Definition copy_entry (src dst : path) (name : string) (c : node) (t : node)
  : node * option exn :=
  match c with
  | Dir _ => copytree c (src ++ [name]) (dst ++ [name]) t
  | File data =>
      let '(t', e) := copy2 data name (dst ++ [name]) t in
      (t', option_map OSError e)
  end.

(** Where a source file at [q] below [src] is copied to. *)
Definition target (t : node) (src dst q : path) : path :=
  if is_dir t (dst ++ q) then dst ++ q ++ [List.last (src ++ q) ""]
  else dst ++ q.

(** [q] names the entry [n] of a place [.../n] where [s] holds a file. *)
Definition nested_in_file (s : node) (q : path) : Prop :=
  ∃ q' n, q = q' ++ [n] ∧ last q' = Some n ∧ is_file s q' = true.

(** The order of the saves table. *)
Definition newer_first {A} (key : A → Z) (a b : A) : Prop :=
  (key b ≤ key a)%Z.

(** The entries [refresh_saves] shows, and the ones it logs: the
    directories whose time cannot be formatted, and those whose mode the
    binding makes no table item of. *)
Section Listing.
Variable json_load : bytes → option Slots.json.
Variable st_mtime : path → Z.
Variable strftime : Z → option string.
Variable QTableWidgetItem : Slots.json → option string.



End Listing.

(** The items of a tree, depth first, parents before children. *)
Fixpoint preorder (i : Tree.item) : list Tree.item :=
  i :: match i with
       | Tree.Item _ _ cs =>
           (fix each (cs : list Tree.item) : list Tree.item :=
              match cs with
              | [] => []
              | c :: r => preorder c ++ each r
              end) cs
       end.

End Spec.

(** ** Trees and workers the statements are tried on *)

Module Examples.
Import FS Lib PathStr CopyWorker Slots.

Definition text (s : string) : bytes := String.list_byte_of_string s.

(** The scenario of the specification: [db/a.txt] of 5 bytes and
    [log.txt] of 3 bytes, an empty destination. *)
Definition scenario_fs : node :=
  Dir [("game", Dir [("db", Dir [("a.txt", File (text "hello"))]);
                     ("log.txt", File (text "abc"))]);
       ("slot", Dir [])].

Definition scenario : worker :=
  {| source_base := ["game"]; dest_base := ["slot"];
     paths := ["db/"; "log.txt"] |}.

(** A destination that holds an older copy and a file of its own. *)
Definition merge_fs : node :=
  Dir [("game", Dir [("db", Dir [("a.txt", File (text "hello"))])]);
       ("slot", Dir [("db", Dir [("a.txt", File (text "older"));
                                 ("keep.txt", File (text "mine"))])])].

Definition db_only : worker :=
  {| source_base := ["game"]; dest_base := ["slot"]; paths := ["db/"] |}.

(** A destination directory [db/a] where the source has the file
    [db/a]. *)
Definition nested_fs : node :=
  Dir [("game", Dir [("db", Dir [("a", File (text "new"))])]);
       ("slot", Dir [("db", Dir [("a", Dir [("a", File (text "old"))])])])].

(** A destination file [db/c] where the source has the directory
    [db/c]. *)
Definition blocked_fs : node :=
  Dir [("game", Dir [("log.txt", File (text "abc"));
                     ("db", Dir [("c", Dir [("x", File (text "1"))]);
                                 ("d", File (text "2"))]);
                     ("z", File (text "3"))]);
       ("slot", Dir [("db", Dir [("c", File (text "f"))])])].

Definition blocked : worker :=
  {| source_base := ["game"]; dest_base := ["slot"];
     paths := ["log.txt"; "db/"; "z"] |}.

Definition blocked_cause : exn :=
  ShutilError
    [(["game"; "db"; "c"], ["slot"; "db"; "c"], OSErr EEXIST ["slot"; "db"; "c"])].

(** The tree after [log.txt] is copied, and after the copy of [db/]
    has failed. *)
Definition blocked_mid : node :=
  Eval vm_compute in (run_from ["game"] ["slot"] 3 0 ["log.txt"] blocked_fs).2.

Definition blocked_end : node :=
  Eval vm_compute in (run blocked blocked_fs).2.




(** A slots root with the slot [s], the file [notes] and the slot
    [broken], whose [metadata.json] is a directory. *)
Definition saved_fs : node :=
  Dir [("saved", Dir [("s", Dir []);
                      ("notes", File (text "x"));
                      ("broken", Dir [("metadata.json", Dir [])])])].

(** A stand-in for the [json] module that keeps the mode as the text. *)
Definition mode_dump (v : json) : bytes :=
  match v with
  | JObj [(_, JStr m)] => String.list_byte_of_string m
  | _ => []
  end.

Definition mode_load (text : bytes) : option json :=
  Some (JObj [("mode", JStr (String.string_of_list_byte text))]).

(** A slot whose metadata is an object without the mode, and a stand-in
    for the [json] module that reads it. *)
Definition tagged_fs : node :=
  Dir [("saved", Dir [("s", Dir [("metadata.json", File (text "{}"))])])].

Definition other_load (text : bytes) : option json :=
  Some (JObj [("kind", JStr "x")]).

(** A stand-in for the Qt binding that makes an item of a string
    only. *)
Definition str_item (v : json) : option string :=
  match v with
  | JStr s => Some s
  | _ => None
  end.



(** A destination inside the source root. *)
Definition inside : worker :=
  {| source_base := ["game"]; dest_base := ["game"; "bak"];
     paths := ["log.txt"] |}.

(** A clock, a date format and a size format for the listing: the time
    of an entry is the length of its name. *)
Definition slot_mtime (p : path) : Z :=
  Z.of_nat (String.length (List.last p "")).

Definition stamp (m : Z) : option string := Some "2024-01-01 00:00".

Definition mb (n : nat) : string := "0.0 MB".

(** A tree with a checked file below an unchecked directory. *)
Definition child_checked : Tree.item :=
  Tree.Item Tree.Unchecked None
    [Tree.Item Tree.Unchecked (Some "db/")
       [Tree.Item Tree.Checked (Some "db/a.txt") [];
        Tree.Item Tree.Unchecked (Some "db/b.txt") []]].

End Examples.

(** ** The delete worker *)

Module DeleteWorker.
Import FS.

Fixpoint del_entry (n : string) (es : list (string * node))
  : list (string * node) :=
  match es with
  | [] => []
  | (m, x) :: r =>
      if String.eqb n m then del_entry n r else (m, x) :: del_entry n r
  end.

(** What [shutil.rmtree] raises: the [OSError] of [os.lstat] or
    [os.scandir] on the path, or the refusal of [os.rmdir] to remove the
    root, which comes after the entries of the root are gone. *)
Inductive rmtree_error :=
| rm_oserror (e : oserror)
| rm_root.

(** [shutil.rmtree] on the path [n :: q]: the components before the last
    must be directories, the last one a directory too, which goes with
    all that it holds. *)
Fixpoint rmtree_at (n : string) (q : path) (t : node) {struct q}
  : node + errno :=
  match t with
  | File _ => inr ENOTDIR
  | Dir es =>
      match assoc n es with
      | None => inr ENOENT
      | Some c =>
          match q with
          | [] =>
              match c with
              | Dir _ => inl (Dir (del_entry n es))
              | File _ => inr ENOTDIR
              end
          | m :: r =>
              match rmtree_at m r c with
              | inl c' => inl (Dir (set_entry n c' es))
              | inr e => inr e
              end
          end
      end
  end.

Definition rmtree (t : node) (p : path) : node * option rmtree_error :=
  match p with
  | [] =>
      match t with
      | Dir _ => (Dir [], Some rm_root)
      | File _ => (t, Some (rm_oserror (OSErr ENOTDIR p)))
      end
  | n :: q =>
      match rmtree_at n q t with
      | inl t' => (t', None)
      | inr e => (t, Some (rm_oserror (OSErr e p)))
      end
  end.

(** The [finished] signal and the line of the log. *)
Inductive event :=
| finished (success : bool)
| logged (e : rmtree_error).

Definition run (path : path) (t : node) : list event * node :=
  match rmtree t path with
  | (t', None) => ([finished true], t')
  | (t', Some e) => ([logged e; finished false], t')
  end.

End DeleteWorker.

(** ** The configuration file *)

Module Config.
Import FS Lib PathStr Slots Tree.

Section Config.

(** [json_load] as in the slot store; [json_dump] is the text
    [json.dump(data, f, indent=2)] writes.  The lines the two functions
    add to the log are left out. *)
Variable json_load : bytes -> option json.
Variable json_dump : json -> bytes.

(** The values [len] accepts; it raises [TypeError] for the others. *)
Definition has_len (v : json) : bool :=
  match v with
  | JStr _ | JArr _ | JObj _ => true
  | _ => false
  end.

(** [load_config]: the value read is returned as it is, whatever its
    shape, once [len] has accepted it. *)
Definition load_config (t : node) (config_path : path) : json :=
  if path_exists t config_path then
    match read_file t config_path with
    | inl text =>
        match json_load text with
        | Some paths => if has_len paths then paths else JArr []
        | None => JArr []
        end
    | inr _ => JArr []
    end
  else JArr [].

(** The loop of [save_config] that sums the sizes for the summary. *)
Fixpoint selected_size (t : node) (game_saved : path)
    (config_paths : list string) : nat :=
  match config_paths with
  | [] => 0
  | rel_path :: rest =>
      match node_at t (joinpath game_saved (rstrip_slash rel_path)) with
      | Some s => total_size s
      | None => 0
      end + selected_size t game_saved rest
  end.

(** What [save_config] leaves: [self.config_paths], the tree, the error
    it logs and shows, and the two numbers of the summary label. *)
Record saved := {
  new_paths : list string;
  new_tree : node;
  write_error : option oserror;
  summary_items : nat;
  summary_bytes : nat
}.

Definition save_config (root : item) (t : node)
    (game_saved config_path : path) : saved :=
  let config_paths := get_checked_paths root in
  let '(t', e) :=
    raised (write_file t config_path
              (json_dump (JArr (List.map JStr config_paths)))) t in
  {| new_paths := config_paths;
     new_tree := t';
     write_error := e;
     summary_items := length config_paths;
     summary_bytes := selected_size t' game_saved config_paths |}.

End Config.

End Config.

(** ** The check-box tree of the game directory *)

Module Populate.
Import FS Tree.

(** The key [(not p.is_dir(), p.name.lower())] of an entry, for a given
    [str.lower], and the order of such tuples: [False] before [True],
    then the strings. *)
Definition entry_is_dir (e : string * node) : bool :=
  match e.2 with
  | Dir _ => true
  | File _ => false
  end.

Definition key (lower : string -> string) (e : string * node)
  : bool * string :=
  (negb (entry_is_dir e), lower e.1).

Definition key_le (a b : bool * string) : bool :=
  match a.1, b.1 with
  | false, true => true
  | true, false => false
  | _, _ => String.leb a.2 b.2
  end.

(** [sorted(xs, key=key)]: stable, smallest key first. *)
Fixpoint insert_asc {A} (key : A -> bool * string) (x : A) (l : list A)
  : list A :=
  match l with
  | [] => [x]
  | y :: r =>
      if key_le (key x) (key y) then x :: l else y :: insert_asc key x r
  end.

Definition sorted {A} (key : A -> bool * string) (l : list A) : list A :=
  foldr (insert_asc key) [] l.

Section Populate.

Variable lower : string -> string.
Variable config_paths : list string.

(** [Qt.Checked if new_rel in config_set else Qt.Unchecked]. *)
Definition check (new_rel : string) : check_state :=
  if bool_decide (new_rel ∈ config_paths) then Checked else Unchecked.

(** The item [add_items] makes for one entry, given the items of its
    directory. *)
Definition entry_rel (rel : string) (e : string * node) : string :=
  match e.2 with
  | Dir _ => rel +:+ e.1 +:+ "/"
  | File _ => rel +:+ e.1
  end.

(** [add_items(parent, dir_path, rel)]: the items put under [parent].
    Each entry is paired with the item the loop makes for it, and the
    pairs are sorted by the key of the entry, which is the order in
    which the loop over the sorted entries makes the items. *)
Fixpoint add_items (s : node) (rel : string) : list item :=
  match s with
  | File _ => []
  | Dir es =>
      List.map snd
        (sorted (fun x : (string * node) * item => key lower x.1)
           (List.map
              (fun e : string * node =>
                 let new_rel := entry_rel rel e in
                 (e, Item (check new_rel) (Some new_rel)
                       (add_items e.2 new_rel)))
              es))
  end.

(** [populate_tree]: the invisible root item of the tree afterwards, or
    the exception [iterdir] raises when [game_saved] is a regular
    file. *)
Definition populate_tree (t : node) (game_saved : path) : item + oserror :=
  match node_at t game_saved with
  | Some (Dir es) => inl (Item Unchecked None (add_items (Dir es) ""))
  | Some (File _) => inr (OSErr ENOTDIR game_saved)
  | None => inl (Item Unchecked None [Item Unchecked None []])
  end.

End Populate.

End Populate.

(** ** Finding the game directory *)

Module Steam.
Import FS PathStr.

(** What [get_steam_path] meets: on Windows the [Path] of the registry
    value, or nothing when the lookup raises; on Linux the home
    directory; any other system. *)
Inductive system :=
| windows (steam_path : option path)
| linux (home : path)
| other_system.

Fixpoint first_existing (t : node) (candidates : list path) : option path :=
  match candidates with
  | [] => None
  | cand :: rest =>
      if path_exists t cand then Some cand else first_existing t rest
  end.

Definition get_steam_path (sys_plat : system) (t : node) : option path :=
  match sys_plat with
  | windows steam_path => steam_path
  | linux home =>
      first_existing t
        [home ++ [".steam"; "steam"];
         home ++ [".steam"; "debian-installation"];
         home ++ [".local"; "share"; "Steam"]]
  | other_system => None
  end.

(** [find_game_path]: [game_dir] is what the directory dialog returns,
    the empty string when it is cancelled, and [cwd] the directory a
    relative [Path] is resolved against. *)
Definition find_game_path (sys_plat : system) (cwd : path)
    (game_dir : string) (t : node) : option path :=
  let manual :=
    if String.eqb game_dir "" then None
    else
      let candidate := joinpath cwd game_dir in
      if path_exists t candidate then Some candidate else None in
  match get_steam_path sys_plat t with
  | Some steam_path =>
      let candidate :=
        steam_path ++ ["steamapps"; "common"; "Conan Exiles"; "ConanSandbox"] in
      if path_exists t candidate then Some candidate else manual
  | None => manual
  end.

End Steam.

(** ** The window: selection, buttons and the other handlers *)

Module Window.
Import FS Lib PathStr CopyWorker Slots.

Record window := {
  config_paths : list string;
  current_save : option string;
  backup_btn : bool;
  load_btn : bool;
  launch_btn : bool;
  create_btn : bool;
  delete_btn : bool;
  refresh_btn : bool
}.

(** [bool(self.config_paths)] and [bool(self.current_save)]. *)
Definition has_config (w : window) : bool :=
  match config_paths w with
  | [] => false
  | _ :: _ => true
  end.

Definition has_current (w : window) : bool :=
  match current_save w with
  | Some (String _ _) => true
  | _ => false
  end.

Definition update_buttons (w : window) : window :=
  {| config_paths := config_paths w;
     current_save := current_save w;
     backup_btn := has_config w;
     load_btn := has_config w && has_current w;
     launch_btn := has_config w && has_current w;
     create_btn := has_config w;
     delete_btn := has_current w;
     refresh_btn := refresh_btn w |}.

Definition set_refresh_btn (b : bool) (w : window) : window :=
  {| config_paths := config_paths w;
     current_save := current_save w;
     backup_btn := backup_btn w;
     load_btn := load_btn w;
     launch_btn := launch_btn w;
     create_btn := create_btn w;
     delete_btn := delete_btn w;
     refresh_btn := b |}.

Definition set_delete_btn (b : bool) (w : window) : window :=
  {| config_paths := config_paths w;
     current_save := current_save w;
     backup_btn := backup_btn w;
     load_btn := load_btn w;
     launch_btn := launch_btn w;
     create_btn := create_btn w;
     delete_btn := b;
     refresh_btn := refresh_btn w |}.

Definition set_current_save (s : option string) (w : window) : window :=
  {| config_paths := config_paths w;
     current_save := s;
     backup_btn := backup_btn w;
     load_btn := load_btn w;
     launch_btn := launch_btn w;
     create_btn := create_btn w;
     delete_btn := delete_btn w;
     refresh_btn := refresh_btn w |}.

(** [on_save_selected(row, col)] on the table [rows]. *)
Definition on_save_selected (rows : list row) (r : nat) (w : window)
  : window :=
  match rows !! r with
  | Some item => update_buttons (set_current_save (Some (row_name item)) w)
  | None => w
  end.

(** What [do_copy] and [on_copy_finished] do to the buttons. *)
Definition do_copy (w : window) : window :=
  set_refresh_btn false (update_buttons w).

Definition on_copy_finished (w : window) : window :=
  update_buttons (set_refresh_btn true w).

(** What a handler ends with. *)
Inductive started :=
| select_first
| returned
| copying (title : string) (worker : worker)
| launching
| deleting (p : path).

(** [load_save]; [yes] says that the confirmation was answered Yes. *)
Definition load_save (saved_dir game_saved : path) (yes : bool) (w : window)
  : window * started :=
  match current_save w with
  | Some (String _ _ as name) =>
      if yes then
        (do_copy w,
         copying ("Loading " +:+ name +:+ "...")
           {| source_base := joinpath saved_dir name;
              dest_base := game_saved;
              paths := config_paths w |})
      else (w, returned)
  | _ => (w, select_first)
  end.

(** [launch_game] starts the launch worker. *)
Definition launch_game (w : window) : started :=
  if has_current w then launching else select_first.

(** [restore_after_launch(name)], and the call of it when the launch
    worker finishes, which reads [self.current_save] at that moment;
    [None] there makes [self.saved_dir / name] raise [TypeError]. *)
Definition restore_after_launch (saved_dir game_saved : path) (name : string)
    (w : window) : window * started :=
  (do_copy w,
   copying ("Restoring " +:+ name +:+ " after game...")
     {| source_base := game_saved;
        dest_base := joinpath saved_dir name;
        paths := config_paths w |}).

Definition launch_finished (saved_dir game_saved : path) (w : window)
  : option (window * started) :=
  match current_save w with
  | Some name => Some (restore_after_launch saved_dir game_saved name w)
  | None => None
  end.

(** [delete_save]: it returns without a word when nothing is selected. *)
Definition delete_save (saved_dir : path) (yes : bool) (w : window)
  : window * started :=
  match current_save w with
  | Some (String _ _ as name) =>
      if yes then (set_delete_btn false w, deleting (joinpath saved_dir name))
      else (w, returned)
  | _ => (w, returned)
  end.

Section Store.

Variable json_load : bytes -> option json.
Variable json_dump : json -> bytes.
Variable st_mtime : path -> Z.
Variable strftime : Z -> option string.
Variable size_str : nat -> string.
Variable QTableWidgetItem : json -> option string.

(** [on_delete_finished(success)]: the window, and the listing when
    [refresh_saves] is called.  [st_mtime] gives the times of the slots
    at that moment. *)
Definition on_delete_finished (saved_dir : path) (success : bool)
    (w : window) (t : node) : window * option (listing + oserror) :=
  let w := set_delete_btn true w in
  if success then
    let w :=
      if has_current w then set_current_save None w else w in
    (update_buttons w,
     Some (refresh_saves json_load st_mtime strftime size_str
             QTableWidgetItem t saved_dir))
  else (w, None).

(** [change_save_mode]: the tree, how it ended ([select_first] for the
    warning) and the listing when [refresh_saves] is called.  [st_mtime]
    gives the times of the slots at that moment, after [save_metadata]:
    the time of the slot that was written to can be another one than
    before, since making [metadata.json] changes the directory. *)
Definition change_save_mode (saved_dir : path) (clicked : button)
    (w : window) (t : node)
  : node * started * option (listing + oserror) :=
  match current_save w with
  | Some (String _ _ as name) =>
      match choose_save_mode clicked with
      | Some mode =>
          let save_dir := joinpath saved_dir name in
          let '(t', _) := save_metadata json_dump t save_dir mode in
          (t', returned,
           Some (refresh_saves json_load st_mtime strftime size_str
                   QTableWidgetItem t' saved_dir))
      | None => (t, returned, None)
      end
  | _ => (t, select_first, None)
  end.

End Store.

End Window.

(** ** Notions the further statements use *)

Module Props.
Import FS Lib PathStr CopyWorker.

(** The events of [run] before the terminal one: a report or a
    warning. *)
Definition quiet (e : event) : Prop :=
  match e with
  | progress _ | warning _ => True
  | _ => False
  end.

(** The paths the items of a tree carry, parents before children. *)
Definition labels_of (i : Tree.item) : list string :=
  omap Tree.data (Spec.preorder i).

(** The paths of the items [add_items] makes for the directory [s],
    in the order of the tree; they do not depend on the
    configuration. *)
Definition shown_paths (lower : string -> string) (s : node) (rel : string)
  : list string :=
  flat_map labels_of (Populate.add_items lower [] s rel).

(** A configured path that can be collected. *)
Definition configured (config_paths : list string) (r : string) : Prop :=
  r ∈ config_paths ∧ r ≠ "".

(** The names a directory of the game can hold: not empty, not [.] or
    [..], without a slash. *)
Fixpoint no_slash (n : string) : bool :=
  match n with
  | EmptyString => true
  | String c r => negb (Ascii.eqb c slash) && no_slash r
  end.

Definition valid_name (n : string) : bool :=
  negb (String.eqb n "") && negb (String.eqb n ".")
  && negb (String.eqb n "..") && no_slash n.

Fixpoint valid_names (s : node) : bool :=
  match s with
  | File _ => true
  | Dir es =>
      (fix each (es : list (string * node)) : bool :=
         match es with
         | [] => true
         | (n, c) :: r => valid_name n && valid_names c && each r
         end) es
  end.

(** The path of the item of a file and of a directory, from the names
    on the way to it. *)
Fixpoint file_rel (q : path) : string :=
  match q with
  | [] => ""
  | [n] => n
  | n :: r => n +:+ "/" +:+ file_rel r
  end.

Fixpoint dir_rel (q : path) : string :=
  match q with
  | [] => ""
  | n :: r => n +:+ "/" +:+ dir_rel r
  end.



End Props.

(** ** More trees and values the statements are tried on *)

Module Examples2.
Import FS Lib PathStr CopyWorker Slots Examples Window.

(** [str.lower] on ASCII letters. *)
Definition ascii_lower_char (c : ascii) : ascii :=
  let n := nat_of_ascii c in
  if Nat.leb 65 n && Nat.leb n 90 then ascii_of_nat (n + 32) else c.

Fixpoint ascii_lower (s : string) : string :=
  match s with
  | EmptyString => EmptyString
  | String c r => String (ascii_lower_char c) (ascii_lower r)
  end.

(** A window with the configuration of the scenario and the slot [slot]
    selected. *)
Definition scenario_window : window :=
  {| config_paths := ["db/"; "log.txt"];
     current_save := Some "slot";
     backup_btn := true; load_btn := true; launch_btn := true;
     create_btn := true; delete_btn := true; refresh_btn := true |}.

(** The tree of the scenario after the backup, with the game files
    changed since. *)
Definition played_fs : node :=
  Dir [("game", Dir [("db", Dir [("a.txt", File (text "HELLO WORLD"))]);
                     ("log.txt", File (text ""))]);
       ("slot", Dir [("db", Dir [("a.txt", File (text "hello"))]);
                     ("log.txt", File (text "abc"))])].

(** A window with the slot [s] selected. *)
Definition s_window : window :=
  {| config_paths := ["db/"];
     current_save := Some "s";
     backup_btn := true; load_btn := true; launch_btn := true;
     create_btn := true; delete_btn := true; refresh_btn := true |}.

(** The clock of [Examples.slot_mtime] after a write into the slot [s],
    which is the newest entry then. *)
Definition later_mtime (p : path) : Z :=
  if String.eqb (List.last p "") "s" then 9%Z else slot_mtime p.

(** A window with the slot [broken] selected. *)
Definition broken_window : window :=
  {| config_paths := ["db/"];
     current_save := Some "broken";
     backup_btn := true; load_btn := true; launch_btn := true;
     create_btn := true; delete_btn := true; refresh_btn := true |}.

(** The tree [populate_tree] makes for the scenario with a
    configuration that names a file that is gone. *)
Definition scenario_root : Tree.item :=
  Eval vm_compute in
    Tree.Item Tree.Unchecked None
      (Populate.add_items ascii_lower ["db/a.txt"; "gone"; "log.txt"]
         (Dir [("db", Dir [("a.txt", File (text "hello"))]);
               ("log.txt", File (text "abc"))]) "").

(** A stand-in for the [json] module on lists of strings: one path on
    each line. *)
Fixpoint lines_dump (items : list json) : string :=
  match items with
  | [] => ""
  | JStr s :: r => s +:+ String "010"%char (lines_dump r)
  | _ :: r => lines_dump r
  end.

Definition list_dump (v : json) : bytes :=
  match v with
  | JArr items => String.list_byte_of_string (lines_dump items)
  | _ => []
  end.

Fixpoint lines_load (s : string) (line : string) : list json :=
  match s with
  | EmptyString => []
  | String c r =>
      if Ascii.eqb c "010"%char then JStr line :: lines_load r ""
      else lines_load r (line +:+ String c "")
  end.

Definition list_load (text : bytes) : option json :=
  Some (JArr (lines_load (String.string_of_list_byte text) "")).


(** A home with the first Steam directory empty and the game in the
    third, and a game folder outside Steam. *)
Definition steam_fs : node :=
  Dir [("home",
        Dir [(".steam", Dir [("steam", Dir [])]);
             (".local",
              Dir [("share",
                    Dir [("Steam",
                          Dir [("steamapps",
                                Dir [("common",
                                      Dir [("Conan Exiles",
                                            Dir [("ConanSandbox", Dir [])])])])])])])]);
       ("game", Dir [])].

(** An application directory beside the game. *)
Definition app_fs : node :=
  Dir [("game", Dir [("db", Dir [("a.txt", File (text "hello"))]);
                     ("log.txt", File (text "abc"))]);
       ("app", Dir [("config.json", File (text "7"))])].

End Examples2.

(** * Facts about the file system *)

Module FSFacts.
Import FS.

Lemma assoc_set_entry_eq n x es : assoc n (set_entry n x es) = Some x.
Proof.
  induction es as [|[m y] r IH]; simpl.
  - by rewrite String.eqb_refl.
  - destruct (String.eqb n m) eqn:E; simpl; rewrite ?String.eqb_refl, ?E; done.
Qed.

Lemma assoc_set_entry_ne n m x es :
  n ≠ m → assoc m (set_entry n x es) = assoc m es.
Proof.
  intros Hne. induction es as [|[k y] r IH]; simpl.
  - apply String.eqb_neq in Hne. rewrite String.eqb_sym in Hne. by rewrite Hne.
  - destruct (String.eqb n k) eqn:E; simpl.
    + apply String.eqb_eq in E. subst k.
      assert (String.eqb m n = false) as ->; [|done].
      apply String.eqb_neq. congruence.
    + by rewrite IH.
Qed.

Lemma node_at_app t p q :
  node_at t (p ++ q) = node_at t p ≫= λ c, node_at c q.
Proof.
  revert t. induction p as [|n p IH]; intros t; simpl; [done|].
  destruct t as [|es]; [done|]. destruct (assoc n es); [apply IH|done].
Qed.

Lemma node_at_file_cons d n q : node_at (File d) (n :: q) = None.
Proof. done. Qed.

Lemma node_at_leaf x q :
  q ≠ [] → (x = Dir [] ∨ ∃ d, x = File d) → node_at x q = None.
Proof. destruct q; [done|]. intros _ [->|[d ->]]; done. Qed.

(** What a successful [update_at] leaves at [p], above it and beside it. *)
Lemma update_at_here f p t t' :
  update_at f p t = inl t' →
  ∃ x, f (node_at t p) = inl x ∧ node_at t' p = Some x.
Proof.
  revert t t'. induction p as [|n q IH]; intros t t'; simpl.
  - intros H. eauto.
  - destruct t as [|es]; [done|].
    destruct (assoc n es) as [c|] eqn:Ha.
    + destruct (update_at f q c) as [c'|] eqn:Hu; [|done].
      intros [= <-]. destruct (IH _ _ Hu) as (x & Hf & Hx).
      exists x. split; [done|]. simpl. by rewrite assoc_set_entry_eq.
    + destruct q; [|done]. destruct (f None) as [x|] eqn:Hf; [|done].
      intros [= <-]. exists x. split; [done|]. simpl.
      by rewrite assoc_set_entry_eq.
Qed.

Lemma update_at_above f p t t' q :
  update_at f p t = inl t' → q `prefix_of` p → q ≠ p →
  is_dir t q = true ∧ is_dir t' q = true.
Proof.
  unfold is_dir. revert t t' q. induction p as [|n p IH]; intros t t' q; simpl.
  - intros _ Hq%prefix_nil_inv. done.
  - destruct t as [|es]; [done|].
    destruct (assoc n es) as [c|] eqn:Ha.
    + destruct (update_at f p c) as [c'|] eqn:Hu; [|done].
      intros [= <-] Hq Hne. destruct q as [|m q]; [done|].
      pose proof (prefix_cons_inv_1 _ _ _ _ Hq) as ->.
      apply prefix_cons_inv_2 in Hq. simpl. rewrite Ha, assoc_set_entry_eq.
      apply (IH _ _ _ Hu Hq). congruence.
    + destruct p; [|done]. destruct (f None) as [x|] eqn:Hf; [|done].
      intros [= <-] Hq Hne. destruct q as [|m q]; [done|].
      pose proof (prefix_cons_inv_1 _ _ _ _ Hq) as ->.
      apply prefix_cons_inv_2, prefix_nil_inv in Hq. by subst.
Qed.

Lemma update_at_beside f p t t' q :
  update_at f p t = inl t' → ¬ p `prefix_of` q → ¬ q `prefix_of` p →
  node_at t' q = node_at t q.
Proof.
  revert t t' q. induction p as [|n p IH]; intros t t' q; simpl.
  - intros _ H. destruct H. apply prefix_nil.
  - destruct t as [|es]; [done|].
    intros Hu Hpq Hqp. destruct q as [|m q]; [destruct Hqp; apply prefix_nil|].
    simpl. destruct (decide (n = m)) as [->|Hne].
    + destruct (assoc m es) as [c|] eqn:Ha.
      * destruct (update_at f p c) as [c'|] eqn:Hu'; [|done].
        injection Hu as <-. rewrite assoc_set_entry_eq.
        apply (IH _ _ _ Hu'); intros H; [apply Hpq|apply Hqp]; by apply prefix_cons.
      * destruct p; [|done]. destruct Hpq. apply prefix_cons, prefix_nil.
    + assert (∀ x, assoc m (set_entry n x es) = assoc m es) as Hs
        by (intros; by apply assoc_set_entry_ne).
      destruct (assoc n es) as [c|].
      * destruct (update_at f p c); [|done]. injection Hu as <-. by rewrite Hs.
      * destruct p; [|done]. destruct (f None); [|done].
        injection Hu as <-. by rewrite Hs.
Qed.

Lemma update_at_below f p t t' x r :
  update_at f p t = inl t' → node_at t' p = Some x →
  node_at t' (p ++ r) = node_at x r.
Proof. intros _ Hx. by rewrite node_at_app, Hx. Qed.

End FSFacts.

(** * What is kept *)

Module RelFacts.
Import FS Lib Spec FSFacts.

Lemma kept_refl o : kept o o.
Proof. destruct o as [[|]|]; simpl; eauto. Qed.

Lemma kept_trans o1 o2 o3 : kept o1 o2 → kept o2 o3 → kept o1 o3.
Proof.
  destruct o1 as [[x|es]|]; simpl.
  - intros ->. done.
  - intros [es' ->]. done.
  - intros [->|[es' ->]]; simpl; eauto.
Qed.

Lemma kept_same_kind o o' : kept o o' → same_kind o o'.
Proof. destruct o as [[|]|]; simpl; eauto. Qed.

Lemma same_kind_refl o : same_kind o o.
Proof. destruct o as [[|]|]; simpl; eauto. Qed.

Lemma same_kind_trans o1 o2 o3 :
  same_kind o1 o2 → same_kind o2 o3 → same_kind o1 o3.
Proof.
  destruct o1 as [[x|es]|]; simpl; [intros [y ->]|intros [es' ->]|]; done.
Qed.

(** A file found afterwards at a kept path was there before. *)
Lemma kept_file_inv o x : kept o (Some (File x)) → o = Some (File x).
Proof.
  destruct o as [[y|es]|]; simpl.
  - congruence.
  - intros [? [=]].
  - intros [[=]|[? [=]]].
Qed.

Lemma kept_dir_inv o es :
  kept o (Some (Dir es)) → o = None ∨ ∃ es', o = Some (Dir es').
Proof. destruct o as [[y|es']|]; simpl; eauto; intros [=]. Qed.

Lemma kinds_refl t : kinds t t.
Proof. intros q. apply same_kind_refl. Qed.

Lemma kinds_trans t1 t2 t3 : kinds t1 t2 → kinds t2 t3 → kinds t1 t3.
Proof. intros H1 H2 q. eapply same_kind_trans; eauto. Qed.

Lemma frame_refl ds t : frame ds t t.
Proof. intros q _. split; [apply kept_refl|done]. Qed.

Lemma frame_trans ds t1 t2 t3 :
  frame ds t1 t2 → frame ds t2 t3 → frame ds t1 t3.
Proof.
  intros H1 H2 q Hq. destruct (H1 q Hq) as [K1 E1], (H2 q Hq) as [K2 E2].
  split; [by eapply kept_trans|]. intros Hd. by rewrite E2, E1.
Qed.

Lemma frame_mono ds ds' t t' :
  ds ⊆ ds' → frame ds t t' → frame ds' t t'.
Proof.
  intros Hsub H q Hq.
  assert (∀ P : path → Prop, Forall P ds' → Forall P ds) as Hf.
  { intros P HP. apply Forall_forall. intros d Hd.
    eapply Forall_forall in HP; eauto. }
  destruct (H q (Hf _ Hq)) as [K E]. split; [done|]. intros Hd.
  apply E, (Hf _ Hd).
Qed.

(** Two prefixes of one path are comparable. *)
Lemma prefix_of_app_cases (q d c : path) :
  q `prefix_of` d ++ c → q `prefix_of` d ∨ d `prefix_of` q.
Proof.
  intros H. apply (prefix_weak_total q d (d ++ c)); [done|].
  by apply prefix_app_r.
Qed.

Lemma frame_below d c t t' : frame [d ++ c] t t' → frame [d] t t'.
Proof.
  intros H q Hq. apply Forall_inv in Hq.
  destruct (H q) as [K E].
  { apply Forall_singleton. intros Hp. apply Hq.
    by eapply prefix_app_l. }
  split; [done|]. intros Hd. apply Forall_inv in Hd.
  apply E, Forall_singleton. intros Hp.
  destruct (prefix_of_app_cases _ _ _ Hp); done.
Qed.

(** Where a path lies with respect to the place of an update. *)
Lemma update_at_cases f p t t' q :
  update_at f p t = inl t' →
  (∃ r, q = p ++ r)
  ∨ (is_dir t q = true ∧ is_dir t' q = true ∧ q `prefix_of` p ∧ q ≠ p)
  ∨ (node_at t' q = node_at t q ∧ ¬ p `prefix_of` q ∧ ¬ q `prefix_of` p).
Proof.
  intros Hu. destruct (decide (p `prefix_of` q)) as [[r ->]|Hpq]; [eauto|].
  right. destruct (decide (q `prefix_of` p)) as [Hqp|Hqp].
  - left. assert (q ≠ p) by (intros ->; by apply Hpq).
    destruct (update_at_above _ _ _ _ _ Hu Hqp); done.
  - right. split; [|done]. by eapply update_at_beside.
Qed.

Lemma gentle_mkdir : gentle mkdir_entry.
Proof. intros [y|] x; simpl; [done|]. intros [= <-]. eauto. Qed.

Lemma gentle_write data : gentle (write_entry data).
Proof. intros [[y|es]|] x; simpl; try done; intros [= <-]; eauto. Qed.

Lemma is_dir_kept t t' q :
  is_dir t q = true → is_dir t' q = true → kept (node_at t q) (node_at t' q).
Proof.
  unfold is_dir. destruct (node_at t q) as [[|]|]; try done.
  destruct (node_at t' q) as [[|]|]; try done. simpl. eauto.
Qed.

Lemma update_at_kinds f p t t' :
  gentle f → update_at f p t = inl t' → kinds t t'.
Proof.
  intros Hg Hu q.
  destruct (update_at_cases _ _ _ _ q Hu) as [[r ->]|[(H1 & H2 & _)|[-> _]]].
  - destruct (update_at_here _ _ _ _ Hu) as (x & Hf & Hx).
    apply Hg in Hf. rewrite !node_at_app, Hx.
    destruct (node_at t p) as [[d|es]|]; simpl; [|done..].
    destruct Hf as [d' ->]. destruct r; simpl; eauto.
  - apply kept_same_kind. by apply is_dir_kept.
  - apply same_kind_refl.
Qed.

(** An update at or below [d] leaves everything outside [d] as [frame]
    wants it. *)
Lemma update_at_frame_below f d r t t' :
  update_at f (d ++ r) t = inl t' → frame [d] t t'.
Proof.
  intros Hu q Hq. apply Forall_inv in Hq.
  destruct (update_at_cases _ _ _ _ q Hu) as [[r' ->]|[(H1 & H2 & H3 & _)|[E _]]].
  - destruct Hq. rewrite <- app_assoc. by apply prefix_app_r.
  - split; [by apply is_dir_kept|]. intros Hd. apply Forall_inv in Hd.
    destruct (prefix_of_app_cases _ _ _ H3); done.
  - rewrite E. split; [apply kept_refl|done].
Qed.

(** A directory made at or above [d]. *)
Lemma update_at_frame_above f p d t t' :
  gentle f → update_at f p t = inl t' → p `prefix_of` d →
  (∀ x, f (node_at t p) = inl x → x = Dir []) →
  frame [d] t t'.
Proof.
  intros Hg Hu Hpd Hdir q Hq. apply Forall_inv in Hq.
  destruct (update_at_cases _ _ _ _ q Hu) as [[r ->]|[(H1 & H2 & H3 & _)|[E _]]].
  - destruct (update_at_here _ _ _ _ Hu) as (x & Hf & Hx).
    pose proof (Hdir _ Hf) as ->. apply Hg in Hf.
    rewrite !node_at_app, Hx.
    destruct (node_at t p) as [[d'|es]|]; simpl; [by destruct Hf|done|].
    destruct r as [|n r]; simpl.
    + split; [eauto|]. intros Hd. apply Forall_inv in Hd.
      destruct Hd. by rewrite app_nil_r.
    + split; [eauto|done].
  - split; [by apply is_dir_kept|]. intros Hd. apply Forall_inv in Hd.
    destruct Hd. by etrans.
  - rewrite E. split; [apply kept_refl|done].
Qed.

Lemma with_path_inl p r t' : with_path p r = inl t' → r = inl t'.
Proof. destruct r; simpl; congruence. Qed.

Lemma os_mkdir_here t p t' :
  os_mkdir t p = inl t' → node_at t p = None ∧ node_at t' p = Some (Dir []).
Proof.
  intros H%with_path_inl. destruct (update_at_here _ _ _ _ H) as (x & Hf & Hx).
  destruct (node_at t p); simpl in Hf; [done|]. by injection Hf as <-.
Qed.

Lemma os_mkdir_kinds t p t' : os_mkdir t p = inl t' → kinds t t'.
Proof. intros H%with_path_inl. eapply update_at_kinds; [apply gentle_mkdir|done]. Qed.

Lemma os_mkdir_frame t p d t' :
  os_mkdir t p = inl t' → p `prefix_of` d ∨ d `prefix_of` p → frame [d] t t'.
Proof.
  intros H%with_path_inl [Hp|[r ->]].
  - eapply update_at_frame_above; eauto using gentle_mkdir.
    intros x. destruct (node_at t p); simpl; congruence.
  - by eapply update_at_frame_below.
Qed.

Lemma write_file_here t p data t' :
  write_file t p data = inl t' →
  is_dir t p = false ∧ node_at t' p = Some (File data).
Proof.
  intros H%with_path_inl. destruct (update_at_here _ _ _ _ H) as (x & Hf & Hx).
  unfold is_dir. destruct (node_at t p) as [[|]|]; simpl in Hf; try done;
    by injection Hf as <-.
Qed.

Lemma write_file_kinds t p data t' : write_file t p data = inl t' → kinds t t'.
Proof. intros H%with_path_inl. eapply update_at_kinds; [apply gentle_write|done]. Qed.

Lemma write_file_frame t d r data t' :
  write_file t (d ++ r) data = inl t' → frame [d] t t'.
Proof. intros H%with_path_inl. by eapply update_at_frame_below. Qed.

End RelFacts.

(** * The directory makers *)

Module LibFacts.
Import FS Lib Spec FSFacts RelFacts.

Lemma grown_refl name t : grown name t t.
Proof. split; [apply kinds_refl|done|eauto]. Qed.

Lemma grown_trans name t1 t2 t3 :
  grown name t1 t2 → grown name t2 t3 → grown name t1 t3.
Proof.
  intros [K1 F1 D1] [K2 F2 D2]. split.
  - by eapply kinds_trans.
  - eauto.
  - intros q H. destruct (D2 q H); eauto.
Qed.

Lemma grown_mono name name' t t' :
  name `prefix_of` name' → grown name t t' → grown name' t t'.
Proof.
  intros Hp [K F D]. split; [done..|].
  intros q H. destruct (D q H); [eauto|]. right. by etrans.
Qed.

Lemma os_mkdir_grown t p t' : os_mkdir t p = inl t' → grown p t t'.
Proof.
  intros H. pose proof (os_mkdir_here _ _ _ H) as [Hn Hd].
  pose proof (os_mkdir_kinds _ _ _ H) as K.
  apply with_path_inl in H. split; [done|..].
  - intros q x Hq.
    destruct (update_at_cases _ _ _ _ q H) as [[r ->]|[(H1 & H2 & _)|[E _]]].
    + rewrite node_at_app, Hd in Hq. destruct r; done.
    + unfold is_dir in H2. by rewrite Hq in H2.
    + by rewrite <- E.
  - intros q Hq.
    destruct (update_at_cases _ _ _ _ q H) as [[r ->]|[(H1 & H2 & _)|[E _]]].
    + unfold is_dir in Hq. rewrite node_at_app, Hd in Hq.
      destruct r; [|done]. right. by rewrite app_nil_r.
    + by left.
    + left. unfold is_dir in *. by rewrite <- E.
Qed.

Lemma mkdir_exist_ok_grown t name t' r :
  mkdir_exist_ok t name = (t', r) →
  grown name t t' ∧ (r = None → is_dir t' name = true)
  ∧ ∀ d, name `prefix_of` d ∨ d `prefix_of` name → frame [d] t t'.
Proof.
  unfold mkdir_exist_ok. destruct (os_mkdir t name) as [t1|e] eqn:Hm.
  - intros [= <- <-]. split; [by apply os_mkdir_grown|]. split.
    + intros _. unfold is_dir. by destruct (os_mkdir_here _ _ _ Hm) as [_ ->].
    + intros d Hd. by eapply os_mkdir_frame.
  - destruct (is_dir t name) eqn:Hd; intros [= <- <-];
      (split; [apply grown_refl|]); (split; [done|]); intros; apply frame_refl.
Qed.

Lemma comparable_head (head : path) x d :
  head ++ [x] `prefix_of` d ∨ d `prefix_of` head ++ [x] →
  head `prefix_of` d ∨ d `prefix_of` head.
Proof.
  intros [H|H].
  - left. by eapply prefix_app_l.
  - destruct (prefix_of_app_cases _ _ _ H); eauto.
Qed.

Lemma makedirs_rev_grown rname t t' r :
  makedirs_rev rname t = (t', r) →
  grown (rev rname) t t' ∧ (r = None → is_dir t' (rev rname) = true)
  ∧ ∀ d, rev rname `prefix_of` d ∨ d `prefix_of` rev rname → frame [d] t t'.
Proof.
  revert t t' r. induction rname as [|x rhead IH]; intros t t' r.
  - apply mkdir_exist_ok_grown.
  - cbn [makedirs_rev].
    destruct (negb (path_exists t (rev rhead))) eqn:Hex.
    + destruct (makedirs_rev rhead t) as [t1 r1] eqn:Hrec.
      destruct (IH _ _ _ Hrec) as (G1 & _ & F1).
      assert (frame_ok : ∀ d, rev (x :: rhead) `prefix_of` d
                ∨ d `prefix_of` rev (x :: rhead) → frame [d] t t1).
      { intros d Hd. apply F1. simpl in Hd. by eapply comparable_head. }
      assert (grown (rev (x :: rhead)) t t1) as G1'.
      { eapply grown_mono; [|done]. simpl. by apply prefix_app_r. }
      assert (mkdir_exist_ok t1 (rev (x :: rhead)) = (t', r) →
        grown (rev (x :: rhead)) t t' ∧
        (r = None → is_dir t' (rev (x :: rhead)) = true) ∧
        ∀ d, rev (x :: rhead) `prefix_of` d ∨ d `prefix_of` rev (x :: rhead)
             → frame [d] t t') as Hlast.
      { intros Hm. destruct (mkdir_exist_ok_grown _ _ _ _ Hm) as (G2 & S2 & F2).
        split; [by eapply grown_trans|]. split; [done|].
        intros d Hd. eapply frame_trans; eauto. }
      destruct r1 as [[[] p1]|]; try done;
        intros [= <- <-]; (split; [done|]); (split; [done|]); done.
    + intros Hm. by apply mkdir_exist_ok_grown.
Qed.

Lemma makedirs_grown t name t' r :
  makedirs t name = (t', r) →
  grown name t t' ∧ (r = None → is_dir t' name = true)
  ∧ ∀ d, name `prefix_of` d ∨ d `prefix_of` name → frame [d] t t'.
Proof.
  unfold makedirs. intros H%makedirs_rev_grown. by rewrite rev_involutive in H.
Qed.

Lemma path_mkdir_rev_grown rself t t' r :
  path_mkdir_rev rself t = (t', r) →
  grown (rev rself) t t' ∧ (r = None → is_dir t' (rev rself) = true)
  ∧ ∀ d, rev rself `prefix_of` d ∨ d `prefix_of` rev rself → frame [d] t t'.
Proof.
  assert (∀ name t t' (r : option oserror), t' = t → 
     (r = None → is_dir t name = true) →
     grown name t t' ∧ (r = None → is_dir t' name = true)
     ∧ ∀ d, name `prefix_of` d ∨ d `prefix_of` name → frame [d] t t') as Hsame.
  { intros name t0 t0' r0 -> Hd. split; [apply grown_refl|].
    split; [done|]. intros. apply frame_refl. }
  assert (∀ name t t', os_mkdir t name = inl t' →
     grown name t t' ∧ ((@None oserror) = None → is_dir t' name = true)
     ∧ ∀ d, name `prefix_of` d ∨ d `prefix_of` name → frame [d] t t') as Hmk.
  { intros name t0 t0' Hm. split; [by apply os_mkdir_grown|]. split.
    - intros _. unfold is_dir. by destruct (os_mkdir_here _ _ _ Hm) as [_ ->].
    - intros d Hd. by eapply os_mkdir_frame. }
  revert t t' r. induction rself as [|x rparent IH]; intros t t' r.
  - cbn [path_mkdir_rev]. destruct (os_mkdir t (rev [])) as [t1|[e p]] eqn:Hm.
    + intros [= <- <-]. by apply Hmk.
    + destruct e; try (destruct (is_dir t (rev [])) eqn:Hd);
        intros [= <- <-]; by apply Hsame.
  - cbn [path_mkdir_rev].
    destruct (os_mkdir t (rev (x :: rparent))) as [t1|[e p]] eqn:Hm.
    + intros [= <- <-]. by apply Hmk.
    + destruct e;
        try (destruct (is_dir t (rev (x :: rparent))) eqn:Hd;
             intros [= <- <-]; by apply Hsame).
      destruct (path_mkdir_rev rparent t) as [t1 r1] eqn:Hrec.
      destruct (IH _ _ _ Hrec) as (G1 & _ & F1).
      assert (grown (rev (x :: rparent)) t t1) as G1'.
      { eapply grown_mono; [|done]. simpl. by apply prefix_app_r. }
      assert (∀ d, rev (x :: rparent) `prefix_of` d
                ∨ d `prefix_of` rev (x :: rparent) → frame [d] t t1) as F1'.
      { intros d Hd. apply F1. simpl in Hd. by eapply comparable_head. }
      destruct r1 as [e1|].
      { intros [= <- <-]. split; [done|]. split; done. }
      destruct (os_mkdir t1 (rev (x :: rparent))) as [t2|[e2 p2]] eqn:Hm2.
      * intros [= <- <-]. destruct (Hmk _ _ _ Hm2) as (G2 & S2 & F2).
        split; [by eapply grown_trans|]. split; [done|].
        intros d Hd. eapply frame_trans; eauto.
      * destruct e2;
          try (destruct (is_dir t1 (rev (x :: rparent))) eqn:Hd);
          intros [= <- <-]; (split; [done|]); (split; [done|]); done.
Qed.

Lemma path_mkdir_grown t self t' r :
  path_mkdir t self = (t', r) →
  grown self t t' ∧ (r = None → is_dir t' self = true)
  ∧ ∀ d, self `prefix_of` d ∨ d `prefix_of` self → frame [d] t t'.
Proof.
  unfold path_mkdir. intros H%path_mkdir_rev_grown.
  by rewrite rev_involutive in H.
Qed.

End LibFacts.

(** * The copy of a tree *)

Module MergeFacts.
Import FS Lib Spec FSFacts RelFacts LibFacts.

Lemma node_ind2 (P : node → Prop) :
  (∀ d, P (File d)) →
  (∀ es, Forall (λ e, P e.2) es → P (Dir es)) →
  ∀ t, P t.
Proof.
  intros HF HD. fix IH 1. intros [d|es]; [apply HF|]. apply HD.
  induction es as [|[n c] r IHr]; constructor; [apply IH|apply IHr].
Qed.

Lemma wf_cons n c r :
  wf (Dir ((n, c) :: r)) =
  match assoc n r with None => true | Some _ => false end && wf c && wf (Dir r).
Proof. reflexivity. Qed.

Lemma wf_entry es n c :
  wf (Dir es) = true → (n, c) ∈ es → assoc n es = Some c ∧ wf c = true.
Proof.
  induction es as [|[m y] r IH]; [by intros _ ?%elem_of_nil|].
  rewrite wf_cons. intros [[Hm Hy]%andb_prop Hr]%andb_prop.
  intros [[= -> ->]|Hin]%elem_of_cons.
  - simpl. by rewrite String.eqb_refl.
  - destruct (IH Hr Hin) as [Ha Hc]. split; [|done]. simpl.
    destruct (String.eqb n m) eqn:E; [|done].
    apply String.eqb_eq in E. subst m. by rewrite Ha in Hm.
Qed.

Lemma wf_node_at t p c : wf t = true → node_at t p = Some c → wf c = true.
Proof.
  revert t. induction p as [|n p IH]; intros t Hw; simpl; [congruence|].
  destruct t as [|es]; [done|]. destruct (assoc n es) as [y|] eqn:Ha; [|done].
  apply IH. clear IH. induction es as [|[m z] r IHr]; [done|].
  rewrite wf_cons in Hw. apply andb_prop in Hw as [[_ Hz]%andb_prop Hr].
  simpl in Ha. destruct (String.eqb n m); [congruence|by apply IHr].
Qed.

Lemma merged_refl s src dst t : merged s src dst t t.
Proof. split; [apply frame_refl|apply kinds_refl|eauto..]. Qed.

Lemma merged_trans s src dst t1 t2 t3 :
  merged s src dst t1 t2 → merged s src dst t2 t3 → merged s src dst t1 t3.
Proof.
  intros [F1 K1 M1 D1] [F2 K2 M2 D2]. split.
  - by eapply frame_trans.
  - by eapply kinds_trans.
  - intros q x H. destruct (M2 q x H) as [H2|[H2|(q' & n & -> & Hl & Hs & Hd)]];
      [eauto..|].
    right. right. exists q', n. repeat split; try done.
    destruct (D1 _ Hd) as [|[es Hes]]; [done|congruence].
  - intros q H. destruct (D2 q H) as [H2|H2]; eauto.
Qed.

Lemma node_at_prefix_dir s k c q :
  node_at s k = Some c → q `prefix_of` k → q ≠ k →
  ∃ es, node_at s q = Some (Dir es).
Proof.
  intros Hk [r ->] Hne. rewrite node_at_app in Hk.
  destruct (node_at s q) as [[d|es]|]; simpl in Hk; [|eauto|done].
  destruct r; [|done]. destruct Hne. by rewrite app_nil_r.
Qed.

(** The copy of a part of the source is a copy of the source. *)
Lemma merged_part s src dst k c t t' :
  node_at s k = Some c →
  merged c (src ++ k) (dst ++ k) t t' → merged s src dst t t'.
Proof.
  intros Hk [F K M D]. split.
  - by eapply frame_below.
  - done.
  - intros q x H. destruct (decide (k `prefix_of` q)) as [[q2 ->]|Hkq].
    + rewrite app_assoc in H. rewrite (app_assoc dst k q2).
      destruct (M _ _ H) as [H2|[H2|(q' & n & -> & Hl & Hs & Hd)]].
      * by left.
      * right. left. by rewrite node_at_app, Hk.
      * right. right. exists (k ++ q'), n. rewrite !app_assoc in *.
        repeat split; try done. by rewrite node_at_app, Hk.
    + left. destruct (F (dst ++ q)) as [Kq _].
      { apply Forall_singleton. by intros ?%prefix_app_inv. }
      rewrite H in Kq. by apply kept_file_inv in Kq.
  - intros q H. destruct (decide (k `prefix_of` q)) as [[q2 ->]|Hkq].
    + rewrite app_assoc in H. rewrite (app_assoc dst k q2).
      destruct (D _ H) as [H2|[es H2]]; [by left|].
      right. exists es. by rewrite node_at_app, Hk.
    + destruct (F (dst ++ q)) as [_ Eq].
      { apply Forall_singleton. by intros ?%prefix_app_inv. }
      destruct (decide (q `prefix_of` k)) as [Hqk|Hqk].
      * right. eapply node_at_prefix_dir; eauto. intros ->. by apply Hkq.
      * left. unfold is_dir in *. rewrite <- Eq; [done|].
        apply Forall_singleton. by intros ?%prefix_app_inv.
Qed.

Lemma grown_merged es src dst t t' :
  grown dst t t' → frame [dst] t t' → merged (Dir es) src dst t t'.
Proof.
  intros [K F D] Fr. split; [done..| |].
  - intros q x H. left. by apply F.
  - intros q H. destruct (D _ H) as [|Hp]; [by left|]. right.
    assert (q = []) as ->; [|simpl; eauto].
    destruct Hp as [r Hr]. rewrite <- app_assoc in Hr.
    rewrite <- (app_nil_r dst) in Hr at 1. apply app_inv_head in Hr.
    symmetry in Hr. by apply app_eq_nil in Hr as [-> _].
Qed.

Lemma grown_merged_file data src dst name t t' :
  grown name t t' → name `prefix_of` dst → name ≠ dst → frame [dst] t t' →
  merged (File data) src dst t t'.
Proof.
  intros [K F D] Hp Hne Fr. split; [done..| |].
  - intros q x H. left. by apply F.
  - intros q H. destruct (D _ H) as [|Hq]; [by left|]. destruct Hne.
    apply (anti_symm prefix); [done|]. etrans; [|done]. by apply prefix_app_r.
Qed.

Lemma copy2_merged data name src dst t t' r :
  copy2 data name dst t = (t', r) → List.last src "" = name →
  merged (File data) src dst t t'.
Proof.
  unfold copy2. intros H Hname.
  set (w := if is_dir t dst then dst ++ [name] else dst) in *.
  destruct (write_file t w data) as [t1|e] eqn:Hw; simpl in H;
    injection H as <- <-; [|apply merged_refl].
  assert (∃ k, w = dst ++ k ∧
            (k = [] ∨ (k = [name] ∧ is_dir t dst = true))) as (k & Hk & Hcase).
  { subst w. destruct (is_dir t dst); [exists [name]|exists []]; eauto.
    split; [by rewrite app_nil_r|eauto]. }
  pose proof (write_file_here _ _ _ _ Hw) as [_ Hhere].
  pose proof (write_file_kinds _ _ _ _ Hw) as K.
  assert (frame [dst] t t1) as Fr.
  { rewrite Hk in Hw. by eapply write_file_frame. }
  apply with_path_inl in Hw. split; [done..| |].
  - intros q x H.
    destruct (update_at_cases _ _ _ _ (dst ++ q) Hw) as [[r' Hr]|[(H1 & H2 & _)|[E _]]].
    + rewrite Hr, node_at_app, Hhere in H. destruct r' as [|? ?]; [|done].
      injection H as <-. rewrite app_nil_r, Hk in Hr. apply app_inv_head in Hr.
      subst q. destruct Hcase as [->|[-> Hd]]; [right; by left|].
      right. right. exists [], name. rewrite !app_nil_r. done.
    + unfold is_dir in H2. by rewrite H in H2.
    + left. by rewrite <- E.
  - intros q H. left.
    destruct (update_at_cases _ _ _ _ (dst ++ q) Hw) as [[r' Hr]|[(H1 & H2 & _)|[E _]]].
    + unfold is_dir in H. rewrite Hr, node_at_app, Hhere in H. by destruct r'.
    + done.
    + unfold is_dir in *. by rewrite <- E.
Qed.

Lemma copytree_dir es src dst t :
  copytree (Dir es) src dst t =
  match makedirs t dst with
  | (t1, Some e) => (t1, Some (OSError e))
  | (t1, None) =>
      let '(t2, errors) := copy_entries src dst es t1 [] in
      match errors with
      | [] => (t2, None)
      | _ :: _ => (t2, Some (ShutilError errors))
      end
  end.
Proof. reflexivity. Qed.

Lemma last_snoc_default (l : list string) x : List.last (l ++ [x]) "" = x.
Proof. apply last_last. Qed.

Lemma copy_entries_cons src dst name c r t errors :
  copy_entries src dst ((name, c) :: r) t errors =
  let '(t', e) := copy_entry src dst name c t in
  copy_entries src dst r t'
    (errors ++ collect (src ++ [name]) (dst ++ [name]) e).
Proof.
  simpl. destruct c; simpl; [|done].
  by destruct (copy2 data name (dst ++ [name]) t).
Qed.

Lemma copy_entries_merged es src dst r t errors t' errors' :
  (∀ n c, (n, c) ∈ r → assoc n es = Some c ∧
     ∀ t0 t0' e, copy_entry src dst n c t0 = (t0', e) →
       merged c (src ++ [n]) (dst ++ [n]) t0 t0') →
  copy_entries src dst r t errors = (t', errors') →
  merged (Dir es) src dst t t'.
Proof.
  revert t errors. induction r as [|[n c] r IH]; intros t errors Hr.
  - intros [= <- <-]. apply merged_refl.
  - rewrite copy_entries_cons.
    destruct (copy_entry src dst n c t) as [t1 e] eqn:He. intros H.
    destruct (Hr n c) as [Ha Hm]; [by left|].
    eapply merged_trans.
    + eapply (merged_part _ _ _ [n]); [|by eapply Hm]. simpl. by rewrite Ha.
    + eapply IH; [|done]. intros n' c' Hin. apply Hr. by right.
Qed.

Lemma copy_entry_file_merged data src dst n t t' e :
  copy_entry src dst n (File data) t = (t', e) →
  merged (File data) (src ++ [n]) (dst ++ [n]) t t'.
Proof.
  simpl. destruct (copy2 data n (dst ++ [n]) t) as [t1 e1] eqn:Hc.
  intros [= <- <-]. eapply copy2_merged; [done|]. apply last_snoc_default.
Qed.

Lemma copytree_merged s :
  wf s = true → ∀ src dst t t' r,
  copytree s src dst t = (t', r) → merged s src dst t t'.
Proof.
  induction s as [d|es IH] using node_ind2; intros Hw src dst t t' r.
  - simpl. intros [= <- <-]. apply merged_refl.
  - rewrite copytree_dir.
    destruct (makedirs t dst) as [t1 r1] eqn:Hm.
    destruct (makedirs_grown _ _ _ _ Hm) as (G & _ & Fr).
    assert (merged (Dir es) src dst t t1) as M1.
    { apply grown_merged; [done|]. apply Fr. by left. }
    destruct r1 as [e|]; [by intros [= <- <-]|].
    destruct (copy_entries src dst es t1 []) as [t2 errors] eqn:Hc.
    assert (merged (Dir es) src dst t1 t2) as M2.
    { eapply copy_entries_merged; [|done]. intros n c Hin.
      destruct (wf_entry _ _ _ Hw Hin) as [Ha Hc'].
      split; [done|]. intros t0 t0' e0 He.
      destruct c as [data|es'].
      - by eapply copy_entry_file_merged.
      - rewrite Forall_forall in IH. eapply (IH (n, Dir es')); eauto. }
    intros H. assert (t' = t2) as -> by (destruct errors; by injection H).
    by eapply merged_trans.
Qed.

End MergeFacts.

Module CopyFacts.
Import FS Lib Spec FSFacts RelFacts LibFacts MergeFacts.

Lemma copy_entry_merged src dst n c t t' e :
  wf c = true → copy_entry src dst n c t = (t', e) →
  merged c (src ++ [n]) (dst ++ [n]) t t'.
Proof.
  intros Hw H. destruct c as [data|es].
  - by eapply copy_entry_file_merged.
  - by eapply copytree_merged.
Qed.

Lemma sibling_disjoint (dst : path) n m k :
  n ≠ m →
  ¬ dst ++ [n] `prefix_of` dst ++ m :: k ∧ ¬ dst ++ m :: k `prefix_of` dst ++ [n].
Proof.
  intros Hne. split; intros H%prefix_app_inv.
  - by apply prefix_cons_inv_1 in H.
  - by apply prefix_cons_inv_1 in H.
Qed.

Lemma copy_entry_beside src dst n c t t' e m k :
  wf c = true → copy_entry src dst n c t = (t', e) → n ≠ m →
  node_at t' (dst ++ m :: k) = node_at t (dst ++ m :: k).
Proof.
  intros Hw H Hne. destruct (copy_entry_merged _ _ _ _ _ _ _ Hw H) as [F _ _ _].
  destruct (sibling_disjoint dst n m k Hne).
  destruct (F (dst ++ m :: k)) as [_ E]; [by apply Forall_singleton|].
  apply E. by apply Forall_singleton.
Qed.

Lemma assoc_elem_of n c es : assoc n es = Some c → (n, c) ∈ es.
Proof.
  induction es as [|[m y] r IH]; simpl; [done|].
  destruct (String.eqb n m) eqn:E.
  - apply String.eqb_eq in E. intros [= ->]. subst. by left.
  - intros H. right. by apply IH.
Qed.

Lemma copy_entries_beside src dst r t errors t' errors' m k :
  wf (Dir r) = true → assoc m r = None →
  copy_entries src dst r t errors = (t', errors') →
  node_at t' (dst ++ m :: k) = node_at t (dst ++ m :: k).
Proof.
  revert t errors. induction r as [|[n c] r IH]; intros t errors Hw Hm.
  - by intros [= <- <-].
  - rewrite copy_entries_cons. rewrite wf_cons in Hw.
    apply andb_prop in Hw as [[_ Hc]%andb_prop Hr]. simpl in Hm.
    destruct (String.eqb m n) eqn:E; [done|]. apply String.eqb_neq in E.
    destruct (copy_entry src dst n c t) as [t1 e] eqn:He. intros H.
    rewrite (IH _ _ Hr Hm H).
    apply (copy_entry_beside _ _ _ _ _ _ _ m k Hc He). congruence.
Qed.

Lemma copy_entries_errors src dst r t errors t' errors' :
  copy_entries src dst r t errors = (t', errors') →
  ∃ more, errors' = errors ++ more.
Proof.
  revert t errors. induction r as [|[n c] r IH]; intros t errors.
  - intros [= <- <-]. exists []. by rewrite app_nil_r.
  - rewrite copy_entries_cons.
    destruct (copy_entry src dst n c t) as [t1 e]. intros H.
    destruct (IH _ _ H) as [more ->]. rewrite <- app_assoc. eauto.
Qed.

Lemma copytree_error_nonempty s src dst t t' l :
  copytree s src dst t = (t', Some (ShutilError l)) → l ≠ [].
Proof.
  destruct s as [d|es]; [done|]. rewrite copytree_dir.
  destruct (makedirs t dst) as [t1 [e|]]; [done|].
  destruct (copy_entries src dst es t1 []) as [t2 [|x errors]]; [done|].
  by intros [= <- <-].
Qed.

Lemma copy_entry_no_error src dst n c t t' e :
  copy_entry src dst n c t = (t', e) →
  collect (src ++ [n]) (dst ++ [n]) e = [] → e = None.
Proof.
  destruct e as [[e|l]|]; simpl; [done| |done].
  intros H ->. destruct c as [data|es].
  - simpl in H. destruct (copy2 data n (dst ++ [n]) t) as [? [?|]]; done.
  - by apply copytree_error_nonempty in H.
Qed.

Lemma target_cons t src dst n q :
  target t (src ++ [n]) (dst ++ [n]) q = target t src dst (n :: q).
Proof. unfold target. by rewrite <- !app_assoc. Qed.

Lemma target_below t src dst q : ∃ k, target t src dst q = dst ++ q ++ k.
Proof.
  unfold target. destruct (is_dir t (dst ++ q)); eauto.
  exists []. by rewrite app_nil_r.
Qed.

Lemma copy2_copied data n src dst t t' :
  copy2 data n dst t = (t', None) → List.last src "" = n →
  node_at t' (target t src dst []) = Some (File data).
Proof.
  unfold copy2, target. rewrite !app_nil_r. intros H <-.
  destruct (write_file t _ data) as [t1|e] eqn:Hw; [|done].
  injection H as <-. by destruct (write_file_here _ _ _ _ Hw).
Qed.

Lemma copy_entries_copied src dst r :
  wf (Dir r) = true →
  Forall (λ e, ∀ src dst t t', copytree e.2 src dst t = (t', None) →
            ∀ q x, node_at e.2 q = Some (File x) →
              node_at t' (target t src dst q) = Some (File x)) r →
  ∀ t errors t', copy_entries src dst r t errors = (t', []) →
  ∀ n c q x, (n, c) ∈ r → node_at c q = Some (File x) →
    node_at t' (target t src dst (n :: q)) = Some (File x).
Proof.
  induction r as [|[n0 c0] r IH]; intros Hw HF t errors t' H n c q x Hin Hq.
  { by apply elem_of_nil in Hin. }
  rewrite copy_entries_cons in H.
  destruct (copy_entry src dst n0 c0 t) as [t1 e] eqn:He.
  destruct (copy_entries_errors _ _ _ _ _ _ _ H) as [more Hmore].
  symmetry in Hmore. apply app_eq_nil in Hmore as [Hmore _].
  apply app_eq_nil in Hmore as [-> Hcol].
  pose proof (copy_entry_no_error _ _ _ _ _ _ _ He Hcol) as ->.
  pose proof Hw as Hw'. rewrite wf_cons in Hw'.
  apply andb_prop in Hw' as [[Hn0 Hc0]%andb_prop Hr].
  destruct (assoc n0 r) eqn:Ha0; [done|]. clear Hn0.
  apply Forall_cons in HF as [HF0 HFr].
  apply elem_of_cons in Hin as [[= -> ->]|Hin].
  - assert (node_at t1 (target t src dst (n0 :: q)) = Some (File x)) as <-.
    { rewrite <- target_cons. destruct c0 as [data|es].
      - simpl in He. destruct (copy2 data n0 (dst ++ [n0]) t) as [t1' e1] eqn:Hc.
        injection He as -> He. destruct e1; [done|].
        destruct q; [|done]. injection Hq as ->.
        eapply copy2_copied; [done|]. apply last_snoc_default.
      - eapply (HF0 _ _ _ _ He); eauto. }
    destruct (target_below t src dst (n0 :: q)) as [k ->].
    eapply (copy_entries_beside _ _ _ _ _ _ _ n0 (q ++ k)); eauto.
  - destruct (wf_entry _ _ _ Hr Hin) as [Ha _].
    assert (n0 ≠ n) as Hne by (intros ->; congruence).
    assert (target t src dst (n :: q) = target t1 src dst (n :: q)) as ->.
    { unfold target, is_dir.
      by rewrite (copy_entry_beside _ _ _ _ _ _ _ n q Hc0 He Hne). }
    eapply IH; eauto.
Qed.

(** A [copytree] that raises nothing has copied every file of the
    source. *)
Lemma copytree_copied s :
  wf s = true → ∀ src dst t t', copytree s src dst t = (t', None) →
  ∀ q x, node_at s q = Some (File x) →
    node_at t' (target t src dst q) = Some (File x).
Proof.
  induction s as [d|es IH] using node_ind2; intros Hw src dst t t'; [done|].
  rewrite copytree_dir. destruct (makedirs t dst) as [t1 [e|]] eqn:Hm; [done|].
  destruct (copy_entries src dst es t1 []) as [t2 [|? errors]] eqn:Hc; [|done].
  intros [= <-] q x Hq. destruct q as [|n q]; [done|]. simpl in Hq.
  destruct (assoc n es) as [c|] eqn:Ha; [|done].
  destruct (makedirs_grown _ _ _ _ Hm) as ([K _ D] & _ & _).
  assert (target t src dst (n :: q) = target t1 src dst (n :: q)) as ->.
  { unfold target. destruct (is_dir t (dst ++ n :: q)) eqn:Hd.
    - specialize (K (dst ++ n :: q)). unfold is_dir in *.
      destruct (node_at t (dst ++ n :: q)) as [[|]|]; try done.
      destruct K as [es' ->]. done.
    - destruct (is_dir t1 (dst ++ n :: q)) eqn:Hd1; [|done].
      destruct (D _ Hd1) as [|Hp]; [congruence|].
      apply prefix_length in Hp. rewrite length_app in Hp. simpl in Hp. lia. }
  eapply (copy_entries_copied src dst es); eauto using assoc_elem_of.
  apply Forall_forall. intros [m c'] Hin. simpl.
  destruct (wf_entry _ _ _ Hw Hin) as [_ Hc'].
  rewrite Forall_forall in IH. intros. eapply (IH (m, c')); eauto.
Qed.

End CopyFacts.

(** * The loop of [run] *)

Module RunFacts.
Import FS Lib PathStr CopyWorker Spec FSFacts RelFacts LibFacts MergeFacts CopyFacts.

Lemma path_mkdir_root t : path_mkdir t [] = (t, None) ∨ ∃ e, path_mkdir t [] = (t, Some e).
Proof.
  unfold path_mkdir. simpl. unfold os_mkdir. simpl.
  destruct (is_dir t []); eauto.
Qed.

Lemma removelast_prefix (p : path) : removelast p `prefix_of` p.
Proof.
  destruct (decide (p = [])) as [->|Hne]; [done|].
  rewrite (app_removelast_last "" Hne) at 2. by apply prefix_app_r.
Qed.

Lemma removelast_ne (p : path) : p ≠ [] → removelast p ≠ p.
Proof.
  intros Hne Heq. pose proof (app_removelast_last "" Hne) as H.
  rewrite Heq in H. apply (f_equal length) in H. rewrite length_app in H.
  simpl in H. lia.
Qed.

Lemma copy_one_file_split data src dst t t' r :
  copy_one (File data) src dst t = (t', r) →
  ∃ t1 r1, path_mkdir t (removelast dst) = (t1, r1) ∧
    merged (File data) src dst t t1 ∧
    is_dir t1 dst = is_dir t dst ∧
    match r1 with
    | Some e => t' = t1 ∧ r = Some (OSError e)
    | None => ∃ r2, copy2 data (List.last src "") dst t1 = (t', r2)
                ∧ r = option_map OSError r2
    end.
Proof.
  simpl. destruct (path_mkdir t (removelast dst)) as [t1 r1] eqn:Hm.
  intros H. exists t1, r1. split; [done|].
  assert (merged (File data) src dst t t1 ∧ is_dir t1 dst = is_dir t dst) as [M E].
  { destruct (decide (dst = [])) as [->|Hne].
    - simpl in Hm. destruct (path_mkdir_root t) as [H1|[e H1]];
        rewrite H1 in Hm; injection Hm as <- <-; split; done || apply merged_refl.
    - destruct (path_mkdir_grown _ _ _ _ Hm) as (G & _ & Fr). split.
      + eapply grown_merged_file; eauto using removelast_prefix, removelast_ne.
      + destruct G as [K _ D]. destruct (is_dir t dst) eqn:Hd.
        * specialize (K dst). unfold is_dir in *.
          destruct (node_at t dst) as [[|]|]; try done. by destruct K as [? ->].
        * destruct (is_dir t1 dst) eqn:Hd1; [|done].
          destruct (D _ Hd1) as [|Hp]; [congruence|].
          destruct (removelast_ne _ Hne). apply (anti_symm prefix); [|done].
          apply removelast_prefix. }
  split; [done|]. split; [done|].
  destruct r1 as [e|]; [by injection H as <- <-|].
  destruct (copy2 data (List.last src "") dst t1) as [t2 r2] eqn:Hc.
  injection H as <- <-. eauto.
Qed.

Lemma copy_one_merged s src dst t t' r :
  wf s = true → copy_one s src dst t = (t', r) → merged s src dst t t'.
Proof.
  intros Hw H. destruct s as [data|es]; [|by eapply copytree_merged].
  destruct (copy_one_file_split _ _ _ _ _ _ H) as (t1 & r1 & _ & M & _ & Hr).
  destruct r1 as [e|]; [by destruct Hr as [-> _]|].
  destruct Hr as (r2 & Hc & _). eapply merged_trans; [done|].
  by eapply copy2_merged.
Qed.

Lemma copy_one_copied s src dst t t' :
  wf s = true → copy_one s src dst t = (t', None) →
  ∀ q x, node_at s q = Some (File x) →
    node_at t' (target t src dst q) = Some (File x).
Proof.
  intros Hw H q x Hq. destruct s as [data|es]; [|by eapply copytree_copied].
  destruct (copy_one_file_split _ _ _ _ _ _ H) as (t1 & r1 & _ & M & E & Hr).
  destruct r1 as [e|]; [by destruct Hr|]. destruct Hr as (r2 & Hc & Hr2).
  destruct r2; [done|]. destruct q; [|done]. injection Hq as ->.
  assert (target t src dst [] = target t1 src dst []) as ->.
  { unfold target. by rewrite !app_nil_r, E. }
  by eapply copy2_copied.
Qed.

(** A plain path is joined to both roots by the same components. *)
Lemma plain_joinpath base p :
  plain p = true →
  joinpath base (rstrip_slash p) = base ++ parts (rstrip_slash p).
Proof.
  unfold plain, joinpath. intros [H _]%andb_prop.
  by destruct (is_absolute (rstrip_slash p)).
Qed.

Section Run.
Variables (S D : path) (total : nat).
Hypothesis apart : disjoint S D.

Local Abbreviation comps p := (parts (rstrip_slash p)).

Lemma run_from_cons i p rest t :
  run_from S D total i (p :: rest) t =
  let src := joinpath S (rstrip_slash p) in
  let dst := joinpath D (rstrip_slash p) in
  match node_at t src with
  | None =>
      let '(evs, t') := run_from S D total (Datatypes.S i) rest t in
      (warning src :: evs, t')
  | Some s =>
      match copy_one s src dst t with
      | (t1, Some e) => ([error p e; finished false], t1)
      | (t1, None) =>
          let '(evs, t') := run_from S D total (Datatypes.S i) rest t1 in
          (progress (Progress.percent (i + 1) total) :: evs, t')
      end
  end.
Proof. reflexivity. Qed.

(** One step of the loop on a tree whose source root is [s0]. *)
Lemma step_merged s0 p s t t' r :
  wf s0 = true → node_at t S = Some s0 → plain p = true →
  node_at t (joinpath S (rstrip_slash p)) = Some s →
  copy_one s (joinpath S (rstrip_slash p)) (joinpath D (rstrip_slash p)) t
    = (t', r) →
  frame [joinpath D (rstrip_slash p)] t t' ∧ merged s0 S D t t'
  ∧ node_at t' S = Some s0 ∧ node_at s0 (comps p) = Some s.
Proof.
  intros Hw HS Hp. rewrite !plain_joinpath by done. fold (comps p).
  intros Hs Hc. rewrite node_at_app, HS in Hs. simpl in Hs.
  pose proof (wf_node_at _ _ _ Hw Hs) as Hws.
  pose proof (copy_one_merged _ _ _ _ _ _ Hws Hc) as M.
  pose proof (merged_part _ _ _ _ _ _ _ Hs M) as M0.
  split; [by destruct M|]. split; [done|]. split; [|done].
  destruct M0 as [F _ _ _]. destruct apart as [H1 H2].
  destruct (F S) as [_ E]; [by apply Forall_singleton|].
  rewrite E; [done|]. by apply Forall_singleton.
Qed.

Lemma run_from_no_source i rest t evs t' :
  node_at t S = None → Forall (λ p, plain p = true) rest →
  run_from S D total i rest t = (evs, t') → t' = t.
Proof.
  intros HS. revert i evs. induction rest as [|p rest IH]; intros i evs Hpl.
  - by intros [= <- <-].
  - apply Forall_cons in Hpl as [Hp Hpl]. rewrite run_from_cons. cbn zeta.
    rewrite plain_joinpath by done. rewrite node_at_app, HS. simpl.
    destruct (run_from S D total (Datatypes.S i) rest t) as [evs1 t1] eqn:Hr.
    intros [= <- <-]. by eapply IH.
Qed.

Lemma run_from_merged s0 i rest t evs t' :
  wf s0 = true → node_at t S = Some s0 →
  Forall (λ p, plain p = true) rest →
  run_from S D total i rest t = (evs, t') →
  frame (map (λ p, joinpath D (rstrip_slash p)) rest) t t'
  ∧ merged s0 S D t t' ∧ node_at t' S = Some s0.
Proof.
  intros Hw. revert i t evs. induction rest as [|p rest IH]; intros i t evs HS Hpl.
  - intros [= <- <-]. split; [apply frame_refl|]. split; [apply merged_refl|done].
  - apply Forall_cons in Hpl as [Hp Hpl]. rewrite run_from_cons. cbn zeta.
    destruct (node_at t (joinpath S (rstrip_slash p))) as [s|] eqn:Hs.
    + destruct (copy_one s _ _ t) as [t1 r] eqn:Hc.
      destruct (step_merged _ _ _ _ _ _ Hw HS Hp Hs Hc) as (F1 & M1 & HS1 & _).
      assert (frame (map (λ p, joinpath D (rstrip_slash p)) (p :: rest)) t t1) as F1'.
      { eapply frame_mono; [|done]. intros d ->%list_elem_of_singleton. by left. }
      destruct r as [e|]; [by intros [= <- <-]|].
      destruct (run_from S D total (Datatypes.S i) rest t1) as [evs1 t2] eqn:Hr.
      intros [= <- <-]. destruct (IH _ _ _ HS1 Hpl Hr) as (F2 & M2 & HS2).
      split; [|split; [by eapply merged_trans|done]].
      eapply frame_trans; [done|]. eapply frame_mono; [|done].
      intros d Hd. by right.
    + destruct (run_from S D total (Datatypes.S i) rest t) as [evs1 t2] eqn:Hr.
      intros [= <- <-]. destruct (IH _ _ _ HS Hpl Hr) as (F2 & M2 & HS2).
      split; [|done]. eapply frame_mono; [|done]. intros d Hd. by right.
Qed.

End Run.

End RunFacts.

Module RunFacts2.
Import FS Lib PathStr CopyWorker Spec FSFacts RelFacts LibFacts MergeFacts CopyFacts RunFacts.

Lemma run_from_nonempty S D total i rest t evs t' :
  run_from S D total i rest t = (evs, t') → evs ≠ [].
Proof.
  destruct rest as [|p rest]; [by intros [= <- <-]|].
  rewrite run_from_cons. cbn zeta.
  destruct (node_at t _) as [s|].
  - destruct (copy_one s _ _ t) as [t1 [e|]]; [by intros [= <- <-]|].
    destruct (run_from S D total _ rest t1). by intros [= <- <-].
  - destruct (run_from S D total _ rest t). by intros [= <- <-].
Qed.

Lemma succeeded_cons e evs : evs ≠ [] → succeeded (e :: evs) = succeeded evs.
Proof. by destruct evs. Qed.


(** The run over [before ++ rest] when [before] goes through. *)
Lemma run_from_app S D total i before rest t evs0 t1 :
  run_from S D total i before t = (evs0 ++ [finished true], t1) →
  run_from S D total i (before ++ rest) t =
  let '(evs, t') := run_from S D total (i + length before) rest t1 in
  (evs0 ++ evs, t').
Proof.
  revert i t evs0. induction before as [|p before IH]; intros i t evs0.
  - simpl. intros [= H <-]. destruct evs0 as [|? [|? ?]]; try done.
    rewrite Nat.add_0_r. by destruct (run_from S D total i rest t).
  - simpl app. rewrite !run_from_cons. cbn zeta.
    replace (i + length (p :: before)) with (Datatypes.S i + length before)
      by (simpl; lia).
    destruct (node_at t _) as [s|].
    + destruct (copy_one s _ _ t) as [t2 [e|]].
      { intros [= H _]. destruct evs0 as [|? [|? [|? ?]]]; done. }
      destruct (run_from S D total (Datatypes.S i) before t2) as [evs2 t3] eqn:Hr.
      intros [= H <-]. destruct evs0 as [|e0 evs0].
      { destruct evs2; [|done]. by apply run_from_nonempty in Hr. }
      injection H as <- ->. rewrite (IH _ _ _ Hr).
      by destruct (run_from S D total _ rest t3).
    + destruct (run_from S D total (Datatypes.S i) before t) as [evs2 t3] eqn:Hr.
      intros [= H <-]. destruct evs0 as [|e0 evs0].
      { destruct evs2; [|done]. by apply run_from_nonempty in Hr. }
      injection H as <- ->. rewrite (IH _ _ _ Hr).
      by destruct (run_from S D total _ rest t3).
Qed.

Section Run.
Variables (S D : path) (total : nat).
Hypothesis apart : disjoint S D.

Lemma run_from_reaches s0 i rest t evs t' p s :
  wf s0 = true → node_at t S = Some s0 →
  Forall (λ p, plain p = true) rest →
  run_from S D total i rest t = (evs, t') → succeeded evs = true →
  p ∈ rest → node_at s0 (parts (rstrip_slash p)) = Some s →
  ∃ t1 t2, merged s0 S D t t1 ∧ node_at t1 S = Some s0 ∧
    copy_one s (joinpath S (rstrip_slash p)) (joinpath D (rstrip_slash p)) t1
      = (t2, None) ∧
    merged s0 S D t2 t'.
Proof.
  intros Hw. revert i t evs.
  induction rest as [|p0 rest IH]; intros i t evs HS Hpl Hrun Hok Hin Hs.
  { by apply elem_of_nil in Hin. }
  apply Forall_cons in Hpl as [Hp0 Hpl]. rewrite run_from_cons in Hrun.
  cbn zeta in Hrun.
  destruct (node_at t (joinpath S (rstrip_slash p0))) as [s'|] eqn:Hs'.
  - destruct (copy_one s' _ _ t) as [t1 r] eqn:Hc.
    destruct (step_merged S D apart _ _ _ _ _ _ Hw HS Hp0 Hs' Hc)
      as (F1 & M1 & HS1 & Hs0').
    destruct r as [e|]; [by injection Hrun as <- <-|].
    destruct (run_from S D total (Datatypes.S i) rest t1) as [evs1 t2] eqn:Hr.
    injection Hrun as <- <-.
    rewrite succeeded_cons in Hok by (by eapply run_from_nonempty).
    apply elem_of_cons in Hin as [->|Hin].
    + assert (s' = s) as -> by congruence.
      exists t, t1. split; [apply merged_refl|]. split; [done|]. split; [done|].
      by destruct (run_from_merged S D total apart _ _ _ _ _ _ Hw HS1 Hpl Hr)
        as (_ & M2 & _).
    + destruct (IH _ _ _ HS1 Hpl Hr Hok Hin Hs) as (ta & tb & Ma & HSa & Hca & Mb).
      exists ta, tb. split; [by eapply merged_trans|done].
  - destruct (run_from S D total (Datatypes.S i) rest t) as [evs1 t2] eqn:Hr.
    injection Hrun as <- <-.
    rewrite succeeded_cons in Hok by (by eapply run_from_nonempty).
    apply elem_of_cons in Hin as [->|Hin].
    + rewrite plain_joinpath in Hs' by done.
      rewrite node_at_app, HS in Hs'. simpl in Hs'. congruence.
    + by eapply IH.
Qed.

End Run.

Lemma last_default_app (l q : path) n :
  q ≠ [] → List.last (l ++ q) "" = n → last q = Some n.
Proof.
  intros Hne. destruct (exists_last Hne) as (q0 & x & ->).
  rewrite app_assoc, last_last, last_snoc. congruence.
Qed.

Lemma snoc_eq_app (c q q' : path) (n : string) :
  c ++ q = q' ++ [n] →
  (q = [] ∧ c = q' ++ [n]) ∨ ∃ q0, q = q0 ++ [n] ∧ q' = c ++ q0.
Proof.
  intros H. destruct (decide (q = [])) as [->|Hne].
  - left. by rewrite app_nil_r in H.
  - right. destruct (exists_last Hne) as (q0 & x & ->).
    rewrite app_assoc in H. apply app_inj_tail in H as [<- ->]. eauto.
Qed.

End RunFacts2.

(** * The arithmetic of the progress value *)

Module FloatFacts.
Import Progress.
Local Open Scope Z_scope.

Lemma digits2_pos_size p : digits2_pos p = Pos.size p.
Proof. induction p; simpl; congruence. Qed.

Lemma digits2_pos_bounds p :
  2 ^ (Zpos (digits2_pos p) - 1) <= Zpos p < 2 ^ Zpos (digits2_pos p).
Proof.
  rewrite digits2_pos_size.
  pose proof (Pos.size_gt p) as Hgt. pose proof (Pos.size_le p) as Hle.
  apply Pos2Z.pos_lt_pos in Hgt. apply Pos2Z.pos_le_pos in Hle.
  rewrite Pos2Z.inj_pow in Hgt, Hle.
  replace (Zpos (Pos.size p)) with (Zpos (Pos.size p) - 1 + 1) in Hle by lia.
  rewrite Z.pow_add_r in Hle by lia. change (2 ^ 1) with 2 in Hle. lia.
Qed.

Lemma pow2_lt_inv a b : 0 <= a -> 0 <= b -> 2 ^ a < 2 ^ b -> a < b.
Proof. intros Ha Hb H. apply (Z.pow_lt_mono_r_iff 2); lia. Qed.

Lemma Zdigits2_unique z k :
  1 <= k -> 2 ^ (k - 1) <= z < 2 ^ k -> Zdigits2 z = k.
Proof.
  intros Hk [Hlo Hhi]. assert (0 < z) by (pose proof (Z.pow_pos_nonneg 2 (k - 1)); lia).
  destruct z as [|p|p]; try lia. simpl.
  pose proof (digits2_pos_bounds p) as [Hl Hh].
  set (d := Zpos (digits2_pos p)) in *.
  assert (0 < d) by (subst d; lia).
  assert (k - 1 < d) by (apply pow2_lt_inv; lia).
  assert (d - 1 < k) by (apply pow2_lt_inv; lia).
  lia.
Qed.

Lemma shr_1_m mrs : 0 <= shr_m mrs -> shr_m (shr_1 mrs) = shr_m mrs / 2.
Proof.
  destruct mrs as [m r s]. simpl. intros Hm. rewrite <- Z.div2_div.
  destruct m as [|[p|p|]|p]; simpl; try done; lia.
Qed.

Lemma pow2_xO p : 2 ^ Zpos p~0 = 2 ^ Zpos p * 2 ^ Zpos p.
Proof. rewrite <- Z.pow_add_r by lia. f_equal. lia. Qed.

Lemma pow2_xI p : 2 ^ Zpos p~1 = 2 * 2 ^ Zpos p * 2 ^ Zpos p.
Proof.
  replace (Zpos p~1) with (1 + Zpos p + Zpos p) by lia.
  by rewrite !Z.pow_add_r by lia.
Qed.

Lemma pow2_pos k : 0 <= k -> 0 < 2 ^ k.
Proof. intros. apply Z.pow_pos_nonneg; lia. Qed.

Lemma iter_pos_shr_m p mrs :
  0 <= shr_m mrs ->
  shr_m (iter_pos shr_1 p mrs) = shr_m mrs / 2 ^ Zpos p.
Proof.
  revert mrs. induction p as [p IH|p IH|]; intros mrs Hm; simpl iter_pos.
  - assert (0 <= shr_m (shr_1 mrs)).
    { rewrite shr_1_m by done. apply Z.div_pos; lia. }
    assert (0 <= shr_m (iter_pos shr_1 p (shr_1 mrs))).
    { rewrite IH by done. apply Z.div_pos; [done|]. apply pow2_pos; lia. }
    rewrite !IH, shr_1_m by done.
    pose proof (pow2_pos (Zpos p) ltac:(lia)).
    rewrite !Z.div_div by lia. rewrite pow2_xI. f_equal. lia.
  - assert (0 <= shr_m (iter_pos shr_1 p mrs)).
    { rewrite IH by done. apply Z.div_pos; [done|]. apply pow2_pos; lia. }
    rewrite !IH by done.
    pose proof (pow2_pos (Zpos p) ltac:(lia)).
    rewrite !Z.div_div by lia. rewrite pow2_xO. f_equal.
  - by rewrite shr_1_m.
Qed.


Lemma fexp_normal e : -1021 <= e -> fexp prec emax e = e - 53.
Proof. unfold fexp, emin, prec, emax. lia. Qed.

Lemma shr_record_of_loc_m m l : shr_m (shr_record_of_loc m l) = m.
Proof. by destruct l as [|[]]. Qed.

Lemma shr_fexp_spec mx ex lx d :
  0 < mx -> Zdigits2 mx = d -> 53 <= d -> -1021 <= d + ex ->
  exists mrs, shr_fexp prec emax mx ex lx = (mrs, ex + (d - 53))
    /\ shr_m mrs = mx / 2 ^ (d - 53)
    /\ (d = 53 -> mrs = shr_record_of_loc mx lx).
Proof.
  intros Hm Hd H53 He. unfold shr_fexp. rewrite Hd, fexp_normal by done.
  replace (d + ex - 53 - ex) with (d - 53) by lia.
  destruct (d - 53) as [|p|p] eqn:E; try lia; simpl.
  - eexists. split; [by rewrite Z.add_0_r|].
    by rewrite shr_record_of_loc_m, Z.div_1_r.
  - eexists. split; [done|]. split; [|lia].
    rewrite iter_pos_shr_m; rewrite shr_record_of_loc_m; [done|lia].
Qed.

Lemma round_nearest_even_bounds m l :
  m <= round_nearest_even m l <= m + 1.
Proof. destruct l as [|[]]; simpl; try destruct (Z.even m); lia. Qed.

Lemma Zdigits2_bounds z d : 0 < z -> Zdigits2 z = d -> 2 ^ (d - 1) <= z < 2 ^ d.
Proof.
  intros Hz <-. destruct z as [|p|p]; try lia. apply digits2_pos_bounds.
Qed.

Lemma div_pow2_bounds mx d :
  53 <= d -> 2 ^ (d - 1) <= mx < 2 ^ d ->
  2 ^ 52 <= mx / 2 ^ (d - 53) < 2 ^ 53.
Proof.
  intros Hd [Hlo Hhi]. pose proof (pow2_pos (d - 53) ltac:(lia)) as Hp.
  split.
  - apply Z.div_le_lower_bound; [done|]. rewrite <- Z.pow_add_r by lia.
    replace (d - 53 + 52) with (d - 1) by lia. done.
  - apply Z.div_lt_upper_bound; [done|]. rewrite <- Z.pow_add_r by lia.
    replace (d - 53 + 53) with d by lia. done.
Qed.

(** What [binary_round_aux] returns for a positive mantissa of at least
    53 digits in the normal range: the mantissa cut to 53 digits, or its
    successor. *)
Lemma binary_round_aux_spec mx ex lx d :
  0 < mx -> Zdigits2 mx = d -> 53 <= d -> -1021 <= d + ex -> d + ex <= 1000 ->
  exists m e m1,
    binary_round_aux prec emax false mx ex lx = S754_finite false m e
    /\ mx / 2 ^ (d - 53) <= m1 <= mx / 2 ^ (d - 53) + 1
    /\ ((e = ex + (d - 53) /\ Zpos m = m1)
        \/ (e = ex + (d - 53) + 1 /\ m1 = 2 ^ 53 /\ Zpos m = 2 ^ 52))
    /\ 2 ^ 52 <= Zpos m < 2 ^ 53
    /\ (lx = loc_Exact -> d = 53 -> m1 = mx).
Proof.
  intros Hm Hd H53 Hlo Hhi. unfold binary_round_aux.
  destruct (shr_fexp_spec mx ex lx d Hm Hd H53 Hlo) as (mrs & -> & Hmrs & Hex).
  pose proof (div_pow2_bounds mx d H53 (Zdigits2_bounds _ _ Hm Hd)) as Hh.
  rewrite <- Hmrs in Hh |- *.
  set (m1 := round_nearest_even (shr_m mrs) (loc_of_shr_record mrs)).
  pose proof (round_nearest_even_bounds (shr_m mrs) (loc_of_shr_record mrs)) as Hr.
  fold m1 in Hr.
  assert (lx = loc_Exact -> d = 53 -> m1 = mx) as Hexact.
  { intros -> Hd53. subst m1. by rewrite (Hex Hd53). }
  change (2 ^ 52) with 4503599627370496 in *.
  change (2 ^ 53) with 9007199254740992 in *.
  destruct (Z_lt_ge_dec m1 9007199254740992) as [Hlt|Hge].
  - assert (Zdigits2 m1 = 53) as Hd1.
    { apply Zdigits2_unique; [lia|]. change (2 ^ (53 - 1)) with 4503599627370496.
      change (2 ^ 53) with 9007199254740992. lia. }
    destruct (shr_fexp_spec m1 (ex + (d - 53)) loc_Exact 53 ltac:(lia) Hd1
                ltac:(lia) ltac:(lia)) as (mrs2 & -> & Hmrs2 & _).
    change (2 ^ (53 - 53)) with 1 in Hmrs2. rewrite Z.div_1_r in Hmrs2.
    rewrite Hmrs2. destruct m1 as [|p1|p1] eqn:E1; try lia.
    replace (ex + (d - 53) + (53 - 53) <=? emax - prec) with true
      by (symmetry; apply Z.leb_le; unfold emax, prec; lia).
    exists p1, (ex + (d - 53) + (53 - 53)), (Zpos p1).
    split; [done|]. split; [lia|]. split; [left; lia|]. split; [lia|done].
  - assert (m1 = 9007199254740992) as Hm1 by lia.
    assert (Zdigits2 m1 = 54) as Hd1.
    { rewrite Hm1. reflexivity. }
    destruct (shr_fexp_spec m1 (ex + (d - 53)) loc_Exact 54 ltac:(lia) Hd1
                ltac:(lia) ltac:(lia)) as (mrs2 & -> & Hmrs2 & _).
    rewrite Hm1 in Hmrs2. change (9007199254740992 / 2 ^ (54 - 53))
      with 4503599627370496 in Hmrs2.
    rewrite Hmrs2.
    replace (ex + (d - 53) + (54 - 53) <=? emax - prec) with true
      by (symmetry; apply Z.leb_le; unfold emax, prec; lia).
    exists 4503599627370496%positive, (ex + (d - 53) + (54 - 53)), m1.
    split; [done|]. split; [lia|]. split; [right; lia|]. split; [lia|done].
Qed.

Lemma pos_iter_xO p k : Zpos (Pos.iter xO p k) = Zpos p * 2 ^ Zpos k.
Proof.
  induction k as [|k IH] using Pos.peano_ind.
  - simpl. lia.
  - rewrite Pos.iter_succ, Pos2Z.inj_xO, IH, Pos2Z.inj_succ.
    rewrite Z.pow_succ_r by lia. lia.
Qed.

(** A natural number below [2^53] is a binary64 number: its 53-digit
    mantissa and its exponent. *)
Lemma float_of_nat_spec n d :
  (1 <= n)%nat -> Zdigits2 (Z.of_nat n) = d -> d <= 53 ->
  exists m, float_of_nat n = S754_finite false m (d - 53)
    /\ Zpos m = Z.of_nat n * 2 ^ (53 - d)
    /\ 2 ^ 52 <= Zpos m < 2 ^ 53.
Proof.
  intros Hn Hd H53. unfold float_of_nat, binary_normalize.
  destruct (Z.of_nat n) as [|p|p] eqn:Ep; try lia.
  unfold binary_round. simpl in Hd. rewrite Hd, Z.add_0_r.
  assert (1 <= d) by lia.
  rewrite fexp_normal by lia. unfold shl_align.
  pose proof (Zdigits2_bounds (Zpos p) d ltac:(lia) Hd) as Hb.
  assert (exists mz ez,
    match d - 53 - 0 with
    | Z.neg d0 => (Pos.iter xO p d0, d - 53)
    | _ => (p, 0)
    end = (mz, ez) /\ ez = d - 53 /\ Zpos mz = Zpos p * 2 ^ (53 - d))
    as (mz & ez & -> & -> & Hmz).
  { destruct (d - 53 - 0) as [|k|k] eqn:E; try lia.
    - exists p, 0. replace (53 - d) with 0 by lia. repeat split; lia.
    - exists (Pos.iter xO p k), (d - 53). rewrite pos_iter_xO.
      replace (53 - d) with (Zpos k) by lia. done. }
  assert (2 ^ 52 <= Zpos mz < 2 ^ 53) as Hmzb.
  { rewrite Hmz. pose proof (pow2_pos (53 - d) ltac:(lia)).
    replace (2 ^ 52) with (2 ^ (d - 1) * 2 ^ (53 - d))
      by (rewrite <- Z.pow_add_r by lia; f_equal; lia).
    replace (2 ^ 53) with (2 ^ d * 2 ^ (53 - d))
      by (rewrite <- Z.pow_add_r by lia; f_equal; lia).
    split; [apply Z.mul_le_mono_nonneg_r|apply Z.mul_lt_mono_pos_r]; lia. }
  assert (Zdigits2 (Zpos mz) = 53) as Hdz.
  { apply Zdigits2_unique; [lia|]. by change (53 - 1) with 52. }
  destruct (binary_round_aux_spec (Zpos mz) (d - 53) loc_Exact 53 ltac:(lia) Hdz
              ltac:(lia) ltac:(lia) ltac:(lia))
    as (m & e & m1 & -> & _ & Hcase & Hmb & Hexact).
  specialize (Hexact eq_refl eq_refl). subst m1.
  destruct Hcase as [[-> Hm]|[_ [Hm _]]]; [|lia].
  exists m. replace (d - 53 + (53 - 53)) with (d - 53) by lia.
  split; [done|]. split; [lia|done].
Qed.


Lemma div_eucl_div_mod a b : Z.div_eucl a b = (a / b, a mod b).
Proof. unfold Z.div, Z.modulo. by destruct (Z.div_eucl a b). Qed.

Lemma SFdiv_core_spec m1 e1 m2 e2 :
  Zdigits2 m1 = 53 -> Zdigits2 m2 = 53 -> -1021 <= e1 - e2 ->
  SFdiv_core_binary prec emax m1 e1 m2 e2
  = (m1 * 2 ^ 53 / m2, e1 - e2 - 53, new_location m2 (m1 * 2 ^ 53 mod m2)).
Proof.
  intros H1 H2 He. unfold SFdiv_core_binary. rewrite H1, H2.
  replace (53 + e1 - (53 + e2)) with (e1 - e2) by lia.
  rewrite fexp_normal by done. rewrite Z.min_l by lia.
  replace (e1 - e2 - (e1 - e2 - 53)) with 53 by lia.
  rewrite Z.shiftl_mul_pow2 by lia. by rewrite div_eucl_div_mod.
Qed.

Lemma Zdigits2_nat_le a t :
  (1 <= a <= t)%nat -> Z.of_nat t < 2 ^ 53 ->
  1 <= Zdigits2 (Z.of_nat a) <= Zdigits2 (Z.of_nat t)
  /\ Zdigits2 (Z.of_nat t) <= 53.
Proof.
  intros Ha Ht.
  pose proof (Zdigits2_bounds (Z.of_nat a) _ ltac:(lia) eq_refl) as [Hal Hah].
  pose proof (Zdigits2_bounds (Z.of_nat t) _ ltac:(lia) eq_refl) as [Htl Hth].
  set (da := Zdigits2 (Z.of_nat a)) in *. set (dt := Zdigits2 (Z.of_nat t)) in *.
  assert (0 < da).
  { subst da. destruct (Z.of_nat a) eqn:E; simpl; lia. }
  assert (0 < dt).
  { subst dt. destruct (Z.of_nat t) eqn:E; simpl; lia. }
  assert (da - 1 < dt) by (apply pow2_lt_inv; lia).
  assert (dt - 1 < 53) by (apply pow2_lt_inv; lia).
  lia.
Qed.

(** The quotient of two natural numbers: a 53-digit mantissa whose value
    is within one unit in the last place of the exact quotient.  Values
    are scaled by [2^200]. *)
Lemma truediv_spec a t :
  (1 <= a <= t)%nat -> Z.of_nat t < 2 ^ 53 ->
  exists m e, truediv a t = S754_finite false m e
    /\ 2 ^ 52 <= Zpos m < 2 ^ 53 /\ -105 <= e <= -51
    /\ Z.abs (Z.of_nat t * (Zpos m * 2 ^ (e + 200)) - Z.of_nat a * 2 ^ 200)
       <= Z.of_nat t * 2 ^ 149.
Proof.
  intros Hat Ht. destruct (Zdigits2_nat_le a t Hat Ht) as [Hda Hdt].
  set (da := Zdigits2 (Z.of_nat a)) in *. set (dt := Zdigits2 (Z.of_nat t)) in *.
  destruct (float_of_nat_spec a da ltac:(lia) eq_refl ltac:(lia))
    as (A & HA & HAv & HAb).
  destruct (float_of_nat_spec t dt ltac:(lia) eq_refl ltac:(lia))
    as (T & HT & HTv & HTb).
  unfold truediv. rewrite HA, HT. cbn [SFdiv].
  assert (Zdigits2 (Zpos A) = 53) as HdA
    by (apply Zdigits2_unique; [lia|by change (53 - 1) with 52]).
  assert (Zdigits2 (Zpos T) = 53) as HdT
    by (apply Zdigits2_unique; [lia|by change (53 - 1) with 52]).
  rewrite SFdiv_core_spec by (done || lia). cbn [xorb].
  set (q := Zpos A * 2 ^ 53 / Zpos T).
  set (e' := da - 53 - (dt - 53) - 53).
  assert (2 ^ 52 <= q < 2 ^ 54) as Hq.
  { subst q. change (2 ^ 52) with 4503599627370496 in *.
    change (2 ^ 53) with 9007199254740992 in *.
    change (2 ^ 54) with 18014398509481984. split.
    - apply Z.div_le_lower_bound; lia.
    - apply Z.div_lt_upper_bound; lia. }
  assert (exists n, (n = 0 \/ n = 1) /\ Zdigits2 q = 53 + n) as (n & Hn & Hdq).
  { destruct (Z_lt_ge_dec q (2 ^ 53)).
    - exists 0. split; [by left|]. apply Zdigits2_unique; [lia|].
      change (53 + 0 - 1) with 52. change (53 + 0) with 53. lia.
    - exists 1. split; [by right|]. apply Zdigits2_unique; [lia|].
      change (53 + 1 - 1) with 53. change (53 + 1) with 54. lia. }
  destruct (binary_round_aux_spec q e' (new_location (Zpos T) (Zpos A * 2 ^ 53 mod Zpos T))
              (53 + n) ltac:(change (2 ^ 52) with 4503599627370496 in Hq; lia)
              Hdq ltac:(lia) ltac:(subst e'; lia) ltac:(subst e'; lia))
    as (m & e & m1 & -> & Hm1 & Hcase & Hmb & _).
  replace (53 + n - 53) with n in * by lia.
  exists m, e. split; [done|]. split; [done|].
  assert (-105 <= e <= -51) as He by (subst e'; lia). split; [done|].
  (* the value as [m1 * 2^(e' + n)] *)
  assert (Zpos m * 2 ^ (e + 200) = m1 * 2 ^ (e' + n + 200)) as ->.
  { destruct Hcase as [[-> ->]|(-> & -> & ->)]; [done|].
    replace (e' + n + 1 + 200) with (1 + (e' + n + 200)) by lia.
    rewrite Z.pow_add_r by (subst e'; lia). change (2 ^ 1) with 2.
    change (2 ^ 53) with (2 * 2 ^ 52). lia. }
  (* the cut mantissa is the floor of the scaled quotient *)
  set (h := q / 2 ^ n) in *.
  assert (0 < 2 ^ n) as Hpn by (apply pow2_pos; lia).
  assert (h * (Zpos T * 2 ^ n) <= Zpos A * 2 ^ 53
          < (h + 1) * (Zpos T * 2 ^ n)) as Hh.
  { subst h q. rewrite Z.div_div by lia.
    assert (0 < Zpos T * 2 ^ n) as Hpos by lia.
    pose proof (Z.mul_div_le (Zpos A * 2 ^ 53) _ Hpos).
    pose proof (Z.mul_succ_div_gt (Zpos A * 2 ^ 53) _ Hpos). lia. }
  clearbody h. clear Hq Hdq q.
  (* back to [a] and [t] *)
  set (X := 2 ^ (da + 94)).
  assert (0 < X) as HX by (apply pow2_pos; lia).
  assert (Zpos T * 2 ^ n * X = Z.of_nat t * 2 ^ (e' + n + 200)) as HTX.
  { rewrite HTv. subst X e'.
    rewrite <- !Z.mul_assoc, <- !Z.pow_add_r by lia. do 2 f_equal. lia. }
  assert (Zpos A * 2 ^ 53 * X = Z.of_nat a * 2 ^ 200) as HAX.
  { rewrite HAv. subst X.
    rewrite <- !Z.mul_assoc, <- !Z.pow_add_r by lia. do 2 f_equal. lia. }
  assert (2 ^ (e' + n + 200) <= 2 ^ 149) as Hpow.
  { apply Z.pow_le_mono_r; [lia|]. subst e'. lia. }
  set (E := 2 ^ (e' + n + 200)) in *.
  assert (0 < E) as HE by (apply pow2_pos; subst e'; lia).
  assert (Z.abs (m1 * (Zpos T * 2 ^ n) - Zpos A * 2 ^ 53) <= Zpos T * 2 ^ n)
    as Habs by nia.
  assert (Z.abs (Z.of_nat t * (m1 * E) - Z.of_nat a * 2 ^ 200)
          = Z.abs (m1 * (Zpos T * 2 ^ n) - Zpos A * 2 ^ 53) * X) as ->.
  { rewrite <- HAX. replace (Z.of_nat t * (m1 * E)) with (m1 * (Z.of_nat t * E)) by lia.
    rewrite <- HTX. rewrite <- (Z.abs_eq X) at 3 by lia.
    rewrite <- Z.abs_mul. f_equal. lia. }
  etrans; [apply Z.mul_le_mono_nonneg_r; [lia|apply Habs]|].
  rewrite HTX. apply Z.mul_le_mono_nonneg_l; lia.
Qed.


Lemma float_of_nat_100 :
  float_of_nat 100 = S754_finite false 7036874417766400 (-46).
Proof. reflexivity. Qed.

(** The product with [100.0]: within one unit in the last place of the
    exact product, which is at most its [2^-52]th part. *)
Lemma times100_spec m e :
  2 ^ 52 <= Zpos m < 2 ^ 53 -> -105 <= e <= -51 ->
  exists m' e', times100 (S754_finite false m e) = S754_finite false m' e'
    /\ -100 <= e' < 0
    /\ 2 ^ 52 * Z.abs (Zpos m' * 2 ^ (e' + 200) - 100 * (Zpos m * 2 ^ (e + 200)))
       <= 100 * (Zpos m * 2 ^ (e + 200)).
Proof.
  intros Hm He. unfold times100. rewrite float_of_nat_100. cbn [SFmul xorb].
  set (M := Zpos (m * 7036874417766400)).
  assert (M = Zpos m * (100 * 2 ^ 46)) as HM by (subst M; lia).
  assert (2 ^ 104 <= M < 2 ^ 106) as HMb.
  { rewrite HM. change (2 ^ 52) with 4503599627370496 in *.
    change (2 ^ 53) with 9007199254740992 in *.
    change (2 ^ 46) with 70368744177664.
    change (2 ^ 104) with 20282409603651670423947251286016.
    change (2 ^ 106) with 81129638414606681695789005144064. lia. }
  assert (exists n, (n = 52 \/ n = 53) /\ Zdigits2 M = 53 + n) as (n & Hn & HdM).
  { destruct (Z_lt_ge_dec M (2 ^ 105)).
    - exists 52. split; [by left|]. apply Zdigits2_unique; [lia|].
      change (53 + 52 - 1) with 104. change (53 + 52) with 105. lia.
    - exists 53. split; [by right|]. apply Zdigits2_unique; [lia|].
      change (53 + 53 - 1) with 105. change (53 + 53) with 106. lia. }
  assert (0 < M) as HMpos by (subst M; lia).
  destruct (binary_round_aux_spec M (e + -46) loc_Exact (53 + n) HMpos HdM
              ltac:(lia) ltac:(lia) ltac:(lia))
    as (m' & e' & m1 & -> & Hm1 & Hcase & Hmb & _).
  replace (53 + n - 53) with n in * by lia.
  exists m', e'. split; [done|]. split; [lia|].
  assert (Zpos m' * 2 ^ (e' + 200) = m1 * 2 ^ (e + -46 + n + 200)) as ->.
  { destruct Hcase as [[-> ->]|(-> & -> & ->)]; [done|].
    replace (e + -46 + n + 1 + 200) with (1 + (e + -46 + n + 200)) by lia.
    rewrite Z.pow_add_r by lia. change (2 ^ 1) with 2.
    change (2 ^ 53) with (2 * 2 ^ 52). lia. }
  set (h := M / 2 ^ n) in *.
  assert (0 < 2 ^ n) as Hpn by (apply pow2_pos; lia).
  assert (h * 2 ^ n <= M < (h + 1) * 2 ^ n) as Hh.
  { subst h. pose proof (Z.mul_div_le M _ Hpn).
    pose proof (Z.mul_succ_div_gt M _ Hpn). lia. }
  assert (2 ^ 52 * 2 ^ n <= M) as Hlow.
  { pose proof (Zdigits2_bounds M _ HMpos HdM) as [Hl _].
    replace (53 + n - 1) with (52 + n) in Hl by lia.
    by rewrite Z.pow_add_r in Hl by lia. }
  clearbody h.
  set (X := 2 ^ (e + 154)).
  assert (0 < X) as HX by (apply pow2_pos; lia).
  assert (2 ^ (e + -46 + n + 200) = 2 ^ n * X) as ->.
  { subst X. rewrite <- Z.pow_add_r by lia. f_equal. lia. }
  assert (100 * (Zpos m * 2 ^ (e + 200)) = M * X) as ->.
  { rewrite HM. subst X. replace (e + 200) with (46 + (e + 154)) by lia.
    rewrite Z.pow_add_r by lia. lia. }
  assert (Z.abs (m1 * (2 ^ n * X) - M * X) = Z.abs (m1 * 2 ^ n - M) * X) as ->.
  { rewrite <- (Z.abs_eq X) at 3 by lia. rewrite <- Z.abs_mul. f_equal. lia. }
  assert (Z.abs (m1 * 2 ^ n - M) <= 2 ^ n) as Habs by nia.
  rewrite Z.mul_assoc. apply Z.mul_le_mono_nonneg_r; [lia|].
  etrans; [apply Z.mul_le_mono_nonneg_l; [lia|apply Habs]|]. done.
Qed.

Lemma trunc_spec m e :
  -200 <= e < 0 ->
  trunc (S754_finite false m e) = Zpos m * 2 ^ (e + 200) / 2 ^ 200.
Proof.
  intros He. unfold trunc. destruct e as [|k|k]; try lia.
  rewrite Z.shiftr_div_pow2 by lia.
  replace (2 ^ 200) with (2 ^ Zpos k * 2 ^ (Zneg k + 200))
    by (rewrite <- Z.pow_add_r by lia; f_equal; lia).
  rewrite Z.div_mul_cancel_r; [done| |].
  - pose proof (pow2_pos (Zpos k)); lia.
  - pose proof (pow2_pos (Zneg k + 200)); lia.
Qed.

(** The progress value as the integer part of a scaled [v] close to
    [100 * a / t]. *)
Lemma percent_spec a t :
  (1 <= a <= t)%nat -> Z.of_nat t < 2 ^ 53 ->
  exists v, percent a t = v / 2 ^ 200
    /\ Z.abs (Z.of_nat t * v - 100 * Z.of_nat a * 2 ^ 200)
       <= Z.of_nat t * 2 ^ 157.
Proof.
  intros Hat Ht. destruct (truediv_spec a t Hat Ht) as (m & e & HF & Hm & He & HFv).
  destruct (times100_spec m e Hm He) as (m' & e' & HG & He' & HGv).
  unfold percent. rewrite HF, HG, trunc_spec by lia.
  set (VF := Zpos m * 2 ^ (e + 200)) in *.
  set (VG := Zpos m' * 2 ^ (e' + 200)) in *.
  exists VG. split; [done|]. clearbody VF VG.
  change (2 ^ 52) with 4503599627370496 in *.
  change (2 ^ 149) with 713623846352979940529142984724747568191373312 in *.
  change (2 ^ 157)
    with 182687704666362864775460604089535377456991567872.
  change (2 ^ 200)
    with 1606938044258990275541962092341162602522202993782792835301376 in *.
  nia.
Qed.


Lemma percent_mono (a b total : nat) :
  (1 <= a)%nat -> (a <= b)%nat -> (b <= total)%nat ->
  Z.of_nat total < 2 ^ 48 ->
  percent a total <= percent b total.
Proof.
  intros Ha Hab Hb Ht.
  destruct (Nat.eq_dec a b) as [->|Hne]; [lia|].
  assert (Z.of_nat total < 2 ^ 53) as Ht53.
  { change (2 ^ 48) with 281474976710656 in Ht.
    change (2 ^ 53) with 9007199254740992. lia. }
  destruct (percent_spec a total ltac:(lia) Ht53) as (va & -> & Hva).
  destruct (percent_spec b total ltac:(lia) Ht53) as (vb & -> & Hvb).
  apply Z.div_le_mono; [by apply pow2_pos|].
  change (2 ^ 48) with 281474976710656 in *.
  change (2 ^ 157)
    with 182687704666362864775460604089535377456991567872 in *.
  change (2 ^ 200)
    with 1606938044258990275541962092341162602522202993782792835301376 in *.
  nia.
Qed.

Lemma percent_full (a total : nat) :
  (1 <= a)%nat -> (a < total)%nat -> Z.of_nat total < 2 ^ 48 ->
  percent a total < 100.
Proof.
  intros Ha Hat Ht.
  assert (Z.of_nat total < 2 ^ 53) as Ht53.
  { change (2 ^ 48) with 281474976710656 in Ht.
    change (2 ^ 53) with 9007199254740992. lia. }
  destruct (percent_spec a total ltac:(lia) Ht53) as (va & -> & Hva).
  apply Z.div_lt_upper_bound; [by apply pow2_pos|].
  change (2 ^ 48) with 281474976710656 in *.
  change (2 ^ 157)
    with 182687704666362864775460604089535377456991567872 in *.
  change (2 ^ 200)
    with 1606938044258990275541962092341162602522202993782792835301376 in *.
  nia.
Qed.


End FloatFacts.

Module RunFacts3.
Import FS Lib PathStr CopyWorker Spec Progress FSFacts RelFacts LibFacts MergeFacts CopyFacts RunFacts RunFacts2 FloatFacts.

Lemma progress_values_cons e evs :
  progress_values (e :: evs) =
  match e with progress v => v :: progress_values evs | _ => progress_values evs end.
Proof. by destruct e. Qed.

Lemma run_from_progress S D total i rest t evs t' :
  i + length rest = total → (Z.of_nat total < 2 ^ 48)%Z →
  run_from S D total i rest t = (evs, t') →
  Forall (λ v, ∃ j : nat, (i ≤ j)%nat ∧ (j < total)%nat ∧ v = percent (j + 1) total)
    (progress_values evs)
  ∧ StronglySorted Z.le (progress_values evs)
  ∧ (100%Z ∈ progress_values evs → succeeded evs = true)
  ∧ (∀ j v, evs !! j = Some (progress v) →
       (i + j < total)%nat ∧ v = percent (i + j + 1) total).
Proof.
  intros Hlen Hbound. revert i t evs Hlen.
  induction rest as [|p rest IH]; intros i t evs Hlen.
  - intros [= <- <-]. simpl. split; [constructor|]. split; [constructor|].
    split; [by intros ?%elem_of_nil|]. intros [|[|j]] v; done.
  - rewrite run_from_cons. cbn zeta. simpl in Hlen.
    assert (∀ evs1 t1, run_from S D total (Datatypes.S i) rest t1 = (evs1, t') →
      Forall (λ v, ∃ j : nat, (i ≤ j)%nat ∧ (j < total)%nat ∧ v = percent (j + 1) total)
        (progress_values evs1)
      ∧ StronglySorted Z.le (progress_values evs1)
      ∧ (100%Z ∈ progress_values evs1 → succeeded evs1 = true)
      ∧ (∀ j v, evs1 !! j = Some (progress v) →
           (i + Datatypes.S j < total)%nat
           ∧ v = percent (i + Datatypes.S j + 1) total)
      ∧ Forall (λ v, percent (i + 1) total ≤ v)%Z (progress_values evs1)
      ∧ evs1 ≠ []) as Hrest.
    { intros evs1 t1 Hr. destruct (IH (Datatypes.S i) _ _ ltac:(lia) Hr) as (A & B & C & E).
      split; [|split; [done|split; [done|split]]].
      - eapply Forall_impl; [done|]. intros v (j & ? & ? & ?). exists j.
        repeat split; [lia|done..].
      - intros j v Hj. destruct (E _ _ Hj) as [Hlt ->].
        split; [lia|]. f_equal. lia.
      - split; [|by eapply run_from_nonempty].
        eapply Forall_impl; [done|]. intros v (j & ? & ? & ->).
        apply percent_mono; [lia..|done]. }
    destruct (node_at t _) as [s|].
    + destruct (copy_one s _ _ t) as [t1 [e|]].
      { intros [= <- <-]. simpl. split; [constructor|]. split; [constructor|].
        split; [by intros ?%elem_of_nil|]. intros [|[|[|j]]] v; done. }
      destruct (run_from S D total (Datatypes.S i) rest t1) as [evs1 t2] eqn:Hr.
      intros [= <- <-]. destruct (Hrest _ _ Hr) as (A & B & C & E & G & Hne).
      rewrite progress_values_cons. split; [|split; [|split]].
      * constructor; [|done]. exists i. repeat split; [lia..].
      * by constructor.
      * rewrite succeeded_cons by done.
        intros [H100|Hin]%elem_of_cons; [|by apply C].
        destruct rest as [|p' rest'].
        -- by injection Hr as <- <-.
        -- exfalso. simpl in Hlen.
           pose proof (percent_full (i + 1) total ltac:(lia) ltac:(lia) Hbound). lia.
      * intros [|j] v; simpl; [intros [= <-]; split; [lia|f_equal; lia]|].
        apply E.
    + destruct (run_from S D total (Datatypes.S i) rest t) as [evs1 t2] eqn:Hr.
      intros [= <- <-]. destruct (Hrest _ _ Hr) as (A & B & C & E & G & Hne).
      rewrite progress_values_cons. split; [done|split; [done|split]].
      * by rewrite succeeded_cons.
      * intros [|j] v; simpl; [done|]. apply E.
Qed.


End RunFacts3.

(** * The slot store and the tree *)

Module SlotFacts.
Import FS Lib PathStr CopyWorker Spec Slots FSFacts RelFacts.

(** An update of an entry of a directory goes through when [f] accepts
    what is there. *)
Lemma update_at_entry f d n t x :
  is_dir t d = true → f (node_at t (d ++ [n])) = inl x →
  ∃ t', update_at f (d ++ [n]) t = inl t'.
Proof.
  unfold is_dir. revert t. induction d as [|m d IH]; intros t; simpl.
  - destruct t as [|es]; [done|]. intros _.
    destruct (assoc n es) as [c|]; simpl; intros ->; eauto.
  - destruct t as [|es]; [done|]. destruct (assoc m es) as [c|]; [|done].
    intros Hd Hf. destruct (IH _ Hd Hf) as [c' ->]. eauto.
Qed.

Lemma write_file_entry t d n data :
  is_dir t d = true → is_dir t (d ++ [n]) = false →
  ∃ t', write_file t (d ++ [n]) data = inl t'.
Proof.
  intros Hd Hn. unfold write_file.
  destruct (update_at_entry (write_entry data) d n t (File data) Hd) as [t' ->];
    [|by eauto].
  unfold is_dir in Hn. by destruct (node_at t (d ++ [n])) as [[|]|].
Qed.

Lemma read_file_written t p data t' :
  write_file t p data = inl t' → read_file t' p = inl data.
Proof.
  intros H. unfold read_file. by destruct (write_file_here _ _ _ _ H) as [_ ->].
Qed.

Lemma dict_get_None key members :
  dict_get key members = None ↔ key ∉ members.*1.
Proof.
  induction members as [|[k v] r IH]; simpl.
  - split; [by intros _ ?%elem_of_nil|done].
  - destruct (dict_get key r) as [x|].
    + split; [done|]. intros Hn. destruct IH as [_ IH].
      discriminate IH. intros Hin. apply Hn. by right.
    + destruct (String.eqb k key) eqn:E.
      * apply String.eqb_eq in E. subst. split; [done|].
        intros Hn. destruct Hn. by left.
      * apply String.eqb_neq in E. split; [|done]. intros _.
        intros [->|Hin]%elem_of_cons; [done|]. by apply IH.
Qed.

End SlotFacts.

Module SlotFacts2.
Import FS Lib PathStr CopyWorker Spec Slots FSFacts RelFacts SlotFacts.

Section Sorting.
Context {A : Type} (key : A → Z).

Lemma insert_desc_perm x l : insert_desc key x l ≡ₚ x :: l.
Proof.
  induction l as [|y r IH]; simpl; [done|].
  destruct (key y <=? key x)%Z; [done|]. rewrite IH. apply perm_swap.
Qed.

Lemma sorted_reverse_perm l : sorted_reverse key l ≡ₚ l.
Proof.
  induction l as [|x l IH]; simpl; [done|].
  rewrite insert_desc_perm. by constructor.
Qed.

Lemma insert_desc_sorted x l :
  StronglySorted (newer_first key) l → StronglySorted (newer_first key) (insert_desc key x l).
Proof.
  induction 1 as [|y r Hr IH Hy]; simpl; [by repeat constructor|].
  destruct (key y <=? key x)%Z eqn:E.
  - apply Z.leb_le in E. constructor; [by constructor|].
    constructor; [done|]. eapply Forall_impl; [done|].
    unfold newer_first. intros; lia.
  - apply Z.leb_gt in E. constructor; [done|].
    rewrite insert_desc_perm. constructor; [|done]. unfold newer_first. lia.
Qed.

Lemma sorted_reverse_sorted l : StronglySorted (newer_first key) (sorted_reverse key l).
Proof.
  induction l as [|x l IH]; simpl; [constructor|]. by apply insert_desc_sorted.
Qed.

End Sorting.


Section Store.
Variable json_load : bytes → option json.
Variable json_dump : json → bytes.
Variable st_mtime : path → Z.
Variable strftime : Z → option string.
Variable size_str : nat → string.
Variable QTableWidgetItem : json → option string.

Abbreviation get_save_mode := (get_save_mode json_load).
Abbreviation save_metadata := (save_metadata json_dump).
Abbreviation refresh_saves :=
  (refresh_saves json_load st_mtime strftime size_str QTableWidgetItem).
Abbreviation entry_row :=
  (entry_row json_load st_mtime strftime size_str QTableWidgetItem).
Abbreviation entry_logged :=
  (entry_logged json_load st_mtime strftime size_str QTableWidgetItem).



Abbreviation new_slot := (new_slot json_dump).




End Store.

End SlotFacts2.

Module TreeFacts.
Import Tree Spec.

Lemma recurse_item st d cs :
  recurse (Item st d cs) = collected (Item st d cs) ++ flat_map recurse cs.
Proof. reflexivity. Qed.

Lemma preorder_item st d cs :
  preorder (Item st d cs) = Item st d cs :: flat_map preorder cs.
Proof. reflexivity. Qed.

Lemma item_ind2 (P : item → Prop) :
  (∀ st d cs, Forall P cs → P (Item st d cs)) → ∀ i, P i.
Proof.
  intros H. fix IH 1. intros [st d cs]. apply H.
  induction cs as [|c r IHr]; constructor; [apply IH|apply IHr].
Qed.

Lemma recurse_preorder i : recurse i = flat_map collected (preorder i).
Proof.
  induction i as [st d cs IH] using item_ind2.
  rewrite recurse_item, preorder_item. cbn [flat_map]. f_equal.
  induction IH as [|c r Hc _ IHr]; simpl; [done|].
  by rewrite flat_map_app, Hc, IHr.
Qed.

End TreeFacts.

(** * More about the loop of [run] *)

Module RunFacts4.
Import FS Lib PathStr CopyWorker Spec Progress Props.
Import FSFacts RelFacts LibFacts MergeFacts CopyFacts RunFacts RunFacts2 FloatFacts RunFacts3.

Section Run.
Variables (S D : path) (total : nat).
Hypothesis apart : disjoint S D.

(** A run that succeeds has put every source file below a listed path at
    its place below the destination. *)
Lemma run_from_copied s0 i rest t evs t' p q x :
  wf s0 = true → node_at t S = Some s0 →
  Forall (λ p, plain p = true) rest →
  run_from S D total i rest t = (evs, t') → succeeded evs = true →
  p ∈ rest →
  node_at s0 (parts (rstrip_slash p) ++ q) = Some (File x) →
  is_dir t (D ++ parts (rstrip_slash p) ++ q) = false →
  node_at t' (D ++ parts (rstrip_slash p) ++ q) = Some (File x).
Proof.
  intros Hw0 HS Hpl Hr Hok Hin Hq Hnd.
  set (c := parts (rstrip_slash p)) in *.
  pose proof (proj1 (Forall_forall _ _) Hpl _ Hin) as Hp.
  destruct (node_at s0 c) as [s|] eqn:Hsrc;
    [|by rewrite node_at_app, Hsrc in Hq].
  assert (node_at s q = Some (File x)) as Hsq.
  { by rewrite node_at_app, Hsrc in Hq. }
  destruct (run_from_reaches _ _ _ apart _ _ _ _ _ _ p _ Hw0 HS Hpl Hr Hok Hin Hsrc)
    as (t1 & t2 & M1 & HS1 & Hc & M2).
  rewrite !plain_joinpath in Hc by done. fold c in Hc.
  pose proof (wf_node_at _ _ _ Hw0 Hsrc) as Hws.
  pose proof (copy_one_copied _ _ _ _ _ Hws Hc _ _ Hsq) as Ht2.
  assert (is_dir t1 ((D ++ c) ++ q) = false) as Hnd1.
  { destruct (is_dir t1 ((D ++ c) ++ q)) eqn:E; [|done].
    rewrite <- app_assoc in E.
    destruct (merged_dirs _ _ _ _ _ M1 _ E) as [H|[es H]]; [congruence|].
    congruence. }
  unfold target in Ht2. rewrite Hnd1 in Ht2.
  destruct M2 as [_ K Mf _].
  specialize (K ((D ++ c) ++ q)). rewrite Ht2 in K.
  destruct K as [z Hz]. rewrite <- app_assoc in Hz, Ht2. rewrite Hz.
  f_equal. f_equal.
  destruct (Mf _ _ Hz) as [H|[H|(q' & n & Heq & Hl & Hs & Hdir)]].
  - congruence.
  - congruence.
  - rewrite Heq, node_at_app, Hs in Hq. done.
Qed.

(** The source of a path that got its progress report was there at the
    start. *)
Lemma run_from_progress_source i rest t evs t' :
  (∀ s0, node_at t S = Some s0 → wf s0 = true) →
  Forall (λ p, plain p = true) rest →
  run_from S D total i rest t = (evs, t') →
  ∀ j v, evs !! j = Some (progress v) →
    ∃ p, rest !! j = Some p
      ∧ path_exists t (joinpath S (rstrip_slash p)) = true.
Proof.
  revert i t evs. induction rest as [|p rest IH]; intros i t evs Hw Hpl.
  - intros [= <- <-] [|[|j]] v; done.
  - apply Forall_cons in Hpl as [Hp Hpl]. rewrite run_from_cons. cbn zeta.
    destruct (node_at t (joinpath S (rstrip_slash p))) as [s|] eqn:Hs.
    + destruct (copy_one s _ _ t) as [t1 [e|]] eqn:Hc.
      { intros [= <- <-] [|[|[|j]]] v; done. }
      destruct (run_from S D total (Datatypes.S i) rest t1) as [evs1 t2] eqn:Hr.
      intros [= <- <-] [|j] v; simpl.
      * intros _. exists p. split; [done|]. unfold path_exists. by rewrite Hs.
      * intros Hj.
        assert (∃ s0, node_at t S = Some s0) as [s0 HS].
        { rewrite plain_joinpath, node_at_app in Hs by done.
          destruct (node_at t S); [eauto|done]. }
        destruct (step_merged _ _ apart _ _ _ _ _ _ (Hw _ HS) HS Hp Hs Hc)
          as (_ & _ & HS1 & _).
        destruct (IH _ _ _ ltac:(intros s1 H1; rewrite HS1 in H1;
                                 injection H1 as <-; eauto) Hpl Hr _ _ Hj)
          as (p' & Hp' & He).
        exists p'. split; [done|].
        pose proof (proj1 (Forall_lookup _ _) Hpl _ _ Hp') as Hpp.
        unfold path_exists in *.
        rewrite plain_joinpath, node_at_app in * by done.
        by rewrite HS1 in He; rewrite HS.
    + destruct (run_from S D total (Datatypes.S i) rest t) as [evs1 t2] eqn:Hr.
      intros [= <- <-] [|j] v; simpl; [done|].
      intros Hj. by apply (IH _ _ _ Hw Hpl Hr _ _ Hj).
Qed.

End Run.

(** The events of [run_from]: reports and warnings, then [finished
    true], or then the error of a listed path and [finished false]. *)
Lemma run_from_events S D total i rest t evs t' :
  run_from S D total i rest t = (evs, t') →
  ∃ body, Forall quiet body ∧ (length body ≤ length rest)%nat ∧
    (evs = body ++ [finished true] ∧ length body = length rest
     ∨ ∃ p e, evs = body ++ [error p e; finished false]
         ∧ rest !! length body = Some p).
Proof.
  revert i t evs. induction rest as [|p rest IH]; intros i t evs.
  - intros [= <- <-]. exists []. split; [constructor|]. split; [done|].
    by left.
  - rewrite run_from_cons. cbn zeta.
    destruct (node_at t _) as [s|].
    + destruct (copy_one s _ _ t) as [t1 [e|]].
      { intros [= <- <-]. exists []. split; [constructor|].
        split; [simpl; lia|]. right. by exists p, e. }
      destruct (run_from S D total (Datatypes.S i) rest t1) as [evs1 t2] eqn:Hr.
      intros [= <- <-]. destruct (IH _ _ _ Hr) as (body & Hq & Hl & H).
      exists (progress (percent (i + 1) total) :: body).
      split; [by constructor|]. split; [simpl; lia|].
      destruct H as [[-> Hlen]|(p' & e & -> & Hp')].
      * left. split; [done|]. simpl. lia.
      * right. by exists p', e.
    + destruct (run_from S D total (Datatypes.S i) rest t) as [evs1 t2] eqn:Hr.
      intros [= <- <-]. destruct (IH _ _ _ Hr) as (body & Hq & Hl & H).
      exists (warning (joinpath S (rstrip_slash p)) :: body).
      split; [by constructor|]. split; [simpl; lia|].
      destruct H as [[-> Hlen]|(p' & e & -> & Hp')].
      * left. split; [done|]. simpl. lia.
      * right. by exists p', e.
Qed.

(** A backup followed, whatever happens to the game files, by a load. *)
Lemma backup_then_load (game slot : path) (cfg : list string)
    (n1 n2 : nat) (t t1 t2 t3 : node) (evs1 evs2 : list event)
    (p : string) (q : path) (x : bytes) :
  disjoint game slot →
  Forall (λ p, plain p = true) cfg →
  wf t = true → wf t2 = true →
  run_from game slot n1 0 cfg t = (evs1, t1) → succeeded evs1 = true →
  node_at t2 slot = node_at t1 slot →
  run_from slot game n2 0 cfg t2 = (evs2, t3) → succeeded evs2 = true →
  p ∈ cfg →
  node_at t (game ++ parts (rstrip_slash p) ++ q) = Some (File x) →
  is_dir t (slot ++ parts (rstrip_slash p) ++ q) = false →
  is_dir t2 (game ++ parts (rstrip_slash p) ++ q) = false →
  node_at t3 (game ++ parts (rstrip_slash p) ++ q) = Some (File x).
Proof.
  intros Hd Hpl Hw Hw2 Hr1 Hok1 Hslot Hr2 Hok2 Hin Hq Hnd Hnd2.
  destruct (node_at t game) as [s0|] eqn:HS;
    [|by rewrite node_at_app, HS in Hq].
  rewrite node_at_app, HS in Hq. simpl in Hq.
  pose proof (wf_node_at _ _ _ Hw HS) as Hw0.
  pose proof (run_from_copied game slot n1 Hd s0 0 cfg t evs1 t1 p q x
                Hw0 HS Hpl Hr1 Hok1 Hin Hq Hnd) as H1.
  rewrite node_at_app, <- Hslot in H1.
  destruct (node_at t2 slot) as [s1|] eqn:HS2; [|done]. simpl in H1.
  assert (disjoint slot game) as Hd' by (destruct Hd; by split).
  pose proof (wf_node_at _ _ _ Hw2 HS2) as Hw1.
  apply (run_from_copied slot game n2 Hd' s1 0 cfg t2 evs2 t3 p q x
           Hw1 HS2 Hpl Hr2 Hok2 Hin H1 Hnd2).
Qed.

(** The same for [run]. *)
Lemma run_copied (w : worker) (t : node) (p : string) (q : path) (x : bytes) :
  disjoint (source_base w) (dest_base w) →
  Forall (λ p, plain p = true) (paths w) →
  wf t = true →
  p ∈ paths w →
  succeeded (run w t).1 = true →
  node_at t (source_base w ++ parts (rstrip_slash p) ++ q) = Some (File x) →
  is_dir t (dest_base w ++ parts (rstrip_slash p) ++ q) = false →
  node_at (run w t).2 (dest_base w ++ parts (rstrip_slash p) ++ q)
  = Some (File x).
Proof.
  intros Hd Hpl Hw Hin. unfold run.
  destruct (run_from _ _ _ _ _ t) as [evs t'] eqn:Hr. simpl.
  intros Hok Hq Hnd.
  destruct (node_at t (source_base w)) as [s0|] eqn:HS;
    [|by rewrite node_at_app, HS in Hq].
  rewrite node_at_app, HS in Hq. simpl in Hq.
  pose proof (wf_node_at _ _ _ Hw HS) as Hw0.
  apply (run_from_copied _ _ _ Hd s0 _ _ _ _ _ _ _ _ Hw0 HS Hpl Hr Hok Hin Hq Hnd).
Qed.

(** The source of a path that got a warning was missing at the start. *)
Lemma run_from_warning_source S D total i rest t evs t' :
  disjoint S D →
  (∀ s0, node_at t S = Some s0 → wf s0 = true) →
  Forall (λ p, plain p = true) rest →
  run_from S D total i rest t = (evs, t') →
  ∀ src, warning src ∈ evs →
    ∃ p, p ∈ rest ∧ src = joinpath S (rstrip_slash p)
      ∧ path_exists t src = false.
Proof.
  intros apart. revert i t evs. induction rest as [|p rest IH]; intros i t evs Hw Hpl.
  - intros [= <- <-] src Hin. apply list_elem_of_singleton in Hin. done.
  - apply Forall_cons in Hpl as [Hp Hpl]. rewrite run_from_cons. cbn zeta.
    destruct (node_at t (joinpath S (rstrip_slash p))) as [s|] eqn:Hs.
    + destruct (copy_one s _ _ t) as [t1 [e|]] eqn:Hc.
      { intros [= <- <-] src Hin.
        apply elem_of_cons in Hin as [?|Hin]; [done|].
        by apply list_elem_of_singleton in Hin. }
      destruct (run_from S D total (Datatypes.S i) rest t1) as [evs1 t2] eqn:Hr.
      intros [= <- <-] src Hin.
      apply elem_of_cons in Hin as [?|Hin]; [done|].
      assert (∃ s0, node_at t S = Some s0) as [s0 HS].
      { rewrite plain_joinpath, node_at_app in Hs by done.
        destruct (node_at t S); [eauto|done]. }
      destruct (step_merged _ _ apart _ _ _ _ _ _ (Hw _ HS) HS Hp Hs Hc)
        as (_ & _ & HS1 & _).
      destruct (IH _ _ _ ltac:(intros s1 H1; rewrite HS1 in H1;
                               injection H1 as <-; eauto) Hpl Hr _ Hin)
        as (p' & Hp' & -> & He).
      exists p'. split; [by constructor|]. split; [done|].
      pose proof (proj1 (Forall_forall _ _) Hpl _ Hp') as Hpp.
      unfold path_exists in *.
      rewrite plain_joinpath, node_at_app in * by done.
      by rewrite HS1 in He; rewrite HS.
    + destruct (run_from S D total (Datatypes.S i) rest t) as [evs1 t2] eqn:Hr.
      intros [= <- <-] src Hin.
      apply elem_of_cons in Hin as [[= ->]|Hin].
      * exists p. split; [constructor|]. split; [done|].
        unfold path_exists. by rewrite Hs.
      * destruct (IH _ _ _ Hw Hpl Hr _ Hin) as (p' & Hp' & -> & He).
        exists p'. split; [by constructor|]. done.
Qed.

End RunFacts4.

(** * The delete worker *)

Module DeleteFacts.
Import FS Lib PathStr Slots Spec DeleteWorker.
Import FSFacts RelFacts SlotFacts SlotFacts2.

Lemma del_entry_filter n (es : list (string * node)) :
  del_entry n es = filter (λ e, e.1 ≠ n) es.
Proof.
  induction es as [|[m x] es IH]; [done|]. simpl.
  destruct (String.eqb_spec n m) as [->|Hne].
  - by rewrite filter_cons_False by (simpl; tauto).
  - rewrite filter_cons_True by (simpl; congruence). by rewrite IH.
Qed.

Lemma assoc_del_entry_eq n es : assoc n (del_entry n es) = None.
Proof.
  induction es as [|[m x] es IH]; [done|]. simpl.
  destruct (String.eqb_spec n m) as [->|Hne]; [done|].
  simpl. by destruct (String.eqb_spec n m).
Qed.

Lemma assoc_del_entry_ne n m es :
  n ≠ m → assoc m (del_entry n es) = assoc m es.
Proof.
  intros Hne. induction es as [|[k x] es IH]; [done|]. simpl.
  destruct (String.eqb_spec n k) as [->|Hnk].
  - by destruct (String.eqb_spec m k); [congruence|].
  - simpl. by destruct (String.eqb_spec m k).
Qed.

(** [rmtree_at] succeeds on directories, and only there. *)
Lemma rmtree_at_dir n q t :
  is_dir t (n :: q) = true → ∃ t', rmtree_at n q t = inl t'.
Proof.
  revert n t. induction q as [|m r IH]; intros n t; unfold is_dir; simpl.
  - destruct t as [|es]; [done|]. destruct (assoc n es) as [[|c]|]; try done.
    eauto.
  - destruct t as [|es]; [done|]. destruct (assoc n es) as [c|]; [|done].
    intros H. destruct (IH m c) as [c' ->]; [done|]. eauto.
Qed.

Lemma rmtree_at_inl n q t t' :
  rmtree_at n q t = inl t' → is_dir t (n :: q) = true.
Proof.
  revert n t t'. induction q as [|m r IH]; intros n t t'; unfold is_dir; simpl.
  - destruct t as [|es]; [done|]. by destruct (assoc n es) as [[|c]|].
  - destruct t as [|es]; [done|]. destruct (assoc n es) as [c|]; [|done].
    destruct (rmtree_at m r c) as [c'|] eqn:E; [|done]. intros _.
    by apply (IH _ _ _ E).
Qed.

Lemma rmtree_at_inr n q t e :
  rmtree_at n q t = inr e → e = ENOENT ∨ e = ENOTDIR.
Proof.
  revert n t. induction q as [|m r IH]; intros n t; simpl.
  - destruct t as [|es]; [by intros [= <-]; right|].
    destruct (assoc n es) as [[|c]|]; intros [= <-]; eauto.
  - destruct t as [|es]; [by intros [= <-]; right|].
    destruct (assoc n es) as [c|]; [|by intros [= <-]; left].
    destruct (rmtree_at m r c) as [c'|e'] eqn:E; [done|].
    intros [= <-]. by eapply IH.
Qed.

(** What is left after [rmtree_at]: nothing at the path, the parent
    without the entry, and the same node at every path that is neither
    above nor below. *)
Lemma rmtree_at_gone n q t t' :
  rmtree_at n q t = inl t' → ∀ r, node_at t' ((n :: q) ++ r) = None.
Proof.
  revert n t t'. induction q as [|m k IH]; intros n t t'; simpl.
  - destruct t as [|es]; [done|]. destruct (assoc n es) as [[|c]|]; try done.
    intros [= <-] r. simpl. by rewrite assoc_del_entry_eq.
  - destruct t as [|es]; [done|]. destruct (assoc n es) as [c|]; [|done].
    destruct (rmtree_at m k c) as [c'|] eqn:E; [|done].
    intros [= <-] r. simpl. rewrite assoc_set_entry_eq.
    apply (IH _ _ _ E r).
Qed.

Lemma rmtree_at_beside n q t t' p :
  rmtree_at n q t = inl t' →
  ¬ (n :: q) `prefix_of` p → ¬ p `prefix_of` (n :: q) →
  node_at t' p = node_at t p.
Proof.
  revert n t t' p. induction q as [|m k IH]; intros n t t' p; simpl.
  - destruct t as [|es]; [done|]. destruct (assoc n es) as [[|c]|] eqn:Ha; try done.
    intros [= <-] H1 H2. destruct p as [|a p]; [by destruct H2; apply prefix_nil|].
    simpl. destruct (decide (n = a)) as [->|Hne].
    + destruct H1. by apply prefix_cons, prefix_nil.
    + by rewrite assoc_del_entry_ne.
  - destruct t as [|es]; [done|]. destruct (assoc n es) as [c|] eqn:Ha; [|done].
    destruct (rmtree_at m k c) as [c'|] eqn:E; [|done].
    intros [= <-] H1 H2. destruct p as [|a p]; [by destruct H2; apply prefix_nil|].
    simpl. destruct (decide (n = a)) as [->|Hne].
    + rewrite assoc_set_entry_eq, Ha. apply (IH _ _ _ _ E).
      * intros H. apply H1. by apply prefix_cons.
      * intros H. apply H2. by apply prefix_cons.
    + by rewrite assoc_set_entry_ne.
Qed.

Lemma rmtree_at_parent d n t t' es :
  rmtree_at (hd n (d ++ [n])) (tl (d ++ [n])) t = inl t' →
  node_at t d = Some (Dir es) →
  node_at t' d = Some (Dir (del_entry n es)).
Proof.
  revert t t'. induction d as [|m d IH]; intros t t'; simpl.
  - destruct t as [|es0]; [done|].
    destruct (assoc n es0) as [[|c]|]; try done.
    by intros [= <-] [= ->].
  - destruct t as [|es0]; [by destruct (d ++ [n])|].
    destruct (assoc m es0) as [c|] eqn:Ha; [|by destruct (d ++ [n])].
    destruct (d ++ [n]) as [|a r] eqn:Ed; [by destruct d|].
    simpl. rewrite Ha.
    destruct (rmtree_at a r c) as [c'|] eqn:E; [|done].
    intros [= <-] Hd. rewrite assoc_set_entry_eq.
    by apply (IH c).
Qed.

Lemma rmtree_at_above n q t t' p :
  rmtree_at n q t = inl t' → p `prefix_of` (n :: q) → p ≠ n :: q →
  is_dir t' p = true.
Proof.
  revert n t t' p. induction q as [|m k IH]; intros n t t' p; simpl.
  - destruct t as [|es]; [done|]. destruct (assoc n es) as [[|c]|]; try done.
    intros [= <-] [r Hr] Hne. destruct p as [|a p]; [done|].
    injection Hr as -> Hr. by destruct p.
  - destruct t as [|es]; [done|]. destruct (assoc n es) as [c|] eqn:Ha; [|done].
    destruct (rmtree_at m k c) as [c'|] eqn:E; [|done].
    intros [= <-] [r Hr] Hne. destruct p as [|a p]; [done|].
    injection Hr as -> Hr. unfold is_dir. simpl. rewrite assoc_set_entry_eq.
    apply (IH _ _ _ _ E); [by exists r|congruence].
Qed.

(** [rmtree] on a path that is not the root. *)
Lemma rmtree_dir p t :
  p ≠ [] → is_dir t p = true →
  ∃ t', rmtree t p = (t', None)
    ∧ (∀ r, node_at t' (p ++ r) = None)
    ∧ (∀ q, ¬ p `prefix_of` q → ¬ q `prefix_of` p → node_at t' q = node_at t q)
    ∧ (∀ q, q `prefix_of` p → q ≠ p → is_dir t' q = true).
Proof.
  destruct p as [|n q]; [done|]. intros _ Hd.
  destruct (rmtree_at_dir _ _ _ Hd) as [t' Hr]. exists t'.
  unfold rmtree. rewrite Hr. split; [done|]. split; [|split].
  - by apply (rmtree_at_gone _ _ t).
  - intros p. by apply rmtree_at_beside.
  - intros p. by apply (rmtree_at_above _ _ t).
Qed.

Lemma rmtree_not_dir p t :
  p ≠ [] → is_dir t p = false →
  ∃ e, (e = ENOENT ∨ e = ENOTDIR)
    ∧ rmtree t p = (t, Some (rm_oserror (OSErr e p))).
Proof.
  destruct p as [|n q]; [done|]. intros _ Hd. unfold rmtree.
  destruct (rmtree_at n q t) as [t'|e] eqn:Hr.
  - apply rmtree_at_inl in Hr. congruence.
  - exists e. split; [by eapply rmtree_at_inr|done].
Qed.

Lemma rmtree_parent d n t t' es :
  rmtree t (d ++ [n]) = (t', None) → node_at t d = Some (Dir es) →
  node_at t' d = Some (Dir (del_entry n es)).
Proof.
  unfold rmtree. intros Hr. apply (rmtree_at_parent d n t t' es).
  destruct (d ++ [n]) as [|a r] eqn:E; [by destruct d|]. simpl.
  destruct (rmtree_at a r t); by injection Hr as <-.
Qed.

End DeleteFacts.

(** * The listing after a change of the slots *)

Module SlotFacts3.
Import FS Lib PathStr Slots Spec.
Import FSFacts RelFacts SlotFacts SlotFacts2 DeleteFacts.

Section Sorting.
Context {A : Type} (key : A → Z) (P : A → Prop) `{!∀ x, Decision (P x)}.

Lemma insert_desc_head x (l : list A) :
  Forall (λ z, (key z ≤ key x)%Z) l → insert_desc key x l = x :: l.
Proof.
  destruct l as [|y l]; [done|]. intros [Hy _]%Forall_cons. simpl.
  by rewrite (proj2 (Z.leb_le _ _) Hy).
Qed.

Lemma insert_desc_filter_True x l :
  StronglySorted (newer_first key) l → P x →
  filter P (insert_desc key x l) = insert_desc key x (filter P l).
Proof.
  intros Hs Hx. induction Hs as [|y l Hs IH Hy]; simpl.
  - by rewrite filter_cons_True.
  - destruct (key y <=? key x)%Z eqn:E.
    + rewrite filter_cons_True by done. symmetry. apply insert_desc_head.
      apply Z.leb_le in E. apply Forall_forall. intros z Hz.
      apply list_elem_of_filter in Hz as [_ Hz].
      apply elem_of_cons in Hz as [->|Hz]; [done|].
      pose proof (proj1 (Forall_forall _ _) Hy _ Hz) as Hk. unfold newer_first in Hk.
      lia.
    + destruct (decide (P y)).
      * rewrite !filter_cons_True by done. simpl. by rewrite E, IH.
      * by rewrite !filter_cons_False.
Qed.

Lemma insert_desc_filter_False x l :
  ¬ P x → filter P (insert_desc key x l) = filter P l.
Proof.
  intros Hx. induction l as [|y l IH]; simpl.
  - by rewrite filter_cons_False.
  - destruct (key y <=? key x)%Z; [by rewrite filter_cons_False|].
    destruct (decide (P y)).
    + by rewrite !filter_cons_True, IH.
    + by rewrite !filter_cons_False.
Qed.

(** A stable sort goes through a filter. *)
Lemma sorted_reverse_filter l :
  sorted_reverse key (filter P l) = filter P (sorted_reverse key l).
Proof.
  induction l as [|x l IH]; [done|]. simpl. destruct (decide (P x)).
  - rewrite filter_cons_True by done. simpl. rewrite IH.
    symmetry. apply insert_desc_filter_True; [|done].
    apply sorted_reverse_sorted.
  - rewrite filter_cons_False by done. rewrite IH.
    symmetry. by apply insert_desc_filter_False.
Qed.

End Sorting.

Lemma omap_filter {A B} (f : A → option B) (P : A → Prop) (Q : B → Prop)
    `{!∀ x, Decision (P x)} `{!∀ y, Decision (Q y)} (l : list A) :
  (∀ a b, f a = Some b → (P a ↔ Q b)) →
  omap f (filter P l) = filter Q (omap f l).
Proof.
  intros Hpq. induction l as [|a l IH]; [done|].
  change (omap f (a :: l)) with
    (match f a with Some b => b :: omap f l | None => omap f l end).
  destruct (decide (P a)) as [Ha|Ha].
  - rewrite filter_cons_True by done.
    change (omap f (a :: filter P l)) with
      (match f a with Some b => b :: omap f (filter P l)
                 | None => omap f (filter P l) end).
    destruct (f a) as [b|] eqn:E; [|done].
    rewrite filter_cons_True by (by apply (Hpq _ _ E)). by rewrite IH.
  - rewrite filter_cons_False by done.
    destruct (f a) as [b|] eqn:E; [|done].
    rewrite filter_cons_False; [done|]. by rewrite <- (Hpq _ _ E).
Qed.

Lemma omap_ext_in {A B} (f g : A → option B) (l : list A) :
  (∀ a, a ∈ l → f a = g a) → omap f l = omap g l.
Proof.
  induction l as [|a l IH]; [done|]. intros H.
  change (omap f (a :: l)) with
    (match f a with Some b => b :: omap f l | None => omap f l end).
  change (omap g (a :: l)) with
    (match g a with Some b => b :: omap g l | None => omap g l end).
  rewrite (H a) by constructor. rewrite IH; [done|].
  intros b Hb. apply H. by constructor.
Qed.

Section Store.
Variable json_load : bytes → option json.
Variable json_dump : json → bytes.
Variable st_mtime : path → Z.
Variable strftime : Z → option string.
Variable size_str : nat → string.
Variable QTableWidgetItem : json → option string.

Abbreviation get_save_mode := (get_save_mode json_load).
Abbreviation save_metadata := (save_metadata json_dump).
Abbreviation refresh_saves :=
  (refresh_saves json_load st_mtime strftime size_str QTableWidgetItem).
Abbreviation entry_row :=
  (entry_row json_load st_mtime strftime size_str QTableWidgetItem).
Abbreviation entry_logged :=
  (entry_logged json_load st_mtime strftime size_str QTableWidgetItem).

(** The mode depends on the metadata file only. *)
Lemma get_save_mode_ext t t' save_dir :
  node_at t' (save_dir ++ ["metadata.json"])
  = node_at t (save_dir ++ ["metadata.json"]) →
  get_save_mode t' save_dir = get_save_mode t save_dir.
Proof.
  intros H. unfold get_save_mode, Slots.get_save_mode, path_exists, read_file.
  rewrite H. by destruct (node_at t _) as [[|]|].
Qed.

Lemma entry_row_ext t t' saved_dir e :
  node_at t' (saved_dir ++ [e.1; "metadata.json"])
  = node_at t (saved_dir ++ [e.1; "metadata.json"]) →
  entry_row t' saved_dir e = entry_row t saved_dir e.
Proof.
  intros H. unfold entry_row, Slots.entry_row, save_row.
  destruct e as [n [|es]]; [done|]. simpl in *.
  rewrite (get_save_mode_ext t t'); [done|]. by rewrite <- app_assoc.
Qed.

Lemma entry_logged_ext t t' saved_dir e :
  node_at t' (saved_dir ++ [e.1; "metadata.json"])
  = node_at t (saved_dir ++ [e.1; "metadata.json"]) →
  entry_logged t' saved_dir e = entry_logged t saved_dir e.
Proof.
  intros H. unfold entry_logged, Slots.entry_logged, save_row.
  destruct e as [n [|es]]; [done|]. simpl in *.
  rewrite (get_save_mode_ext t t'); [done|]. by rewrite <- app_assoc.
Qed.

Lemma entry_row_name t saved_dir e r :
  entry_row t saved_dir e = Some r → row_name r = e.1.
Proof.
  unfold entry_row, Slots.entry_row, save_row. destruct e as [n [|es]]; [done|].
  simpl. destruct (strftime _); [|done]. by intros [= <-].
Qed.

Lemma entry_logged_path t saved_dir e p :
  entry_logged t saved_dir e = Some p → p = saved_dir ++ [e.1].
Proof.
  unfold entry_logged, Slots.entry_logged. destruct e as [n [|es]]; [done|].
  cbn [fst snd]. destruct (save_row _ _ _ _ _ _ _ _ _) as [r b].
  cbn [fst snd]. destruct b; [|done]. by intros [= <-].
Qed.

(** The listing of a slots root whose entries are those of [t] without
    the name [n], the other slots being as they are in [t]. *)
Lemma refresh_saves_without t t' saved_dir es n l :
  node_at t saved_dir = Some (Dir es) →
  node_at t' saved_dir = Some (Dir (DeleteWorker.del_entry n es)) →
  (∀ m, m ≠ n → node_at t' (saved_dir ++ [m; "metadata.json"])
                = node_at t (saved_dir ++ [m; "metadata.json"])) →
  refresh_saves t saved_dir = inl l →
  refresh_saves t' saved_dir
  = inl {| table := filter (λ r, row_name r ≠ n) (table l);
           logged := filter (λ p, p ≠ saved_dir ++ [n]) (logged l) |}.
Proof.
  intros Hd Hd' Hm. unfold refresh_saves, Slots.refresh_saves.
  rewrite Hd, Hd'. intros [= <-]. cbn [table logged]. f_equal.
  set (key := λ e : string * node, st_mtime (saved_dir ++ [e.1])).
  rewrite del_entry_filter, (sorted_reverse_filter key). f_equal.
  - rewrite (omap_ext_in (entry_row t' saved_dir) (entry_row t saved_dir)).
    + apply omap_filter. intros a b Hab.
      by rewrite (entry_row_name _ _ _ _ Hab).
    + intros e [He _]%list_elem_of_filter. by apply entry_row_ext, Hm.
  - rewrite (omap_ext_in (entry_logged t' saved_dir) (entry_logged t saved_dir)).
    + apply omap_filter. intros a b Hab.
      rewrite (entry_logged_path _ _ _ _ Hab). split.
      * intros Hne Heq. apply Hne. apply app_inv_head in Heq.
        by injection Heq.
      * intros Hne Heq. apply Hne. by rewrite Heq.
    + intros e [He _]%list_elem_of_filter. by apply entry_logged_ext, Hm.
Qed.

End Store.

End SlotFacts3.

(** * The check-box tree *)

Module PopulateFacts.
Import FS PathStr Tree Spec Populate Props.
Import FSFacts MergeFacts TreeFacts.

Section Sorting.
Context {A : Type} (key : A → bool * string).

Lemma insert_asc_perm x (l : list A) : insert_asc key x l ≡ₚ x :: l.
Proof.
  induction l as [|y l IH]; [done|]. simpl.
  destruct (key_le _ _); [done|]. rewrite IH. apply perm_swap.
Qed.

Lemma sorted_perm (l : list A) : sorted key l ≡ₚ l.
Proof.
  induction l as [|x l IH]; [done|]. simpl.
  by rewrite insert_asc_perm, IH.
Qed.

Lemma insert_asc_pair {B} (g : A → B) x (l : list A) :
  insert_asc (λ y : A * B, key y.1) (x, g x) (List.map (λ e, (e, g e)) l)
  = List.map (λ e, (e, g e)) (insert_asc key x l).
Proof.
  induction l as [|y l IH]; [done|]. simpl.
  destruct (key_le _ _); [done|]. simpl. by rewrite IH.
Qed.

(** Sorting the entries paired with what is made of them is making it
    of the sorted entries. *)
Lemma sorted_pair {B} (g : A → B) (l : list A) :
  sorted (λ y : A * B, key y.1) (List.map (λ e, (e, g e)) l)
  = List.map (λ e, (e, g e)) (sorted key l).
Proof.
  induction l as [|x l IH]; [done|]. simpl.
  by rewrite IH, insert_asc_pair.
Qed.

End Sorting.

Lemma filter_ext_in {A} (P Q : A → Prop) `{!∀ x, Decision (P x)}
    `{!∀ x, Decision (Q x)} (l : list A) :
  (∀ x, x ∈ l → (P x ↔ Q x)) → filter P l = filter Q l.
Proof.
  induction l as [|a l IH]; [done|]. intros Hpq.
  assert (filter P l = filter Q l) as E.
  { apply IH. intros x Hx. apply Hpq. by constructor. }
  destruct (decide (P a)) as [Ha|Ha].
  - rewrite !filter_cons_True; [by rewrite E|..]; [|done].
    apply Hpq; [constructor|done].
  - rewrite !filter_cons_False; [done|..]; [|done].
    intros Hq. apply Ha, Hpq; [constructor|done].
Qed.

Section Populate.
Variable lower : string → string.

(** [add_items] in the words of the source: one item for each entry of
    the sorted directory. *)
Lemma add_items_dir cfg es rel :
  add_items lower cfg (Dir es) rel
  = List.map (λ e, Item (check cfg (entry_rel rel e)) (Some (entry_rel rel e))
                     (add_items lower cfg e.2 (entry_rel rel e)))
      (sorted (key lower) es).
Proof.
  cbn [add_items].
  rewrite (sorted_pair (key lower)
             (λ e, Item (check cfg (entry_rel rel e)) (Some (entry_rel rel e))
                     (add_items lower cfg e.2 (entry_rel rel e)))).
  rewrite List.map_map. done.
Qed.

Lemma labels_of_item st d cs :
  labels_of (Item st d cs)
  = match d with Some r => [r] | None => [] end ++ flat_map labels_of cs.
Proof.
  unfold labels_of. rewrite preorder_item.
  change (omap data (Item st d cs :: flat_map preorder cs)) with
    (match d with Some r => r :: omap data (flat_map preorder cs)
             | None => omap data (flat_map preorder cs) end).
  assert (omap data (flat_map preorder cs) = flat_map labels_of cs) as ->.
  { induction cs as [|c cs IH]; [done|]. simpl.
    by rewrite omap_app, IH. }
  by destruct d.
Qed.

(** The paths of the items are the same for every configuration. *)
Lemma labels_add_items cfg s :
  ∀ rel, flat_map labels_of (add_items lower cfg s rel)
         = shown_paths lower s rel.
Proof.
  unfold shown_paths.
  induction s as [d|es IH] using node_ind2; intros rel; [done|].
  rewrite !add_items_dir.
  assert (Forall (λ e : string * node,
            ∀ rel, flat_map labels_of (add_items lower cfg e.2 rel)
                   = flat_map labels_of (add_items lower [] e.2 rel))
            (sorted (key lower) es)) as IH'.
  { by rewrite (sorted_perm (key lower) es). }
  induction IH' as [|e l He _ IHl]; [done|]. cbn [List.map flat_map].
  by rewrite !labels_of_item, He, IHl.
Qed.

(** What is collected from the items of [add_items]: their paths that
    are configured. *)
Lemma recurse_add_items cfg s :
  ∀ rel, flat_map recurse (add_items lower cfg s rel)
         = filter (configured cfg) (shown_paths lower s rel).
Proof.
  induction s as [d|es IH] using node_ind2; intros rel; [done|].
  rewrite <- (labels_add_items cfg). rewrite !add_items_dir.
  assert (Forall (λ e : string * node,
            ∀ rel, flat_map recurse (add_items lower cfg e.2 rel)
                   = filter (configured cfg)
                       (flat_map labels_of (add_items lower cfg e.2 rel)))
            (sorted (key lower) es)) as IH'.
  { rewrite (sorted_perm (key lower) es).
    eapply Forall_impl; [exact IH|]. intros e He rel'.
    by rewrite He, labels_add_items. }
  induction IH' as [|e l He _ IHl]; [done|]. cbn [List.map flat_map].
  rewrite recurse_item, labels_of_item, !filter_app, He, IHl.
  f_equal. f_equal. unfold collected, check. simpl.
  destruct (decide (entry_rel rel e ∈ cfg)) as [Hin|Hin].
  - rewrite bool_decide_eq_true_2 by done.
    destruct (String.eqb_spec (entry_rel rel e) "") as [E|E].
    + rewrite filter_cons_False; [done|]. by intros [_ ?].
    + by rewrite filter_cons_True.
  - rewrite bool_decide_eq_false_2 by done.
    rewrite filter_cons_False; [done|]. by intros [? _].
Qed.

(** The same for the whole tree. *)
Lemma checked_populate_tree cfg t game_saved es :
  node_at t game_saved = Some (Dir es) →
  ∃ root, populate_tree lower cfg t game_saved = inl root
    ∧ get_checked_paths root
      = filter (configured cfg) (shown_paths lower (Dir es) "").
Proof.
  intros Hd. unfold populate_tree. rewrite Hd. eexists. split; [done|].
  unfold get_checked_paths. rewrite recurse_item. unfold collected.
  cbn [checkState app]. apply (recurse_add_items cfg (Dir es) "").
Qed.

(** Collecting from the tree made for what was collected gives the
    same again. *)
Lemma filter_configured_again cfg (l : list string) :
  filter (configured (filter (configured cfg) l)) l
  = filter (configured cfg) l.
Proof.
  apply filter_ext_in. intros r Hr. unfold configured. split.
  - intros [Hin _]. by apply list_elem_of_filter in Hin as [? _].
  - intros [Hc Hne]. split; [|done]. apply list_elem_of_filter.
    by split.
Qed.

End Populate.

End PopulateFacts.

(** * The mode of a slot and the other handlers *)

Module SlotFacts4.
Import FS Lib PathStr CopyWorker Slots Spec Props.
Import FSFacts RelFacts MergeFacts RunFacts RunFacts2 SlotFacts SlotFacts2 SlotFacts3.


Section Store.
Variable json_load : bytes → option json.
Variable json_dump : json → bytes.

Abbreviation get_save_mode := (get_save_mode json_load).
Abbreviation save_metadata := (save_metadata json_dump).

(** [save_metadata] writes one file. *)
Lemma save_metadata_beside t save_dir mode q :
  ¬ save_dir ++ ["metadata.json"] `prefix_of` q →
  ¬ q `prefix_of` save_dir ++ ["metadata.json"] →
  node_at (save_metadata t save_dir mode).1 q = node_at t q.
Proof.
  intros H1 H2. unfold save_metadata, Slots.save_metadata.
  destruct (write_file t _ _) as [t'|e] eqn:Hw; [|done]. simpl.
  apply with_path_inl in Hw. by eapply update_at_beside.
Qed.

Lemma save_metadata_sibling t saved_dir a b mode :
  a ≠ b →
  get_save_mode (save_metadata t (saved_dir ++ [a]) mode).1 (saved_dir ++ [b])
  = get_save_mode t (saved_dir ++ [b]).
Proof.
  intros Hab. apply get_save_mode_ext, save_metadata_beside.
  - intros [k Hk]. rewrite <- !app_assoc in Hk. apply app_inv_head in Hk.
    by injection Hk.
  - intros [k Hk]. rewrite <- !app_assoc in Hk. apply app_inv_head in Hk.
    by injection Hk.
Qed.

(** The mode read after a successful [save_metadata]. *)
Lemma get_save_mode_written t t' save_dir mode :
  write_file t (save_dir ++ ["metadata.json"])
    (json_dump (JObj [("mode", JStr mode)])) = inl t' →
  json_load (json_dump (JObj [("mode", JStr mode)]))
    = Some (JObj [("mode", JStr mode)]) →
  get_save_mode t' save_dir = JStr mode.
Proof.
  intros Hw Hrt. unfold get_save_mode, Slots.get_save_mode, path_exists.
  rewrite (read_file_written _ _ _ _ Hw).
  destruct (write_file_here _ _ _ _ Hw) as [_ ->]. by rewrite Hrt.
Qed.



End Store.


(** An update below the entry [n] of the directory at [d]. *)
Lemma update_at_child f d n r t t' es c :
  node_at t d = Some (Dir es) → assoc n es = Some c →
  update_at f (d ++ n :: r) t = inl t' →
  ∃ c', update_at f r c = inl c'
    ∧ node_at t' d = Some (Dir (set_entry n c' es)).
Proof.
  revert t t'. induction d as [|m d IH]; intros t t'; simpl.
  - intros [= ->]. intros Ha. rewrite Ha.
    destruct (update_at f r c) as [c'|]; [|done]. intros [= <-]. eauto.
  - destruct t as [|es0]; [done|].
    destruct (assoc m es0) as [y|] eqn:Hm; [|done]. intros Hd Ha.
    destruct (update_at f (d ++ n :: r) y) as [y'|] eqn:Hu.
    + intros [= <-]. destruct (IH _ _ Hd Ha Hu) as (c' & Hc' & Hn).
      exists c'. split; [done|]. simpl. by rewrite assoc_set_entry_eq.
    + by destruct (d ++ n :: r).
Qed.

Lemma filter_set_entry n x (es : list (string * node)) :
  filter (λ e : string * node, e.1 ≠ n) (set_entry n x es)
  = filter (λ e : string * node, e.1 ≠ n) es.
Proof.
  induction es as [|[m y] es IH]; simpl.
  - by rewrite filter_cons_False by (simpl; intros H; by apply H).
  - destruct (String.eqb_spec n m) as [->|Hne].
    + rewrite !filter_cons_False; [done|simpl; intros H; by apply H..].
    + rewrite !filter_cons_True by (simpl; congruence). by rewrite IH.
Qed.

Section Sorting.
Context {A : Type} (key key' : A → Z).

Lemma insert_desc_ext x (l : list A) :
  key x = key' x → (∀ y, y ∈ l → key y = key' y) →
  insert_desc key x l = insert_desc key' x l.
Proof.
  intros Hx Hl. induction l as [|y l IH]; [done|]. simpl.
  rewrite Hx, (Hl y) by constructor.
  destruct (key' y <=? key' x)%Z; [done|]. f_equal. apply IH.
  intros z Hz. apply Hl. by right.
Qed.

(** The order depends on the keys of the elements only. *)
Lemma sorted_reverse_ext (l : list A) :
  (∀ y, y ∈ l → key y = key' y) →
  sorted_reverse key l = sorted_reverse key' l.
Proof.
  induction l as [|x l IH]; [done|]. intros Hl. simpl.
  rewrite IH by (intros y Hy; apply Hl; by right).
  apply insert_desc_ext; [apply Hl; constructor|].
  intros y Hy. rewrite sorted_reverse_perm in Hy. apply Hl. by right.
Qed.

End Sorting.

Section Listing.
Variable json_load : bytes → option json.
Variable json_dump : json → bytes.
Variable st_mtime st_mtime' : path → Z.
Variable strftime : Z → option string.
Variable size_str : nat → string.
Variable QTableWidgetItem : json → option string.

(** The listing after the mode of the slot [n] is written, made with
    the times [st_mtime'] of that moment, beside the listing of before,
    made with the times [st_mtime]. *)
Lemma refresh_saves_mode_written t t' saved_dir n mode es cs l :
  node_at t saved_dir = Some (Dir es) → assoc n es = Some (Dir cs) →
  write_file t (saved_dir ++ [n] ++ ["metadata.json"])
    (json_dump (JObj [("mode", JStr mode)])) = inl t' →
  json_load (json_dump (JObj [("mode", JStr mode)]))
    = Some (JObj [("mode", JStr mode)]) →
  QTableWidgetItem (JStr mode) = Some mode →
  refresh_saves json_load st_mtime strftime size_str QTableWidgetItem
    t saved_dir = inl l →
  ∃ l',
    refresh_saves json_load st_mtime' strftime size_str QTableWidgetItem
      t' saved_dir = inl l'
    ∧ Forall (λ r, row_name r = n → row_mode r = Some mode) (table l')
    ∧ (is_Some (strftime (st_mtime' (saved_dir ++ [n]))) →
       ∃ r, r ∈ table l' ∧ row_name r = n)
    ∧ ((∀ m, m ≠ n →
          st_mtime' (saved_dir ++ [m]) = st_mtime (saved_dir ++ [m])) →
       filter (λ r, row_name r ≠ n) (table l')
       = filter (λ r, row_name r ≠ n) (table l)).
Proof.
  intros Hd Ha Hw Hrt Hitem. unfold refresh_saves. rewrite Hd.
  intros [= <-]. pose proof Hw as Hu. apply with_path_inl in Hu.
  change (saved_dir ++ [n] ++ ["metadata.json"])
    with (saved_dir ++ n :: ["metadata.json"]) in Hu.
  destruct (update_at_child _ _ _ _ _ _ _ _ Hd Ha Hu) as (c' & Hc' & Hd').
  assert (∃ cs', c' = Dir cs') as [cs' ->].
  { simpl in Hc'. destruct (assoc "metadata.json" cs) as [[|]|];
      simplify_eq; eauto. }
  rewrite Hd'. eexists. split; [done|]. cbn [table].
  set (key := λ e : string * node, st_mtime (saved_dir ++ [e.1])).
  set (key' := λ e : string * node, st_mtime' (saved_dir ++ [e.1])).
  set (f := entry_row json_load st_mtime strftime size_str QTableWidgetItem
              t saved_dir).
  set (f' := entry_row json_load st_mtime' strftime size_str QTableWidgetItem
               t' saved_dir).
  assert (get_save_mode json_load t' (saved_dir ++ [n]) = JStr mode) as Hmode.
  { apply (get_save_mode_written json_load json_dump t); [|done].
    by rewrite <- app_assoc. }
  assert (∀ e r, f' e = Some r → row_name r = e.1) as Hname'.
  { intros e r. apply entry_row_name. }
  assert (∀ e r, f e = Some r → row_name r = e.1) as Hname.
  { intros e r. apply entry_row_name. }
  split; [|split].
  3:{
    intros Htime.
    rewrite <- (omap_filter f' (λ e : string * node, e.1 ≠ n)
                  (λ r, row_name r ≠ n))
      by (intros e r Hr; by rewrite (Hname' _ _ Hr)).
    rewrite <- (omap_filter f (λ e : string * node, e.1 ≠ n)
                  (λ r, row_name r ≠ n))
      by (intros e r Hr; by rewrite (Hname _ _ Hr)).
    rewrite <- !sorted_reverse_filter, filter_set_entry.
    rewrite (sorted_reverse_ext key' key).
    2:{ intros e [He _]%list_elem_of_filter. unfold key, key'. by apply Htime. }
    apply omap_ext_in. intros e He.
    rewrite sorted_reverse_perm in He. apply list_elem_of_filter in He as [He _].
    destruct e as [m x]. simpl in He. unfold f, f', entry_row, save_row.
    cbn [fst snd]. destruct x as [d|ex]; [done|]. rewrite (Htime _ He).
    rewrite (get_save_mode_ext json_load t t'); [done|].
    eapply update_at_beside; [exact Hu|..].
    + intros [k Hk]. rewrite <- !app_assoc in Hk. apply app_inv_head in Hk.
      injection Hk as ->. done.
    + intros [k Hk]. rewrite <- !app_assoc in Hk. apply app_inv_head in Hk.
      injection Hk as ->. done. }
  - apply Forall_forall. intros r (e & He & Hr)%list_elem_of_omap Hn.
    rewrite (Hname' _ _ Hr) in Hn. destruct e as [m x]. simpl in Hn. subst m.
    unfold f', entry_row, save_row in Hr. cbn [fst snd] in Hr.
    destruct x as [d|ex]; [done|].
    destruct (strftime (st_mtime' (saved_dir ++ [n]))); [|done].
    injection Hr as <-. simpl. by rewrite Hmode, Hitem.
  - intros [ds Hds].
    exists {| row_name := n; row_date := ds;
              row_size := size_str (total_size (Dir cs'));
              row_mode := Some mode |}.
    split; [|done]. apply list_elem_of_omap. exists (n, Dir cs'). split.
    + rewrite sorted_reverse_perm.
      apply CopyFacts.assoc_elem_of, assoc_set_entry_eq.
    + unfold f', entry_row, save_row. cbn [fst snd].
      by rewrite Hds, Hmode, Hitem.
Qed.

End Listing.

End SlotFacts4.

(** * The paths of the items as paths of the copy *)

Module PathFacts.
Import FS PathStr Tree Spec Populate Props.
Import FSFacts MergeFacts TreeFacts PopulateFacts.

Lemma append_cons x (a b : string) : String x a +:+ b = String x (a +:+ b).
Proof. reflexivity. Qed.

Lemma append_nil_l (b : string) : "" +:+ b = b.
Proof. reflexivity. Qed.

Lemma append_assoc (a b c : string) : (a +:+ b) +:+ c = a +:+ (b +:+ c).
Proof.
  induction a as [|x a IH]; [done|]. by rewrite !append_cons, IH.
Qed.

Lemma length_append (a b : string) :
  String.length (a +:+ b) = String.length a + String.length b.
Proof.
  induction a as [|x a IH]; [done|]. rewrite append_cons. simpl.
  by rewrite IH.
Qed.

Lemma segments_nonempty s : segments s ≠ [].
Proof.
  induction s as [|c s IH]; simpl; [done|].
  destruct (Ascii.eqb c slash); [done|]. by destruct (segments s).
Qed.

Lemma segments_no_slash n : no_slash n = true → segments n = [n].
Proof.
  induction n as [|c n IH]; simpl; [done|].
  intros [Hc Hn]%andb_true_iff. apply negb_true_iff in Hc. rewrite Hc.
  by rewrite IH.
Qed.

Lemma segments_app_slash n s :
  no_slash n = true → segments (n +:+ String slash s) = n :: segments s.
Proof.
  induction n as [|c n IH].
  - intros _. by rewrite append_nil_l.
  - simpl. intros [Hc Hn]%andb_true_iff. apply negb_true_iff in Hc.
    rewrite Hc. by rewrite IH.
Qed.

Lemma rstrip_slash_app_r a b :
  rstrip_slash b ≠ "" → rstrip_slash (a +:+ b) = a +:+ rstrip_slash b.
Proof.
  intros Hb. induction a as [|c a IH]; [done|].
  rewrite ?append_cons. simpl. rewrite IH.
  destruct (a +:+ rstrip_slash b) eqn:E; [|done].
  destruct a; [by rewrite append_nil_l in E|by rewrite append_cons in E].
Qed.

Lemma rstrip_slash_app_l a b :
  rstrip_slash b = "" → rstrip_slash (a +:+ b) = rstrip_slash a.
Proof.
  intros Hb. induction a as [|c a IH]; [done|].
  rewrite ?append_cons. simpl. by rewrite IH.
Qed.

Lemma rstrip_slash_no_slash n : no_slash n = true → rstrip_slash n = n.
Proof.
  induction n as [|c n IH]; simpl; [done|].
  intros [Hc Hn]%andb_true_iff. apply negb_true_iff in Hc.
  rewrite IH by done. rewrite Hc. by destruct n.
Qed.

Lemma valid_name_inv n :
  valid_name n = true →
  n ≠ "" ∧ n ≠ "." ∧ n ≠ ".." ∧ no_slash n = true.
Proof.
  unfold valid_name. rewrite !andb_true_iff, !negb_true_iff.
  intros [[[H1 H2] H3] H4]. by rewrite !String.eqb_neq in *.
Qed.

Lemma file_rel_cons n q : q ≠ [] → file_rel (n :: q) = n +:+ "/" +:+ file_rel q.
Proof. by destruct q. Qed.

Lemma file_rel_nonempty q :
  q ≠ [] → Forall (λ n, valid_name n = true) q → file_rel q ≠ "".
Proof.
  destruct q as [|n q]; [done|]. intros _ [Hn _]%Forall_cons.
  apply valid_name_inv in Hn as (Hn & _). destruct q; [done|].
  rewrite file_rel_cons by done. by destruct n.
Qed.

(** The path of an item without its trailing slash, and the path of a
    file, stand for the names they were made from. *)
Lemma rstrip_slash_cons c s :
  rstrip_slash s ≠ "" → rstrip_slash (String c s) = String c (rstrip_slash s).
Proof. simpl. by destruct (rstrip_slash s). Qed.

Lemma slash_append (s : string) : "/" +:+ s = String slash s.
Proof. reflexivity. Qed.

Lemma rstrip_slash_file_rel q :
  Forall (λ n, valid_name n = true) q → rstrip_slash (file_rel q) = file_rel q.
Proof.
  induction q as [|n q IH]; [done|]. intros [Hn Hq]%Forall_cons.
  apply valid_name_inv in Hn as (Hn & _ & _ & Hs).
  destruct q as [|m q]; [by apply rstrip_slash_no_slash|].
  rewrite file_rel_cons by done.
  assert (rstrip_slash (file_rel (m :: q)) ≠ "") as Hne.
  { rewrite IH by done. by apply file_rel_nonempty. }
  rewrite slash_append.
  rewrite rstrip_slash_app_r; rewrite rstrip_slash_cons by done.
  - by rewrite IH.
  - done.
Qed.

Lemma rstrip_slash_dir_rel q :
  q ≠ [] → Forall (λ n, valid_name n = true) q →
  rstrip_slash (dir_rel q) = file_rel q.
Proof.
  induction q as [|n q IH]; [done|]. intros _ [Hn Hq]%Forall_cons.
  pose proof Hn as Hn'. apply valid_name_inv in Hn' as (Hne & _ & _ & Hs).
  destruct q as [|m q].
  - cbn [dir_rel file_rel]. rewrite rstrip_slash_app_l by done.
    by apply rstrip_slash_no_slash.
  - rewrite file_rel_cons by done.
    change (dir_rel (n :: m :: q)) with (n +:+ "/" +:+ dir_rel (m :: q)).
    assert (rstrip_slash (dir_rel (m :: q)) ≠ "") as Hd.
    { rewrite IH by done. by apply file_rel_nonempty. }
    rewrite !slash_append.
    rewrite rstrip_slash_app_r; rewrite rstrip_slash_cons by done.
    + by rewrite IH.
    + done.
Qed.

Lemma segments_file_rel q :
  q ≠ [] → Forall (λ n, valid_name n = true) q → segments (file_rel q) = q.
Proof.
  induction q as [|n q IH]; [done|]. intros _ [Hn Hq]%Forall_cons.
  apply valid_name_inv in Hn as (Hne & _ & _ & Hs).
  destruct q as [|m q]; [by apply segments_no_slash|].
  rewrite file_rel_cons by done.
  change ("/" +:+ file_rel (m :: q)) with (String slash (file_rel (m :: q))).
  rewrite segments_app_slash by done. by rewrite IH.
Qed.

Lemma parts_file_rel q :
  q ≠ [] → Forall (λ n, valid_name n = true) q → parts (file_rel q) = q.
Proof.
  intros Hq Hv. unfold parts. rewrite segments_file_rel by done.
  clear Hq. induction Hv as [|n q Hn _ IH]; [done|].
  apply valid_name_inv in Hn as (H1 & H2 & _).
  rewrite filter_cons_True; [by rewrite IH|].
  unfold PathStr.kept. apply String.eqb_neq in H1, H2. by rewrite H1, H2.
Qed.

Lemma is_absolute_file_rel q :
  Forall (λ n, valid_name n = true) q → is_absolute (file_rel q) = false.
Proof.
  destruct q as [|n q]; [done|]. intros [Hn _]%Forall_cons.
  apply valid_name_inv in Hn as (Hne & _ & _ & Hs).
  destruct n as [|c n]; [done|]. simpl in Hs.
  apply andb_true_iff in Hs as [Hc _]. apply negb_true_iff in Hc.
  destruct q; [done|]. rewrite file_rel_cons by done.
  by rewrite append_cons.
Qed.

(** A valid name joins a base as one component. *)
Lemma joinpath_name base n :
  valid_name n = true → joinpath base n = base ++ [n].
Proof.
  intros Hn.
  assert (Forall (λ n, valid_name n = true) [n]) as Hq by (by constructor).
  pose proof (is_absolute_file_rel [n] Hq) as H1.
  pose proof (parts_file_rel [n] ltac:(done) Hq) as H2.
  simpl in H1, H2. unfold joinpath. by rewrite H1, H2.
Qed.


Lemma plain_of_names r q :
  q ≠ [] → Forall (λ n, valid_name n = true) q →
  rstrip_slash r = file_rel q →
  plain r = true ∧ ∀ base, joinpath base (rstrip_slash r) = base ++ q.
Proof.
  intros Hq Hv Hr. unfold plain, joinpath. rewrite Hr.
  rewrite is_absolute_file_rel, parts_file_rel by done. split; [|done].
  simpl. apply forallb_forall. intros n Hn%list_elem_of_In.
  pose proof (proj1 (Forall_forall _ _) Hv _ Hn) as Hvn.
  apply valid_name_inv in Hvn as (_ & _ & H3 & _).
  apply String.eqb_neq in H3. by rewrite H3.
Qed.

Lemma dir_rel_file_rel q : q ≠ [] → dir_rel q = file_rel q +:+ "/".
Proof.
  induction q as [|n q IH]; [done|]. intros _.
  destruct q as [|m q]; [done|].
  rewrite file_rel_cons by done.
  change (dir_rel (n :: m :: q)) with (n +:+ "/" +:+ dir_rel (m :: q)).
  rewrite IH by done. by rewrite !append_assoc.
Qed.

Lemma append_slash_ne (s : string) : s +:+ "/" ≠ s.
Proof.
  intros H. apply (f_equal String.length) in H.
  rewrite length_append in H. simpl in H. lia.
Qed.

Lemma valid_names_entry es n c :
  valid_names (Dir es) = true → (n, c) ∈ es →
  valid_name n = true ∧ valid_names c = true.
Proof.
  induction es as [|[m x] es IH]; [by intros _ ?%elem_of_nil|].
  change (valid_names (Dir ((m, x) :: es)))
    with (valid_name m && valid_names x && valid_names (Dir es)).
  intros [[H1 H2]%andb_true_iff H3]%andb_true_iff [[= -> ->]|Hin]%elem_of_cons;
    [done|by apply IH].
Qed.

Section Populate.
Variable lower : string → string.

Lemma shown_paths_dir es rel r :
  r ∈ shown_paths lower (Dir es) rel →
  ∃ e, e ∈ es ∧ (r = entry_rel rel e
                 ∨ r ∈ shown_paths lower e.2 (entry_rel rel e)).
Proof.
  unfold shown_paths. rewrite add_items_dir.
  intros (i & Hi & Hr)%list_elem_of_In%in_flat_map.
  apply in_map_iff in Hi as (e & <- & He).
  apply list_elem_of_In in He, Hr. rewrite (sorted_perm (key lower) es) in He.
  exists e. split; [done|]. rewrite labels_of_item in Hr.
  apply elem_of_cons in Hr as [->|Hr]; [by left|by right].
Qed.

(** Every path of an item names an entry of the directory. *)
Lemma shown_paths_names s :
  wf s = true → valid_names s = true →
  ∀ rel r, r ∈ shown_paths lower s rel →
  ∃ q c, q ≠ [] ∧ node_at s q = Some c
    ∧ Forall (λ n, valid_name n = true) q
    ∧ r = rel +:+ match c with
                  | Dir _ => dir_rel q
                  | File _ => file_rel q
                  end.
Proof.
  induction s as [d|es IH] using node_ind2; intros Hw Hv rel r Hr.
  { by apply elem_of_nil in Hr. }
  apply shown_paths_dir in Hr as ([n c] & He & Hr).
  destruct (wf_entry _ _ _ Hw He) as [Ha Hwc].
  destruct (valid_names_entry _ _ _ Hv He) as [Hn Hvc].
  simpl in Hr. destruct Hr as [->|Hr].
  - exists [n], c. split; [done|]. split; [by simpl; rewrite Ha|].
    split; [by constructor|]. unfold entry_rel. simpl. by destruct c.
  - pose proof (proj1 (Forall_forall _ _) IH _ He Hwc Hvc _ _ Hr)
      as (q & c' & Hq & Hc' & Hvq & ->).
    exists (n :: q), c'. split; [done|]. split; [by simpl; rewrite Ha|].
    split; [by constructor|]. unfold entry_rel. cbn [fst snd].
    destruct c as [d|es'].
    { by destruct q. }
    rewrite !append_assoc. f_equal.
    destruct c'; [by rewrite file_rel_cons|done].
Qed.

(** The paths collected from a populated tree have their sources. *)
Lemma checked_paths_entries cfg t game_saved es root :
  node_at t game_saved = Some (Dir es) →
  wf (Dir es) = true → valid_names (Dir es) = true →
  populate_tree lower cfg t game_saved = inl root →
  ∀ r, r ∈ get_checked_paths root →
    plain r = true
    ∧ path_exists t (joinpath game_saved (rstrip_slash r)) = true.
Proof.
  intros Hd Hw Hv Hp r Hr.
  destruct (checked_populate_tree lower cfg t game_saved es Hd)
    as (root0 & Hp0 & Hc).
  rewrite Hp in Hp0. injection Hp0 as <-. rewrite Hc in Hr.
  apply list_elem_of_filter in Hr as [_ Hr].
  destruct (shown_paths_names (Dir es) Hw Hv "" r Hr)
    as (q & c & Hq & Hc' & Hvq & ->).
  rewrite append_nil_l.
  assert (rstrip_slash match c with
                       | Dir _ => dir_rel q
                       | File _ => file_rel q
                       end = file_rel q) as Hs.
  { destruct c; [by apply rstrip_slash_file_rel|by apply rstrip_slash_dir_rel]. }
  destruct (plain_of_names _ q Hq Hvq Hs) as [Hpl Hj].
  split; [done|]. unfold path_exists. by rewrite Hj, node_at_app, Hd; simpl; rewrite Hc'.
Qed.

End Populate.

End PathFacts.


(** * The claims of the specification *)

Import FS Lib PathStr Progress CopyWorker Slots Spec Examples.
Import FSFacts RelFacts LibFacts MergeFacts CopyFacts RunFacts RunFacts2.
Import RunFacts3 FloatFacts SlotFacts SlotFacts2 TreeFacts.

(** C1, as stated, fails: with the source file [db/a] and the
    destination directory [db/a] that holds the file [a], the copy of
    [db/] goes through and overwrites [db/a/a], a destination file that
    the source subtree does not have. *)
Lemma nested_file_overwritten :
  node_at nested_fs (src_of db_only "db/" ++ ["a"; "a"]) = None
  ∧ node_at nested_fs (dst_of db_only "db/" ++ ["a"; "a"])
    = Some (File (text "old"))
  ∧ succeeded (run db_only nested_fs).1 = true
  ∧ node_at (run db_only nested_fs).2 (dst_of db_only "db/" ++ ["a"; "a"])
    = Some (File (text "new")).
Proof. vm_compute. repeat split; reflexivity. Qed.

(** C1, amended: for source and destination roots that do not overlap, a
    list of relative paths without [..] and a listed path [p] whose
    source is a directory, a destination file below [p] is the same after
    [run], however [run] ends, unless the source has a file at that
    place or the file is the entry [n] of a destination directory that
    stands where the source has a file named [n]; and when [run]
    succeeds, every destination file that the source subtree also has as
    a file holds the source content. *)
Theorem run_merges_directory (w : worker) (t : node) (p : string)
    (es : list (string * node)) :
  disjoint (source_base w) (dest_base w) →
  Forall (λ p, plain p = true) (paths w) →
  wf t = true →
  p ∈ paths w →
  node_at t (src_of w p) = Some (Dir es) →
  (∀ q x, node_at t (dst_of w p ++ q) = Some (File x) →
     is_file (Dir es) q = false → ¬ nested_in_file (Dir es) q →
     node_at (run w t).2 (dst_of w p ++ q) = Some (File x))
  ∧ (succeeded (run w t).1 = true →
     ∀ q x y, node_at (Dir es) q = Some (File x) →
       node_at t (dst_of w p ++ q) = Some (File y) →
       node_at (run w t).2 (dst_of w p ++ q) = Some (File x)).
Proof.
  intros Hd Hpl Hw Hin Hsrc. unfold run, src_of, dst_of in *.
  pose proof (proj1 (Forall_forall _ _) Hpl _ Hin) as Hp.
  rewrite plain_joinpath in * by done.
  set (c := parts (rstrip_slash p)) in *.
  destruct (run_from _ _ _ _ _ t) as [evs t'] eqn:Hr. simpl.
  rewrite node_at_app in Hsrc.
  destruct (node_at t (source_base w)) as [s0|] eqn:HS; [|done].
  simpl in Hsrc. pose proof (wf_node_at _ _ _ Hw HS) as Hw0.
  destruct (run_from_merged _ _ _ Hd _ _ _ _ _ _ Hw0 HS Hpl Hr) as (_ & M & _).
  split.
  - intros q x Hq Hnf Hnn. destruct M as [_ K Mf _].
    specialize (K ((dest_base w ++ c) ++ q)). rewrite Hq in K.
    destruct K as [y Hy]. rewrite Hy. f_equal. f_equal.
    rewrite <- app_assoc in Hy, Hq.
    destruct (Mf _ _ Hy) as [H|[H|(q' & n & Heq & Hl & Hs & Hdir)]].
    + congruence.
    + rewrite node_at_app, Hsrc in H. simpl in H. unfold is_file in Hnf.
      by rewrite H in Hnf.
    + destruct (snoc_eq_app _ _ _ _ Heq) as [[-> Hc]|(q0 & -> & ->)].
      * rewrite Hc, node_at_app, Hs in Hsrc. done.
      * destruct Hnn. rewrite node_at_app, Hsrc in Hs. simpl in Hs.
        exists q0, n. split; [done|]. unfold is_file. rewrite Hs.
        split; [|done]. rewrite app_assoc in Hl.
        eapply last_default_app; [|done]. by destruct q0.
  - intros Hok q x y Hq Hdst.
    destruct (run_from_reaches _ _ _ Hd _ _ _ _ _ _ p _ Hw0 HS Hpl Hr Hok Hin Hsrc)
      as (t1 & t2 & M1 & HS1 & Hc & M2).
    rewrite !plain_joinpath in Hc by done. fold c in Hc.
    pose proof (wf_node_at _ _ _ Hw0 Hsrc) as Hws.
    pose proof (copy_one_copied _ _ _ _ _ Hws Hc _ _ Hq) as Ht2.
    assert (is_dir t1 ((dest_base w ++ c) ++ q) = false) as Hnd.
    { destruct M1 as [_ K _ _]. specialize (K ((dest_base w ++ c) ++ q)).
      rewrite Hdst in K. destruct K as [z Hz]. unfold is_dir. by rewrite Hz. }
    unfold target in Ht2. rewrite Hnd in Ht2.
    destruct M2 as [_ K Mf _].
    specialize (K ((dest_base w ++ c) ++ q)). rewrite Ht2 in K.
    destruct K as [z Hz]. rewrite Hz. f_equal. f_equal.
    rewrite <- app_assoc in Hz, Ht2.
    destruct (Mf _ _ Hz) as [H|[H|(q' & n & Heq & Hl & Hs & Hdir)]].
    + congruence.
    + rewrite node_at_app, Hsrc in H. simpl in H. congruence.
    + assert (node_at s0 (q' ++ [n]) = Some (File x)) as Hx.
      { rewrite <- Heq, node_at_app, Hsrc. done. }
      rewrite node_at_app, Hs in Hx. done.
Qed.

Lemma run_merges_directory_witness :
  node_at (run db_only merge_fs).2 ["slot"; "db"; "keep.txt"]
    = Some (File (text "mine"))
  ∧ node_at (run db_only merge_fs).2 ["slot"; "db"; "a.txt"]
    = Some (File (text "hello")).
Proof.
  assert (disjoint (source_base db_only) (dest_base db_only)) as Hd.
  { split; intros [k Hk]; discriminate Hk. }
  assert (Forall (λ p, plain p = true) (paths db_only)) as Hpl.
  { repeat constructor. }
  assert ("db/" ∈ paths db_only) as Hin.
  { constructor. }
  destruct (run_merges_directory db_only merge_fs "db/"
              [("a.txt", File (text "hello"))] Hd Hpl eq_refl Hin eq_refl)
    as [Hkeep Hcopy].
  split.
  - apply (Hkeep ["keep.txt"] (text "mine") eq_refl eq_refl).
    intros (q' & n & Hq & Hl & Hf). destruct q' as [|a q'].
    + discriminate Hl.
    + destruct q'; discriminate Hq.
  - apply (Hcopy eq_refl ["a.txt"] (text "hello") (text "older") eq_refl eq_refl).
Defined.

(** C2: for source and destination roots that do not overlap and
    relative paths without [..], when the paths before [p] go through
    and the copy of [p] raises [e], [run] emits what it had emitted,
    then the error with [p] and [e] and [finished false], and leaves
    the tree the failed copy left: nothing after [p] is looked at and
    nothing is rolled back. *)
Theorem run_aborts_at_failure (w : worker) (t : node)
    (before after : list string) (p : string)
    (evs0 : list event) (t1 t2 : node) (s : node) (e : exn) :
  disjoint (source_base w) (dest_base w) →
  Forall (λ p, plain p = true) (paths w) →
  paths w = before ++ p :: after →
  run_from (source_base w) (dest_base w) (length (paths w)) 0 before t
    = (evs0 ++ [finished true], t1) →
  node_at t1 (src_of w p) = Some s →
  copy_one s (src_of w p) (dst_of w p) t1 = (t2, Some e) →
  run w t = (evs0 ++ [error p e; finished false], t2).
Proof.
  intros _ _ Hp Hb Hs Hc. unfold run. rewrite Hp at 2.
  rewrite (run_from_app _ _ _ _ _ _ _ _ _ Hb), run_from_cons. cbn zeta.
  unfold src_of, dst_of in *. by rewrite Hs, Hc.
Qed.

Lemma run_aborts_at_failure_witness :
  run blocked blocked_fs
  = ([progress 33] ++ [error "db/" blocked_cause; finished false], blocked_end)
  ∧ node_at blocked_end ["slot"; "log.txt"] = Some (File (text "abc"))
  ∧ node_at blocked_end ["slot"; "z"] = None.
Proof.
  split; [|split; reflexivity].
  apply (run_aborts_at_failure blocked blocked_fs ["log.txt"] ["z"] "db/"
           [progress 33] blocked_mid blocked_end
           (Dir [("c", Dir [("x", File (text "1"))]); ("d", File (text "2"))])
           blocked_cause).
  - split; intros [k Hk]; discriminate Hk.
  - repeat constructor.
  - reflexivity.
  - vm_compute. reflexivity.
  - vm_compute. reflexivity.
  - vm_compute. reflexivity.
Defined.








(** C6: [get_checked_paths] returns, in depth-first order with a parent
    before its children, the data of the checked items that have a
    non-empty one; an item that is not checked gives what its children
    give; a checked item without a checked item below gives its own path
    only; and one checked child without children, below an unchecked
    parent and beside subtrees without a checked item, gives the path of
    the child only. *)
Theorem checked_paths_independent :
  (∀ root, Tree.get_checked_paths root
             = flat_map Tree.collected (preorder root))
  ∧ (∀ st d cs, st ≠ Tree.Checked →
       Tree.get_checked_paths (Tree.Item st d cs)
       = flat_map Tree.get_checked_paths cs)
  ∧ (∀ rel cs, rel ≠ "" →
       Forall (λ c, Forall (λ i, Tree.checkState i ≠ Tree.Checked)
                      (preorder c)) cs →
       Tree.get_checked_paths (Tree.Item Tree.Checked (Some rel) cs) = [rel])
  ∧ (∀ pst prel rel before after,
       pst ≠ Tree.Checked → rel ≠ "" →
       Forall (λ c, Forall (λ i, Tree.checkState i ≠ Tree.Checked)
                      (preorder c)) (before ++ after) →
       Tree.get_checked_paths
         (Tree.Item pst prel
            (before ++ Tree.Item Tree.Checked (Some rel) [] :: after))
       = [rel]).
Proof.
  assert (∀ cs, Forall (λ c, Forall (λ i, Tree.checkState i ≠ Tree.Checked)
                               (preorder c)) cs →
            flat_map Tree.recurse cs = []) as Hnone.
  { intros cs H. induction H as [|c r Hc _ IH]; simpl; [done|].
    rewrite IH, app_nil_r, recurse_preorder.
    induction Hc as [|i l Hi _ IHl]; simpl; [done|]. rewrite IHl, app_nil_r.
    unfold Tree.collected. by destruct (Tree.checkState i). }
  unfold Tree.get_checked_paths. split; [apply recurse_preorder|].
  split; [|split].
  - intros st d cs Hst. rewrite recurse_item. unfold Tree.collected. simpl.
    by destruct st.
  - intros rel cs Hrel Hcs. rewrite recurse_item, Hnone by done.
    unfold Tree.collected. simpl. apply String.eqb_neq in Hrel.
    by rewrite Hrel.
  - intros pst prel rel before after Hp Hrel Hcs.
    apply Forall_app in Hcs as [Hb Ha].
    rewrite recurse_item, flat_map_app. simpl.
    rewrite !Hnone by done. unfold Tree.collected. simpl.
    apply String.eqb_neq in Hrel. rewrite Hrel. by destruct pst.
Qed.

Lemma checked_paths_independent_witness :
  Tree.get_checked_paths child_checked = ["db/a.txt"]
  ∧ Tree.get_checked_paths
      (Tree.Item Tree.Checked (Some "db/")
         [Tree.Item Tree.Unchecked (Some "db/a.txt") []]) = ["db/"].
Proof.
  destruct checked_paths_independent as (_ & Hskip & Hparent & Hchild).
  split.
  - unfold child_checked. rewrite (Hskip Tree.Unchecked None); [|discriminate].
    cbn [flat_map]. rewrite app_nil_r.
    apply (Hchild Tree.Unchecked (Some "db/") "db/a.txt" []
             [Tree.Item Tree.Unchecked (Some "db/b.txt") []]);
      [discriminate|discriminate|].
    repeat constructor; discriminate.
  - apply Hparent; [discriminate|]. repeat constructor; discriminate.
Defined.






(** C9, as stated, fails: with the destination root [game/bak] inside
    the source root [game], the run that copies the regular file
    [log.txt] succeeds and leaves the source root with an entry it did
    not have, the directory [bak] that [Path.mkdir] makes for the copy,
    holding the copy. *)
Lemma source_root_modified :
  succeeded (run inside scenario_fs).1 = true
  ∧ node_at scenario_fs (source_base inside ++ ["bak"]) = None
  ∧ node_at (run inside scenario_fs).2 (source_base inside ++ ["bak"])
    = Some (Dir [("log.txt", File (text "abc"))])
  ∧ node_at (run inside scenario_fs).2 (source_base inside)
    = Some (Dir [("db", Dir [("a.txt", File (text "hello"))]);
                 ("log.txt", File (text "abc"));
                 ("bak", Dir [("log.txt", File (text "abc"))])]).
Proof. vm_compute. repeat split; reflexivity. Qed.

(** C9, amended: for source and destination roots that do not overlap and
    relative paths without [..], however [run] ends: a path outside the
    resolved destinations that is not above one of them holds the very
    same node afterwards; a path above a destination keeps its file, or
    is still a directory, or was missing and is missing or has become a
    directory; and the source root holds the same tree. *)
Theorem run_frame (w : worker) (t : node) :
  disjoint (source_base w) (dest_base w) →
  Forall (λ p, plain p = true) (paths w) →
  wf t = true →
  frame (map (dst_of w) (paths w)) t (run w t).2
  ∧ node_at (run w t).2 (source_base w) = node_at t (source_base w).
Proof.
  intros Hd Hpl Hw. unfold run.
  destruct (run_from _ _ _ _ _ t) as [evs t'] eqn:Hr. simpl.
  destruct (node_at t (source_base w)) as [s0|] eqn:HS.
  - pose proof (wf_node_at _ _ _ Hw HS) as Hw0.
    destruct (run_from_merged _ _ _ Hd _ _ _ _ _ _ Hw0 HS Hpl Hr) as (F & _ & HS').
    done.
  - pose proof (run_from_no_source _ _ _ _ _ _ _ _ HS Hpl Hr) as ->.
    split; [apply frame_refl|done].
Qed.

Lemma run_frame_witness :
  frame (map (dst_of blocked) (paths blocked)) blocked_fs
    (run blocked blocked_fs).2
  ∧ node_at (run blocked blocked_fs).2 ["game"] = node_at blocked_fs ["game"].
Proof.
  apply (run_frame blocked blocked_fs).
  - split; intros [k Hk]; discriminate Hk.
  - repeat constructor.
  - reflexivity.
Defined.

(** C10: when the metadata file of a slot is read and parses to a value
    that is not an object with a ["mode"] member, [get_save_mode]
    returns ["Unknown"]. *)
Theorem mode_key_missing (json_load : bytes → option json) (t : node)
    (save_dir : path) (text : bytes) (v : json) :
  read_file t (save_dir ++ ["metadata.json"]) = inl text →
  json_load text = Some v →
  (∀ members, v = JObj members → "mode" ∉ members.*1) →
  get_save_mode json_load t save_dir = Unknown.
Proof.
  intros Hr Hl Hk. unfold get_save_mode.
  rewrite Hr, Hl. destruct (path_exists _ _); [|done].
  destruct v as [| | | | | |members]; try done.
  by rewrite (proj2 (dict_get_None _ _) (Hk _ eq_refl)).
Qed.

Lemma mode_key_missing_witness :
  get_save_mode other_load tagged_fs ["saved"; "s"] = Unknown.
Proof.
  apply (mode_key_missing other_load tagged_fs ["saved"; "s"]
           (Examples.text "{}") (JObj [("kind", JStr "x")])).
  - reflexivity.
  - reflexivity.
  - intros members [= <-]. simpl. intros [H|H]%elem_of_cons.
    + discriminate H.
    + by apply elem_of_nil in H.
Defined.

(** * Further properties of the code *)

Import FS Lib PathStr Progress CopyWorker Slots Spec Examples.
Import Window Populate Steam Props Examples2.
Import FSFacts RelFacts LibFacts MergeFacts CopyFacts RunFacts RunFacts2.
Import RunFacts3 FloatFacts SlotFacts SlotFacts2 TreeFacts RunFacts4.
Import DeleteFacts SlotFacts3 PopulateFacts SlotFacts4 PathFacts.

(** X1: for roots that do not overlap and relative paths without [..],
    a run that succeeds has copied every regular file below a listed
    path: the destination holds the same bytes at the same relative
    place, unless a directory stood at that place of the destination. *)
Theorem run_copies_files (w : worker) (t : node) (p : string) (q : path)
    (x : bytes) :
  disjoint (source_base w) (dest_base w) →
  Forall (λ p, plain p = true) (paths w) →
  wf t = true →
  p ∈ paths w →
  succeeded (run w t).1 = true →
  node_at t (src_of w p ++ q) = Some (File x) →
  is_dir t (dst_of w p ++ q) = false →
  node_at (run w t).2 (dst_of w p ++ q) = Some (File x).
Proof.
  intros Hd Hpl Hw Hin. unfold src_of, dst_of.
  pose proof (proj1 (Forall_forall _ _) Hpl _ Hin) as Hp.
  rewrite !plain_joinpath by done. rewrite <- !app_assoc.
  by apply run_copied.
Qed.

Lemma run_copies_files_witness :
  node_at (run scenario scenario_fs).2 ["slot"; "db"; "a.txt"]
  = Some (File (text "hello")).
Proof.
  apply (run_copies_files scenario scenario_fs "db/" ["a.txt"] (text "hello")).
  - split; intros [k Hk]; discriminate Hk.
  - repeat constructor.
  - reflexivity.
  - constructor.
  - reflexivity.
  - reflexivity.
  - reflexivity.
Defined.

(** X2: the events of [run] are reports and warnings, one for each path
    gone through, followed either by [finished true], when every listed
    path was gone through, or by the error of the next listed path and
    [finished false]: there is one terminal signal, it comes last, and
    an error comes only right before it. *)
Theorem run_ends_once (w : worker) (t : node) :
  ∃ body, Forall quiet body ∧
    (((run w t).1 = body ++ [finished true]
      ∧ length body = length (paths w))
     ∨ ∃ p e, (run w t).1 = body ++ [error p e; finished false]
         ∧ paths w !! length body = Some p).
Proof.
  unfold run. destruct (run_from _ _ _ _ _ t) as [evs t'] eqn:Hr. simpl.
  destruct (run_from_events _ _ _ _ _ _ _ _ Hr) as (body & Hq & _ & H).
  by exists body.
Qed.

(** X3: for roots that do not overlap, relative paths without [..] and
    fewer than [2 ^ 48] paths, 100 is reported only when the source of
    the last listed path exists: a run whose last path is skipped ends
    without the report of 100, also when it succeeds. *)
Theorem full_report_needs_last_source (w : worker) (t : node) :
  disjoint (source_base w) (dest_base w) →
  Forall (λ p, plain p = true) (paths w) →
  wf t = true →
  (Z.of_nat (length (paths w)) < 2 ^ 48)%Z →
  100%Z ∈ progress_values (run w t).1 →
  ∃ p, last (paths w) = Some p ∧ path_exists t (src_of w p) = true.
Proof.
  intros Hd Hpl Hw Hb. unfold run, src_of.
  destruct (run_from _ _ _ _ _ t) as [evs t'] eqn:Hr. simpl.
  intros H100. unfold progress_values in H100.
  apply list_elem_of_omap in H100 as (e & He & Hv).
  destruct e as [v| | |]; try done. injection Hv as ->.
  apply list_elem_of_lookup in He as [j Hj].
  destruct (run_from_progress (source_base w) (dest_base w)
              (length (paths w)) 0 (paths w) t evs t' eq_refl Hb Hr)
    as (_ & _ & _ & Hpos).
  destruct (Hpos _ _ Hj) as [Hlt Hv]. simpl in Hlt, Hv.
  assert (j + 1 = length (paths w)) as Hlast.
  { destruct (decide (j + 1 < length (paths w))%nat) as [Hlt'|]; [|lia].
    pose proof (percent_full (j + 1) _ ltac:(lia) Hlt' Hb). lia. }
  destruct (run_from_progress_source _ _ _ Hd _ _ _ _ _
              ltac:(intros s0 H0; by eapply wf_node_at) Hpl Hr _ _ Hj)
    as (p & Hp & He).
  exists p. split; [|done]. rewrite last_lookup.
  by replace (pred (length (paths w))) with j by lia.
Qed.

Lemma full_report_needs_last_source_witness :
  ∃ p, last (paths scenario) = Some p
    ∧ path_exists scenario_fs (src_of scenario p) = true.
Proof.
  apply (full_report_needs_last_source scenario scenario_fs).
  - split; intros [k Hk]; discriminate Hk.
  - repeat constructor.
  - reflexivity.
  - reflexivity.
  - replace (progress_values (run scenario scenario_fs).1) with [50; 100]%Z
      by (vm_compute; reflexivity).
    apply list_elem_of_further, list_elem_of_here.
Defined.


(** X4: a load gives back what the backup took.  For a selected slot
    whose name is a valid entry name (not empty, not [.] or [..],
    without a slash), a game root and a slot directory that do not
    overlap, configured paths that are relative and without [..], and
    trees that hold each name once: when the backup into the slot has
    succeeded and the slot is still as the backup left it, [load_save],
    once confirmed, starts a copy from the slot into the game root, and
    when that copy succeeds a game file below a configured path holds
    the bytes it held at the backup, whatever was done to the game
    files in between, provided that no directory stood at the place of
    the file in the slot when the backup started and that none stands
    at its place in the game root when the load starts. *)
Theorem load_restores_backup (game_saved saved_dir : path) (w : window)
    (n : string) (t later : node) (p : string) (q : path) (x : bytes) :
  disjoint game_saved (saved_dir ++ [n]) →
  Forall (λ p, plain p = true) (config_paths w) →
  wf t = true → wf later = true →
  current_save w = Some n → valid_name n = true →
  succeeded
    (run {| source_base := game_saved; dest_base := saved_dir ++ [n];
            paths := config_paths w |} t).1 = true →
  node_at later (saved_dir ++ [n])
  = node_at
      (run {| source_base := game_saved; dest_base := saved_dir ++ [n];
              paths := config_paths w |} t).2 (saved_dir ++ [n]) →
  p ∈ config_paths w →
  node_at t (game_saved ++ parts (rstrip_slash p) ++ q) = Some (File x) →
  is_dir t (saved_dir ++ [n] ++ parts (rstrip_slash p) ++ q) = false →
  is_dir later (game_saved ++ parts (rstrip_slash p) ++ q) = false →
  ∃ title worker,
    (load_save saved_dir game_saved true w).2 = copying title worker
    ∧ source_base worker = saved_dir ++ [n]
    ∧ dest_base worker = game_saved
    ∧ (succeeded (run worker later).1 = true →
       node_at (run worker later).2
         (game_saved ++ parts (rstrip_slash p) ++ q) = Some (File x)).
Proof.
  intros Hd Hpl Hw Hw2 Hcur Hv Hok1 Hslot Hin Hq Hnd Hnd2.
  pose proof (joinpath_name saved_dir n Hv) as Hj.
  apply valid_name_inv in Hv as (Hname & _).
  unfold load_save. rewrite Hcur, Hj. destruct n as [|a n]; [done|].
  set (slot := saved_dir ++ [String a n]) in *.
  simpl. eexists _, _. split; [done|]. split; [done|].
  split; [done|]. unfold run in *. simpl in *.
  destruct (run_from game_saved _ _ _ _ t) as [evs1 t1] eqn:Hr1.
  destruct (run_from slot _ _ _ _ later) as [evs2 t3] eqn:Hr2.
  simpl in *. intros Hok2.
  assert (is_dir t (slot ++ parts (rstrip_slash p) ++ q) = false)
    as Hnd' by (unfold slot; by rewrite <- app_assoc).
  apply (backup_then_load game_saved slot (config_paths w) _ _
           t t1 later t3 evs1 evs2 p q x Hd Hpl Hw Hw2 Hr1 Hok1 Hslot Hr2 Hok2
           Hin Hq Hnd' Hnd2).
Qed.

Lemma load_restores_backup_witness :
  ∃ title worker,
    (load_save [] ["game"] true scenario_window).2 = copying title worker
    ∧ source_base worker = ["slot"]
    ∧ dest_base worker = ["game"]
    ∧ (succeeded (run worker played_fs).1 = true →
       node_at (run worker played_fs).2 ["game"; "db"; "a.txt"]
       = Some (File (text "hello"))).
Proof.
  apply (load_restores_backup ["game"] [] scenario_window "slot"
           scenario_fs played_fs "db/" ["a.txt"] (text "hello")).
  - split; intros [k Hk]; discriminate Hk.
  - repeat constructor.
  - reflexivity.
  - reflexivity.
  - reflexivity.
  - reflexivity.
  - reflexivity.
  - reflexivity.
  - constructor.
  - reflexivity.
  - reflexivity.
  - reflexivity.
Defined.

(** X5: [DeleteWorker.run] on a directory that is not the root emits
    [finished true]; afterwards nothing exists at the path or below it,
    every path that is neither above nor below it holds the same node,
    and the directories above it are still directories. *)
Theorem delete_removes_directory (p : path) (t : node) :
  p ≠ [] → is_dir t p = true →
  (DeleteWorker.run p t).1 = [DeleteWorker.finished true]
  ∧ (∀ r, node_at (DeleteWorker.run p t).2 (p ++ r) = None)
  ∧ (∀ q, ¬ p `prefix_of` q → ¬ q `prefix_of` p →
       node_at (DeleteWorker.run p t).2 q = node_at t q)
  ∧ (∀ q, q `prefix_of` p → q ≠ p →
       is_dir (DeleteWorker.run p t).2 q = true).
Proof.
  intros Hp Hd. unfold DeleteWorker.run.
  destruct (rmtree_dir p t Hp Hd) as (t' & -> & H). done.
Qed.

Lemma delete_removes_directory_witness :
  (DeleteWorker.run ["saved"; "broken"] saved_fs).1
    = [DeleteWorker.finished true]
  ∧ node_at (DeleteWorker.run ["saved"; "broken"] saved_fs).2
      ["saved"; "broken"; "metadata.json"] = None
  ∧ node_at (DeleteWorker.run ["saved"; "broken"] saved_fs).2 ["saved"; "s"]
    = Some (Dir []).
Proof.
  destruct (delete_removes_directory ["saved"; "broken"] saved_fs)
    as (Hev & Hgone & Hbeside & _); [discriminate|reflexivity|].
  split; [exact Hev|]. split.
  - apply (Hgone ["metadata.json"]).
  - rewrite Hbeside; [reflexivity|intros [k Hk]; discriminate Hk..].
Defined.

(** X6: [DeleteWorker.run] on a path that is not the root and not a
    directory (nothing there, or a regular file) logs the error of
    [rmtree], which is [ENOENT] or [ENOTDIR] with that path, emits
    [finished false] and leaves the tree as it is. *)
Theorem delete_fails_off_directory (p : path) (t : node) :
  p ≠ [] → is_dir t p = false →
  ∃ e, (e = ENOENT ∨ e = ENOTDIR)
    ∧ DeleteWorker.run p t
      = ([DeleteWorker.logged (DeleteWorker.rm_oserror (OSErr e p));
          DeleteWorker.finished false], t).
Proof.
  intros Hp Hd. unfold DeleteWorker.run.
  destruct (rmtree_not_dir p t Hp Hd) as (e & He & ->). eauto.
Qed.

Lemma delete_fails_off_directory_witness :
  ∃ e, (e = ENOENT ∨ e = ENOTDIR)
    ∧ DeleteWorker.run ["saved"; "notes"] saved_fs
      = ([DeleteWorker.logged
            (DeleteWorker.rm_oserror (OSErr e ["saved"; "notes"]));
          DeleteWorker.finished false], saved_fs).
Proof.
  apply (delete_fails_off_directory ["saved"; "notes"] saved_fs);
    [discriminate|reflexivity].
Defined.

(** X7: deleting the selected slot.  With a slot selected whose
    directory exists, [delete_save], once confirmed, starts the delete
    worker on that directory; the worker succeeds; and
    [on_delete_finished] then clears the selection, leaves the delete
    button disabled and shows the listing of before without the row of
    the slot, every other row in its place and as it was. *)
Theorem deleted_slot_leaves_listing (json_load : bytes → option json)
    (st_mtime : path → Z) (strftime : Z → option string)
    (size_str : nat → string) (QTableWidgetItem : json → option string)
    (saved_dir : path) (w : window) (name n : string) (t : node)
    (l : listing) :
  current_save w = Some name → name ≠ "" →
  joinpath saved_dir name = saved_dir ++ [n] →
  is_dir t (saved_dir ++ [n]) = true →
  refresh_saves json_load st_mtime strftime size_str QTableWidgetItem
    t saved_dir = inl l →
  (delete_save saved_dir true w).2 = deleting (saved_dir ++ [n])
  ∧ (DeleteWorker.run (saved_dir ++ [n]) t).1 = [DeleteWorker.finished true]
  ∧ current_save
      (on_delete_finished json_load st_mtime strftime size_str
         QTableWidgetItem saved_dir true
         (delete_save saved_dir true w).1
         (DeleteWorker.run (saved_dir ++ [n]) t).2).1 = None
  ∧ delete_btn
      (on_delete_finished json_load st_mtime strftime size_str
         QTableWidgetItem saved_dir true
         (delete_save saved_dir true w).1
         (DeleteWorker.run (saved_dir ++ [n]) t).2).1 = false
  ∧ (on_delete_finished json_load st_mtime strftime size_str QTableWidgetItem
       saved_dir true (delete_save saved_dir true w).1
       (DeleteWorker.run (saved_dir ++ [n]) t).2).2
    = Some (inl {| table := filter (λ r, row_name r ≠ n) (table l);
                   logged := filter (λ p, p ≠ saved_dir ++ [n]) (logged l) |}).
Proof.
  intros Hcur Hname Hj Hd Hl.
  assert (saved_dir ++ [n] ≠ []) as Hne by (by destruct saved_dir).
  destruct (DeleteFacts.rmtree_dir _ t Hne Hd) as (t' & Hrm & Hgone & Hbeside & _).
  unfold delete_save, DeleteWorker.run. rewrite Hcur, Hrm.
  destruct name as [|a name]; [done|]. rewrite Hj. cbn [fst snd].
  split; [done|]. split; [done|].
  unfold on_delete_finished, has_current. cbn. rewrite Hcur. cbn.
  split; [done|]. split; [done|]. f_equal.
  unfold is_dir in Hd. rewrite node_at_app in Hd.
  destruct (node_at t saved_dir) as [[|es]|] eqn:Hsd; try done.
  eapply refresh_saves_without; [done| |  |done].
  - by eapply rmtree_parent.
  - intros m Hm. apply Hbeside.
    + intros [k Hk]. rewrite <- app_assoc in Hk. apply app_inv_head in Hk.
      injection Hk as ->. done.
    + intros [k Hk]. rewrite <- app_assoc in Hk. apply app_inv_head in Hk.
      by injection Hk as ->.
Qed.

Lemma deleted_slot_leaves_listing_witness :
  (on_delete_finished mode_load slot_mtime stamp mb str_item ["saved"] true
     (delete_save ["saved"] true broken_window).1
     (DeleteWorker.run ["saved"; "broken"] saved_fs).2).2
  = Some (inl {| table := [ {| row_name := "s";
                               row_date := "2024-01-01 00:00";
                               row_size := "0.0 MB";
                               row_mode := Some "Unknown" |} ];
                 logged := [] |}).
Proof.
  destruct (deleted_slot_leaves_listing mode_load slot_mtime stamp mb
              str_item ["saved"] broken_window "broken" "broken" saved_fs
              {| table := [ {| row_name := "broken";
                               row_date := "2024-01-01 00:00";
                               row_size := "0.0 MB";
                               row_mode := Some "Unknown" |};
                            {| row_name := "s";
                               row_date := "2024-01-01 00:00";
                               row_size := "0.0 MB";
                               row_mode := Some "Unknown" |} ];
                 logged := [] |})
    as (_ & _ & _ & _ & H);
    [reflexivity|discriminate|reflexivity|reflexivity|reflexivity|].
  exact H.
Defined.

(** X8: what a freshly populated tree has checked.  For a game
    directory, [populate_tree] makes a tree from which
    [get_checked_paths] collects, in the order of the tree, the paths of
    its items that are in the configuration, so that every collected
    path is a configured one; for a missing game directory it makes a
    tree with nothing to collect, whatever the configuration holds; and
    for a regular file in the place of the game directory it raises. *)
Theorem populated_tree_checks_configured (lower : string → string)
    (cfg : list string) (t : node) (game_saved : path) :
  (∀ es, node_at t game_saved = Some (Dir es) →
     ∃ root, populate_tree lower cfg t game_saved = inl root
       ∧ Tree.get_checked_paths root
         = filter (configured cfg) (shown_paths lower (Dir es) "")
       ∧ ∀ r, r ∈ Tree.get_checked_paths root → r ∈ cfg)
  ∧ (node_at t game_saved = None →
     ∃ root, populate_tree lower cfg t game_saved = inl root
       ∧ Tree.get_checked_paths root = [])
  ∧ (∀ d, node_at t game_saved = Some (File d) →
     populate_tree lower cfg t game_saved = inr (OSErr ENOTDIR game_saved)).
Proof.
  split; [|split].
  - intros es Hd.
    destruct (checked_populate_tree lower cfg t game_saved es Hd)
      as (root & Hp & Hc).
    exists root. split; [done|]. split; [done|]. rewrite Hc.
    by intros r [[? _] _]%list_elem_of_filter.
  - intros Hd. unfold populate_tree. rewrite Hd. by eexists.
  - intros d Hd. unfold populate_tree. by rewrite Hd.
Qed.

Lemma populated_tree_checks_configured_witness :
  ∃ root,
    populate_tree ascii_lower ["db/a.txt"; "gone"; "log.txt"] scenario_fs
      ["game"] = inl root
    ∧ Tree.get_checked_paths root = ["db/a.txt"; "log.txt"].
Proof.
  destruct (populated_tree_checks_configured ascii_lower
              ["db/a.txt"; "gone"; "log.txt"] scenario_fs ["game"])
    as (Hdir & _ & _).
  destruct (Hdir _ eq_refl) as (root & Hp & Hc & _).
  exists root. split; [exact Hp|]. rewrite Hc. vm_compute. reflexivity.
Defined.

(** X9: the selection survives a reload.  The paths collected from a
    populated tree, taken as the configuration, populate a tree from
    which the very same paths are collected: saving the configuration
    and building the tree again changes nothing more. *)
Theorem reloaded_selection_is_stable (lower : string → string)
    (cfg : list string) (t : node) (game_saved : path)
    (es : list (string * node)) (root : Tree.item) :
  node_at t game_saved = Some (Dir es) →
  populate_tree lower cfg t game_saved = inl root →
  ∃ root',
    populate_tree lower (Tree.get_checked_paths root) t game_saved = inl root'
    ∧ Tree.get_checked_paths root' = Tree.get_checked_paths root.
Proof.
  intros Hd Hp.
  destruct (checked_populate_tree lower cfg t game_saved es Hd)
    as (root0 & Hp0 & Hc).
  rewrite Hp in Hp0. injection Hp0 as <-.
  destruct (checked_populate_tree lower (Tree.get_checked_paths root)
              t game_saved es Hd) as (root' & Hp' & Hc').
  exists root'. split; [done|]. rewrite Hc', Hc.
  apply filter_configured_again.
Qed.

Lemma reloaded_selection_is_stable_witness :
  ∃ root',
    populate_tree ascii_lower (Tree.get_checked_paths scenario_root)
      scenario_fs ["game"] = inl root'
    ∧ Tree.get_checked_paths root' = Tree.get_checked_paths scenario_root.
Proof.
  apply (reloaded_selection_is_stable ascii_lower
           ["db/a.txt"; "gone"; "log.txt"] scenario_fs ["game"]
           [("db", Dir [("a.txt", File (text "hello"))]);
            ("log.txt", File (text "abc"))]).
  - reflexivity.
  - vm_compute. reflexivity.
Defined.

(** X10: what [load_config] can return.  The value is always one [len]
    accepts (an array, an object or a string), so a number, a boolean
    or [null] in the file loads as the empty list; a value other than
    the empty list is what the file parses to; and an object or a
    string in the file is returned as it is, although it is no list of
    paths. *)
Theorem load_config_sized (json_load : bytes → option json) (t : node)
    (config_path : path) :
  Config.has_len (Config.load_config json_load t config_path) = true
  ∧ (Config.load_config json_load t config_path ≠ JArr [] →
     ∃ text, read_file t config_path = inl text
       ∧ json_load text = Some (Config.load_config json_load t config_path))
  ∧ (∀ text v, read_file t config_path = inl text →
       json_load text = Some v → Config.has_len v = true →
       Config.load_config json_load t config_path = v).
Proof.
  unfold Config.load_config, path_exists, read_file.
  destruct (node_at t config_path) as [[data|es]|]; simpl; try done.
  destruct (json_load data) as [v|] eqn:E; simpl.
  2:{ split; [done|]. split; [done|]. intros text v [= <-]. by rewrite E. }
  destruct (Config.has_len v) eqn:Hv; simpl.
  - split; [done|]. split; [by exists data|].
    by intros text v' [= <-]; rewrite E; intros [= <-].
  - split; [done|]. split; [done|].
    intros text v' [= <-]. rewrite E. intros [= <-]. congruence.
Qed.

Lemma load_config_sized_witness :
  Config.has_len
    (Config.load_config (λ _, Some (JInt 7)) app_fs ["app"; "config.json"])
  = true
  ∧ Config.load_config (λ _, Some (JObj [])) app_fs ["app"; "config.json"]
    = JObj [].
Proof.
  split.
  - apply (load_config_sized (λ _, Some (JInt 7)) app_fs
             ["app"; "config.json"]).
  - destruct (load_config_sized (λ _, Some (JObj [])) app_fs
                ["app"; "config.json"]) as (_ & _ & Hsame).
    apply (Hsame (text "7")); reflexivity.
Defined.

(** X11: a saved configuration loads back.  In an existing directory,
    with a configuration path that is not a directory and a [json]
    module that writes and reads back the list, [save_config] reports no
    error and [load_config] then returns the list of the checked paths,
    which is also what [save_config] keeps in memory.  When the write
    fails the tree is as it was, and the checked paths are kept in
    memory all the same. *)
Theorem saved_config_loads_back (json_load : bytes → option json)
    (json_dump : json → bytes) (root : Tree.item) (t : node)
    (game_saved d : path) (n : string) :
  (json_load (json_dump (JArr (List.map JStr (Tree.get_checked_paths root))))
     = Some (JArr (List.map JStr (Tree.get_checked_paths root))) →
   is_dir t d = true → is_dir t (d ++ [n]) = false →
   Config.write_error (Config.save_config json_dump root t game_saved (d ++ [n]))
     = None
   ∧ Config.load_config json_load
       (Config.new_tree
          (Config.save_config json_dump root t game_saved (d ++ [n])))
       (d ++ [n])
     = JArr (List.map JStr
               (Config.new_paths
                  (Config.save_config json_dump root t game_saved (d ++ [n])))))
  ∧ Config.new_paths (Config.save_config json_dump root t game_saved (d ++ [n]))
    = Tree.get_checked_paths root
  ∧ (Config.write_error
       (Config.save_config json_dump root t game_saved (d ++ [n])) ≠ None →
     Config.new_tree (Config.save_config json_dump root t game_saved (d ++ [n]))
     = t).
Proof.
  unfold Config.save_config. split; [|split].
  - intros Hrt Hd Hn.
    destruct (write_file_entry t d n
                (json_dump (JArr (List.map JStr (Tree.get_checked_paths root))))
                Hd Hn) as [t' Hw].
    rewrite Hw. simpl. split; [done|].
    unfold Config.load_config, path_exists.
    rewrite (read_file_written _ _ _ _ Hw).
    destruct (write_file_here _ _ _ _ Hw) as [_ ->]. by rewrite Hrt.
  - by destruct (raised _ t).
  - destruct (write_file t (d ++ [n]) _) as [t'|e]; simpl; done.
Qed.

Lemma saved_config_loads_back_witness :
  Config.load_config list_load
    (Config.new_tree
       (Config.save_config list_dump scenario_root app_fs ["game"]
          ["app"; "config.json"]))
    ["app"; "config.json"]
  = JArr [JStr "db/a.txt"; JStr "log.txt"].
Proof.
  destruct (saved_config_loads_back list_load list_dump scenario_root app_fs
              ["game"] ["app"] "config.json") as (Hok & _ & _).
  destruct Hok as [_ Hload]; [reflexivity..|].
  exact Hload.
Defined.

(** X12: [save_metadata] touches the metadata file of its slot and
    nothing else: every path that is neither that file, nor above it,
    nor below it holds the same node afterwards, so the mode of every
    other slot of the slots root is what it was; and when the write
    fails the tree is the same. *)
Theorem set_mode_touches_metadata_only (json_load : bytes → option json)
    (json_dump : json → bytes) (t : node) (saved_dir : path) (a : string)
    (mode : string) :
  (∀ q, ¬ saved_dir ++ [a; "metadata.json"] `prefix_of` q →
        ¬ q `prefix_of` saved_dir ++ [a; "metadata.json"] →
     node_at (save_metadata json_dump t (saved_dir ++ [a]) mode).1 q
     = node_at t q)
  ∧ (∀ b, a ≠ b →
     get_save_mode json_load
       (save_metadata json_dump t (saved_dir ++ [a]) mode).1 (saved_dir ++ [b])
     = get_save_mode json_load t (saved_dir ++ [b]))
  ∧ ((save_metadata json_dump t (saved_dir ++ [a]) mode).2 ≠ None →
     (save_metadata json_dump t (saved_dir ++ [a]) mode).1 = t).
Proof.
  split; [|split].
  - intros q H1 H2. apply save_metadata_beside; by rewrite <- app_assoc.
  - intros b Hab. by apply save_metadata_sibling.
  - unfold save_metadata. by destruct (write_file _ _ _).
Qed.

Lemma set_mode_touches_metadata_only_witness :
  node_at (save_metadata mode_dump saved_fs ["saved"; "s"] "Solo Play").1
    ["saved"; "notes"] = Some (File (text "x"))
  ∧ get_save_mode mode_load
      (save_metadata mode_dump saved_fs ["saved"; "s"] "Solo Play").1
      ["saved"; "broken"] = Unknown.
Proof.
  destruct (set_mode_touches_metadata_only mode_load mode_dump saved_fs
              ["saved"] "s" "Solo Play") as (Hnode & Hmode & _).
  split.
  - transitivity (node_at saved_fs ["saved"; "notes"]); [|reflexivity].
    apply (Hnode ["saved"; "notes"]); intros [k Hk]; discriminate Hk.
  - transitivity (get_save_mode mode_load saved_fs ["saved"; "broken"]);
      [|reflexivity].
    apply (Hmode "broken"). discriminate.
Defined.



(** X14: the paths collected from a populated tree are paths the copy
    understands.  For a game directory that holds each name once, with
    names that are not empty, not [.] or [..] and without a slash,
    every path [get_checked_paths] collects from the tree of
    [populate_tree] is relative and without [..], and resolves against
    the game directory to an existing entry, a directory when the path
    ends with a slash and a regular file when it does not. *)
Theorem checked_paths_resolve (lower : string → string) (cfg : list string)
    (t : node) (game_saved : path) (es : list (string * node))
    (root : Tree.item) :
  node_at t game_saved = Some (Dir es) →
  wf (Dir es) = true → valid_names (Dir es) = true →
  populate_tree lower cfg t game_saved = inl root →
  ∀ r, r ∈ Tree.get_checked_paths root →
    plain r = true
    ∧ ∃ c, node_at t (joinpath game_saved (rstrip_slash r)) = Some c
        ∧ match c with
          | Dir _ => rstrip_slash r ≠ r
          | File _ => rstrip_slash r = r
          end.
Proof.
  intros Hd Hw Hv Hp r Hr.
  destruct (checked_populate_tree lower cfg t game_saved es Hd)
    as (root0 & Hp0 & Hc).
  rewrite Hp in Hp0. injection Hp0 as <-. rewrite Hc in Hr.
  apply list_elem_of_filter in Hr as [_ Hr].
  destruct (shown_paths_names lower (Dir es) Hw Hv "" r Hr)
    as (q & c & Hq & Hc' & Hvq & ->).
  rewrite append_nil_l.
  assert (rstrip_slash match c with
                       | Dir _ => dir_rel q
                       | File _ => file_rel q
                       end = file_rel q) as Hs.
  { destruct c; [by apply rstrip_slash_file_rel|by apply rstrip_slash_dir_rel]. }
  destruct (plain_of_names _ q Hq Hvq Hs) as [Hpl Hj].
  split; [done|]. exists c. rewrite Hj, node_at_app, Hd. split; [done|].
  rewrite Hs. destruct c; [done|].
  rewrite dir_rel_file_rel by done. intros H.
  by apply (append_slash_ne (file_rel q)).
Qed.

Lemma checked_paths_resolve_witness :
  plain "db/a.txt" = true
  ∧ ∃ c, node_at scenario_fs (joinpath ["game"] (rstrip_slash "db/a.txt"))
         = Some c
      ∧ match c with
        | Dir _ => rstrip_slash "db/a.txt" ≠ "db/a.txt"
        | File _ => rstrip_slash "db/a.txt" = "db/a.txt"
        end.
Proof.
  apply (checked_paths_resolve ascii_lower ["db/a.txt"; "gone"; "log.txt"]
           scenario_fs ["game"]
           [("db", Dir [("a.txt", File (text "hello"))]);
            ("log.txt", File (text "abc"))] scenario_root).
  - reflexivity.
  - reflexivity.
  - reflexivity.
  - vm_compute. reflexivity.
  - vm_compute. apply list_elem_of_here.
Defined.

(** X15: [find_game_path] never returns a path that does not exist; and
    on Linux the first Steam directory that exists decides: when
    [~/.steam/steam] exists, the game folder is looked for below it
    only, and when it is not there the result is the one of the manual
    selection, whatever the other Steam directories hold. *)
Theorem find_game_path_exists (sys_plat : system) (cwd : path)
    (game_dir : string) (t : node) :
  (∀ p, find_game_path sys_plat cwd game_dir t = Some p →
     path_exists t p = true)
  ∧ (∀ home, sys_plat = linux home →
     path_exists t (home ++ [".steam"; "steam"]) = true →
     find_game_path sys_plat cwd game_dir t
     = if path_exists t
            (home ++ [".steam"; "steam"; "steamapps"; "common";
                      "Conan Exiles"; "ConanSandbox"])
       then Some (home ++ [".steam"; "steam"; "steamapps"; "common";
                           "Conan Exiles"; "ConanSandbox"])
       else find_game_path other_system cwd game_dir t).
Proof.
  split.
  - intros p. unfold find_game_path.
    assert (∀ o : option path,
              (if String.eqb game_dir "" then None
               else if path_exists t (joinpath cwd game_dir)
                    then Some (joinpath cwd game_dir) else None) = o →
              o = Some p → path_exists t p = true) as Hmanual.
    { intros o <-. destruct (String.eqb game_dir ""); [done|].
      destruct (path_exists t (joinpath cwd game_dir)) eqn:E; [|done].
      by intros [= <-]. }
    destruct (get_steam_path sys_plat t) as [sp|]; [|by eapply Hmanual].
    destruct (path_exists t (sp ++ _)) eqn:E; [by intros [= <-]|].
    by eapply Hmanual.
  - intros home -> He. unfold find_game_path. simpl. rewrite He.
    by rewrite <- !app_assoc.
Qed.

Lemma find_game_path_exists_witness :
  find_game_path (linux ["home"]) [] "/game" steam_fs = Some ["game"].
Proof.
  destruct (find_game_path_exists (linux ["home"]) [] "/game" steam_fs)
    as [_ Hfirst].
  rewrite (Hfirst ["home"] eq_refl eq_refl). reflexivity.
Defined.

(** X16: an enabled button passes the guard of its handler.  After
    [update_buttons], the backup and create buttons are enabled exactly
    when [backup_save] and [create_new_save] do not ask for a
    configuration; an enabled load button means that [load_save] does
    not ask for a selection, and an enabled launch button that
    [launch_game] starts the launch worker; and an enabled delete button
    means that [delete_save], once confirmed, starts the delete
    worker. *)
Theorem enabled_buttons_pass_guards (json_dump : json → bytes)
    (game_saved saved_dir : path) (w : window) :
  (∀ name ok clicked t,
     backup_btn (update_buttons w) = true
     ↔ (backup_save json_dump game_saved saved_dir (config_paths w) name ok
          clicked t).2 ≠ need_config)
  ∧ (∀ name ok clicked t,
     create_btn (update_buttons w) = true
     ↔ (create_new_save json_dump game_saved saved_dir (config_paths w) name
          ok clicked t).2 ≠ need_config)
  ∧ (load_btn (update_buttons w) = true →
     ∀ yes, (load_save saved_dir game_saved yes w).2 ≠ select_first)
  ∧ (launch_btn (update_buttons w) = true → launch_game w = launching)
  ∧ (delete_btn (update_buttons w) = true →
     ∃ name, current_save w = Some name
       ∧ (delete_save saved_dir true w).2
         = deleting (joinpath saved_dir name)).
Proof.
  assert (∀ title name ok clicked t,
            has_config w = true
            ↔ (new_slot json_dump title game_saved saved_dir (config_paths w)
                 name ok clicked t).2 ≠ need_config) as Hnew.
  { intros title name ok clicked t. unfold has_config, new_slot.
    destruct (config_paths w) as [|p ps]; [by split|].
    split; [|done]. intros _.
    destruct (ok && _); [|done].
    destruct (path_exists _ _); [done|].
    destruct (choose_save_mode clicked); [|done].
    destruct (os_mkdir _ _); [|done]. by destruct (save_metadata _ _ _ _). }
  split; [intros; apply Hnew|]. split; [intros; apply Hnew|].
  unfold update_buttons, load_save, launch_game, delete_save, has_current.
  simpl. split; [|split].
  - intros [_ Hc]%andb_true_iff yes.
    destruct (current_save w) as [[|a s]|]; try done. by destruct yes.
  - intros [_ Hc]%andb_true_iff. by rewrite Hc.
  - intros Hc. destruct (current_save w) as [[|a s]|]; try done. by eexists.
Qed.

(** X17: a copy in progress disables the refresh button only.  When
    [load_save] starts its copy, the window it leaves has the backup,
    load, launch and create buttons enabled whenever a configuration
    exists, the delete button enabled, and the refresh button disabled;
    [on_copy_finished] enables the refresh button again and leaves the
    others as they are. *)
Theorem copy_disables_refresh_only (saved_dir game_saved : path)
    (w : window) (title : string) (worker : worker) :
  (load_save saved_dir game_saved true w).2 = copying title worker →
  backup_btn (load_save saved_dir game_saved true w).1 = has_config w
  ∧ load_btn (load_save saved_dir game_saved true w).1 = has_config w
  ∧ launch_btn (load_save saved_dir game_saved true w).1 = has_config w
  ∧ create_btn (load_save saved_dir game_saved true w).1 = has_config w
  ∧ delete_btn (load_save saved_dir game_saved true w).1 = true
  ∧ refresh_btn (load_save saved_dir game_saved true w).1 = false
  ∧ on_copy_finished (load_save saved_dir game_saved true w).1
    = set_refresh_btn true (load_save saved_dir game_saved true w).1.
Proof.
  unfold load_save, do_copy, on_copy_finished, update_buttons, has_current.
  destruct (current_save w) as [[|a s]|] eqn:E; try done. intros _.
  unfold set_refresh_btn, has_config, has_current. cbn. rewrite ?E. cbn.
  rewrite ?andb_true_r. done.
Qed.

Lemma copy_disables_refresh_only_witness :
  backup_btn (load_save [] ["game"] true scenario_window).1 = true
  ∧ refresh_btn (load_save [] ["game"] true scenario_window).1 = false.
Proof.
  destruct (copy_disables_refresh_only [] ["game"] scenario_window
              "Loading slot..."
              {| source_base := ["slot"]; dest_base := ["game"];
                 paths := ["db/"; "log.txt"] |} eq_refl)
    as (H1 & _ & _ & _ & _ & H2 & _).
  split; [exact H1|exact H2].
Defined.

(** X18: the mode that was changed is the mode that is listed.  With a
    slot selected whose name is a valid entry name, whose directory
    exists and whose [metadata.json] is not a directory, a mode chosen
    in the dialog, a [json] module that writes and reads the mode back
    and a binding that makes of a string the item that shows it:
    [change_save_mode] shows a listing in which every row of the slot
    carries the new mode, and the slot has a row when its time can be
    formatted; and when the write has left the modification times of
    the other slots as they were, the rows of the other slots are the
    very same as before and in the same order among themselves.  The
    time of the slot itself can be a new one, since making
    [metadata.json] changes its directory, so that its row can move and
    its date change. *)
Theorem changed_mode_is_listed (json_load : bytes → option json)
    (json_dump : json → bytes) (st_mtime st_mtime' : path → Z)
    (strftime : Z → option string) (size_str : nat → string)
    (QTableWidgetItem : json → option string)
    (saved_dir : path) (w : window) (n : string) (clicked : button)
    (mode : string) (t : node) (l : listing) :
  current_save w = Some n → valid_name n = true →
  choose_save_mode clicked = Some mode →
  json_load (json_dump (JObj [("mode", JStr mode)]))
    = Some (JObj [("mode", JStr mode)]) →
  QTableWidgetItem (JStr mode) = Some mode →
  is_dir t (saved_dir ++ [n]) = true →
  is_dir t (saved_dir ++ [n; "metadata.json"]) = false →
  refresh_saves json_load st_mtime strftime size_str QTableWidgetItem
    t saved_dir = inl l →
  ∃ t' l',
    change_save_mode json_load json_dump st_mtime' strftime size_str
      QTableWidgetItem saved_dir clicked w t = (t', returned, Some (inl l'))
    ∧ Forall (λ r, row_name r = n → row_mode r = Some mode) (table l')
    ∧ (is_Some (strftime (st_mtime' (saved_dir ++ [n]))) →
       ∃ r, r ∈ table l' ∧ row_name r = n)
    ∧ ((∀ m, m ≠ n →
          st_mtime' (saved_dir ++ [m]) = st_mtime (saved_dir ++ [m])) →
       filter (λ r, row_name r ≠ n) (table l')
       = filter (λ r, row_name r ≠ n) (table l)).
Proof.
  intros Hcur Hv Hm Hrt Hitem Hd Hmeta Hl.
  pose proof (joinpath_name saved_dir n Hv) as Hj.
  apply valid_name_inv in Hv as (Hname & _).
  unfold change_save_mode. rewrite Hcur. destruct n as [|a n]; [done|].
  rewrite Hm, Hj. unfold save_metadata.
  change (saved_dir ++ [String a n; "metadata.json"])
    with (saved_dir ++ [String a n] ++ ["metadata.json"]) in Hmeta.
  rewrite app_assoc in Hmeta.
  destruct (write_file_entry t (saved_dir ++ [String a n]) "metadata.json"
              (json_dump (JObj [("mode", JStr mode)])) Hd Hmeta) as [t' Hw].
  rewrite Hw. simpl.
  unfold is_dir in Hd. rewrite node_at_app in Hd.
  destruct (node_at t saved_dir) as [[|es]|] eqn:Hsd; try done.
  simpl in Hd. destruct (assoc (String a n) es) as [[|cs]|] eqn:Ha; try done.
  rewrite <- app_assoc in Hw.
  destruct (refresh_saves_mode_written json_load json_dump st_mtime st_mtime'
              strftime size_str QTableWidgetItem t t' saved_dir (String a n)
              mode es cs l Hsd Ha Hw Hrt Hitem Hl)
    as (l' & Hl' & Hrows).
  exists t', l'. by rewrite Hl'.
Qed.

Lemma changed_mode_is_listed_witness :
  ∃ t' l',
    change_save_mode mode_load mode_dump later_mtime stamp mb str_item
      ["saved"] online_btn s_window saved_fs = (t', returned, Some (inl l'))
    ∧ Forall (λ r, row_name r = "s" → row_mode r = Some "Online Play")
        (table l')
    ∧ (∃ r, r ∈ table l' ∧ row_name r = "s")
    ∧ filter (λ r, row_name r ≠ "s") (table l')
      = [ {| row_name := "broken"; row_date := "2024-01-01 00:00";
             row_size := "0.0 MB"; row_mode := Some "Unknown" |} ].
Proof.
  destruct (changed_mode_is_listed mode_load mode_dump slot_mtime later_mtime
              stamp mb str_item ["saved"] s_window "s" online_btn
              "Online Play" saved_fs
              {| table := [ {| row_name := "broken";
                               row_date := "2024-01-01 00:00";
                               row_size := "0.0 MB";
                               row_mode := Some "Unknown" |};
                            {| row_name := "s"; row_date := "2024-01-01 00:00";
                               row_size := "0.0 MB";
                               row_mode := Some "Unknown" |} ];
                 logged := [] |})
    as (t' & l' & Hc & Hmode & Hrow & Hrest);
    [reflexivity..|].
  exists t', l'. split; [exact Hc|]. split; [exact Hmode|]. split.
  - apply Hrow. by eexists.
  - rewrite Hrest; [reflexivity|].
    intros m Hm. unfold later_mtime. simpl.
    destruct (String.eqb_spec m "s") as [->|_]; [done|reflexivity].
Defined.

(** X19: what happens when the game exits.  [launch_finished] reads the
    selection of that moment.  With a slot selected whose name is a
    valid entry name (not empty, not [.] or [..], without a slash) it
    starts a copy from the game directory into the slot; for a game
    root and a slot directory that do not overlap, configured paths
    that are relative and without [..], and a tree that holds each name
    once, when that copy succeeds the slot holds, for every regular
    file below a configured path of the game directory, the same bytes
    at the same relative place, provided that no directory of the slot
    stood at that place before the copy.  With nothing selected it
    starts no copy. *)
Theorem slot_updated_after_game (game_saved saved_dir : path) (w : window)
    (t : node) :
  (∀ n p q x,
     current_save w = Some n →
     valid_name n = true →
     disjoint game_saved (saved_dir ++ [n]) →
     Forall (λ p, plain p = true) (config_paths w) →
     wf t = true →
     p ∈ config_paths w →
     node_at t (game_saved ++ parts (rstrip_slash p) ++ q) = Some (File x) →
     is_dir t ((saved_dir ++ [n]) ++ parts (rstrip_slash p) ++ q) = false →
     ∃ w' title worker,
       launch_finished saved_dir game_saved w
       = Some (w', copying title worker)
       ∧ source_base worker = game_saved
       ∧ dest_base worker = saved_dir ++ [n]
       ∧ (succeeded (run worker t).1 = true →
          node_at (run worker t).2
            ((saved_dir ++ [n]) ++ parts (rstrip_slash p) ++ q)
          = Some (File x)))
  ∧ (current_save w = None →
     launch_finished saved_dir game_saved w = None).
Proof.
  split.
  - intros n p q x Hcur Hv Hd Hpl Hw Hin Hq Hnd.
    pose proof (joinpath_name saved_dir n Hv) as Hj.
    unfold launch_finished, restore_after_launch. rewrite Hcur, Hj.
    eexists _, _, _. split; [done|]. split; [done|]. split; [done|].
    intros Hok.
    by apply (run_copied
                {| source_base := game_saved; dest_base := saved_dir ++ [n];
                   paths := config_paths w |} t p q x).
  - unfold launch_finished. by intros ->.
Qed.

Lemma slot_updated_after_game_witness :
  ∃ w' title worker,
    launch_finished [] ["game"] scenario_window
    = Some (w', copying title worker)
    ∧ source_base worker = ["game"]
    ∧ dest_base worker = ["slot"]
    ∧ (succeeded (run worker played_fs).1 = true →
       node_at (run worker played_fs).2 ["slot"; "db"; "a.txt"]
       = Some (File (text "HELLO WORLD"))).
Proof.
  destruct (slot_updated_after_game ["game"] [] scenario_window played_fs)
    as [Hsel _].
  apply (Hsel "slot" "db/" ["a.txt"] (text "HELLO WORLD")).
  - reflexivity.
  - reflexivity.
  - split; intros [k Hk]; discriminate Hk.
  - repeat constructor.
  - reflexivity.
  - constructor.
  - reflexivity.
  - reflexivity.
Defined.

(** X20: a copy of a fresh selection skips nothing.  For a game
    directory that holds each name once, with names that are not empty,
    not [.] or [..] and without a slash, and a destination root that
    does not overlap it, [run] on the paths collected from the tree
    [populate_tree] makes of that directory logs no warning about a
    missing source. *)
Theorem fresh_selection_has_its_sources (lower : string → string)
    (cfg : list string) (t : node) (game_saved dest : path)
    (es : list (string * node)) (root : Tree.item) :
  node_at t game_saved = Some (Dir es) →
  wf t = true → valid_names (Dir es) = true →
  populate_tree lower cfg t game_saved = inl root →
  disjoint game_saved dest →
  ∀ src,
    warning src
    ∉ (run {| source_base := game_saved; dest_base := dest;
              paths := Tree.get_checked_paths root |} t).1.
Proof.
  intros Hd Hw Hv Hp Hdis src Hin.
  pose proof (wf_node_at _ _ _ Hw Hd) as Hwd.
  pose proof (checked_paths_entries lower cfg t game_saved es root Hd Hwd Hv Hp)
    as Hres.
  unfold run in Hin. simpl in Hin.
  destruct (run_from _ _ _ _ _ t) as [evs t'] eqn:Hr. simpl in Hin.
  assert (∀ s0, node_at t game_saved = Some s0 → wf s0 = true) as Hws.
  { intros s0 H0. by apply (wf_node_at t game_saved). }
  assert (Forall (λ p, plain p = true) (Tree.get_checked_paths root)) as Hpl.
  { apply Forall_forall. intros r Hr'. by apply Hres. }
  destruct (run_from_warning_source game_saved dest _ 0 _ t evs t' Hdis
              Hws Hpl Hr _ Hin) as (p & Hpin & -> & Hmiss).
  destruct (Hres _ Hpin) as [_ He]. congruence.
Qed.

Lemma fresh_selection_has_its_sources_witness :
  Tree.get_checked_paths scenario_root = ["db/a.txt"; "log.txt"]
  ∧ ∀ src,
      warning src
      ∉ (run {| source_base := ["game"]; dest_base := ["slot"];
                paths := Tree.get_checked_paths scenario_root |}
           scenario_fs).1.
Proof.
  split; [reflexivity|].
  apply (fresh_selection_has_its_sources ascii_lower
           ["db/a.txt"; "gone"; "log.txt"] scenario_fs ["game"] ["slot"]
           [("db", Dir [("a.txt", File (text "hello"))]);
            ("log.txt", File (text "abc"))] scenario_root).
  - reflexivity.
  - reflexivity.
  - reflexivity.
  - vm_compute. reflexivity.
  - split; intros [k Hk]; discriminate Hk.
Defined.

(** X21: every listed slot can be selected and deleted.  For a slots
    root that holds each name once, with names that are not empty, not
    [.] or [..] and without a slash: clicking a row of the listing of
    [refresh_saves] selects the slot of that row and enables the delete
    button; [delete_save], once confirmed, then starts the delete worker
    on the directory of that slot; and the worker succeeds. *)
Theorem listed_slot_can_be_deleted (json_load : bytes → option json)
    (st_mtime : path → Z) (strftime : Z → option string)
    (size_str : nat → string) (QTableWidgetItem : json → option string)
    (saved_dir : path) (t : node) (es : list (string * node)) (l : listing)
    (r : nat) (item : row) (w : window) :
  node_at t saved_dir = Some (Dir es) →
  wf (Dir es) = true →
  Forall (λ e, valid_name e.1 = true) es →
  refresh_saves json_load st_mtime strftime size_str QTableWidgetItem
    t saved_dir = inl l →
  table l !! r = Some item →
  current_save (on_save_selected (table l) r w) = Some (row_name item)
  ∧ delete_btn (on_save_selected (table l) r w) = true
  ∧ (delete_save saved_dir true (on_save_selected (table l) r w)).2
    = deleting (saved_dir ++ [row_name item])
  ∧ (DeleteWorker.run (saved_dir ++ [row_name item]) t).1
    = [DeleteWorker.finished true].
Proof.
  intros Hd Hw Hv Hl Hr.
  assert (∃ cs, (row_name item, Dir cs) ∈ es) as [cs He].
  { unfold refresh_saves in Hl. rewrite Hd in Hl. injection Hl as <-.
    simpl in Hr. apply list_elem_of_lookup_2 in Hr.
    apply list_elem_of_omap in Hr as ([n c] & Hin & Hrow).
    rewrite (SlotFacts2.sorted_reverse_perm _ es) in Hin.
    pose proof (entry_row_name _ _ _ _ _ _ _ _ _ Hrow) as En. simpl in En.
    rewrite En. unfold entry_row in Hrow. simpl in Hrow.
    destruct c as [|cs]; [done|]. by exists cs. }
  destruct (wf_entry _ _ _ Hw He) as [Ha _].
  pose proof (proj1 (Forall_forall _ _) Hv _ He) as Hn. simpl in Hn.
  assert (joinpath saved_dir (row_name item)
          = saved_dir ++ [row_name item]) as Hj.
  { assert (Forall (λ n, valid_name n = true) [row_name item]) as Hq
      by (by constructor).
    pose proof (is_absolute_file_rel [row_name item] Hq) as H1.
    pose proof (parts_file_rel [row_name item] ltac:(done) Hq) as H2.
    simpl in H1, H2. unfold joinpath. by rewrite H1, H2. }
  apply valid_name_inv in Hn as (Hne & _).
  unfold on_save_selected. rewrite Hr.
  unfold update_buttons, delete_save, has_current, set_current_save. simpl.
  destruct (row_name item) as [|a s] eqn:E; [done|].
  split; [done|]. split; [done|]. rewrite Hj. split; [done|].
  assert (saved_dir ++ [String a s] ≠ []) as Hnn by (by destruct saved_dir).
  assert (is_dir t (saved_dir ++ [String a s]) = true) as Hdir.
  { unfold is_dir. rewrite node_at_app, Hd. simpl. by rewrite Ha. }
  unfold DeleteWorker.run.
  by destruct (rmtree_dir _ t Hnn Hdir) as (t' & -> & _).
Qed.

Lemma listed_slot_can_be_deleted_witness :
  (delete_save ["saved"] true
     (on_save_selected
        [ {| row_name := "broken"; row_date := "2024-01-01 00:00";
             row_size := "0.0 MB"; row_mode := Some "Unknown" |};
          {| row_name := "s"; row_date := "2024-01-01 00:00";
             row_size := "0.0 MB"; row_mode := Some "Unknown" |} ] 1 s_window)).2
  = deleting ["saved"; "s"]
  ∧ (DeleteWorker.run ["saved"; "s"] saved_fs).1 = [DeleteWorker.finished true].
Proof.
  destruct (listed_slot_can_be_deleted mode_load slot_mtime stamp mb str_item
              ["saved"] saved_fs
              [("s", Dir []); ("notes", File (text "x"));
               ("broken", Dir [("metadata.json", Dir [])])]
              {| table := [ {| row_name := "broken";
                               row_date := "2024-01-01 00:00";
                               row_size := "0.0 MB"; row_mode := Some "Unknown" |};
                            {| row_name := "s"; row_date := "2024-01-01 00:00";
                               row_size := "0.0 MB"; row_mode := Some "Unknown" |} ];
                 logged := [] |}
              1 {| row_name := "s"; row_date := "2024-01-01 00:00";
                   row_size := "0.0 MB"; row_mode := Some "Unknown" |} s_window)
    as (_ & _ & Hdel & Hrun).
  - reflexivity.
  - reflexivity.
  - repeat constructor.
  - reflexivity.
  - reflexivity.
  - split; [exact Hdel|exact Hrun].
Defined.
